(** * PointerWars: slab/bump-pointer allocator, linked lists (level 1 and
      level 2), FIFO queue and the BFS benchmark harness.

    A shallow embedding of the C sources.  Pointers and [size_t] values are
    integers ([Z]) with the 64-bit wrap-around written out; the heap is a
    finite map from addresses to objects; C functions that touch memory are
    functions in a small state-and-fault monad. *)

From Stdlib Require Import ZArith Lia Bool List.
From stdpp Require Import base option list gmap.

Set Warnings "-clear-no-such-hyp".

Local Open Scope Z_scope.

(** ** Machine integers and pointers (LP64) *)

Definition NULL : Z := 0.
Definition SIZE_MAX : Z := 2 ^ 64 - 1.
Definition wrap64 (z : Z) : Z := z mod 2 ^ 64.

(** ** Outcomes of running a C function

    [Ret] is a normal return.  [Stop] records why the run did not return:
    undefined behaviour (a null or wild pointer dereferenced, a null function
    pointer called), a failed [assert], a call to [exit], or a loop that did
    not finish within the fuel given to the model. *)

Inductive fault : Type :=
  | NullDeref
  | WildAccess
  | NullCall
  | AssertFail
  | Exit (code : Z)
  | OutOfFuel.

Inductive outcome (X : Type) : Type :=
  | Ret (x : X)
  | Stop (f : fault).
Arguments Ret {X} x.
Arguments Stop {X} f.

Definition M (S X : Type) : Type := S -> outcome (X * S).

Definition ret {S X} (x : X) : M S X := fun s => Ret (x, s).
Definition stop {S X} (f : fault) : M S X := fun _ => Stop f.
Definition bind {S X Y} (c : M S X) (k : X -> M S Y) : M S Y :=
  fun s => match c s with
           | Ret (x, s') => k x s'
           | Stop f => Stop f
           end.
Definition get {S} : M S S := fun s => Ret (s, s).

Declare Scope cmd_scope.
Delimit Scope cmd_scope with cmd.
Notation "x <- c ;; k" := (bind c (fun x => k))
  (at level 100, c at next level, k at level 200, right associativity) : cmd_scope.
Notation "c ;;; k" := (bind c (fun _ => k))
  (at level 100, k at level 200, right associativity) : cmd_scope.
Local Open Scope cmd_scope.

(** ** The slab and the bump-pointer allocator

    [bump_ptr_allocator.c] and the copy embedded in
    [level1/linked_list_allocator.h] are the same code; one embedding serves
    both. *)

Module BumpPtr.

Definition DEFAULT_ALLOC_SIZE_BYTES : Z := 4096.
Definition DEFAULT_NUM_SLABS : Z := 512.

(** [(raw + alignment - 1) & ~(alignment - 1)] on [uintptr_t]. *)
Definition align_to (ptr alignment : Z) : Z :=
  Z.land (wrap64 (ptr + alignment - 1)) (wrap64 (Z.lnot (alignment - 1))).

Record slab : Type := mkSlab {
  data : Z;
  curr : Z;
  end_ : Z;
  alloc_size : Z
}.

Record bump_ptr_allocator : Type := mkAllocator {
  slabs : list slab;
  slab_ptr : Z;
  last_alloc_size : Z;
  total_mem_allocated : Z;
  initialized : bool
}.

(** A [static struct bump_ptr_allocator]: every byte zero. *)
Definition zero_slab : slab := mkSlab 0 0 0 0.
Definition static_allocator : bump_ptr_allocator :=
  mkAllocator (replicate (Z.to_nat DEFAULT_NUM_SLABS) zero_slab) 0 0 0 false.

(** The state the allocator code runs in: the allocator instance and the C
    library underneath it.  [libc_calls] counts the calls made to the
    library's [malloc]; what the library answers is the section variable
    [libc_malloc] below. *)
Record bstate : Type := mkBstate {
  allocator : bump_ptr_allocator;
  libc_calls : nat
}.

Section WithLibc.

(** [libc_malloc n sz]: the address the C library returns to its [n]-th
    [malloc] call when asked for [sz] bytes ([NULL] when it fails). *)
Variable libc_malloc : nat -> Z -> Z.

Definition malloc (sz : Z) : M bstate Z := fun s =>
  Ret (libc_malloc (libc_calls s) sz,
       mkBstate (allocator s) (Datatypes.S (libc_calls s))).

Definition get_slab (i : Z) : M bstate slab := fun s =>
  match slabs (allocator s) !! Z.to_nat i with
  | Some sl => if (0 <=? i) then Ret (sl, s) else Stop WildAccess
  | None => Stop WildAccess
  end.

Definition with_slab (i : Z) (sl : slab) (s : bstate) : bstate :=
  let a := allocator s in
  mkBstate (mkAllocator (<[Z.to_nat i := sl]> (slabs a)) (slab_ptr a)
              (last_alloc_size a) (total_mem_allocated a) (initialized a))
           (libc_calls s).

Definition with_bookkeeping (sp las tot : Z) (ini : bool) (s : bstate) : bstate :=
  mkBstate (mkAllocator (slabs (allocator s)) sp las tot ini) (libc_calls s).

Definition set_slab (i : Z) (sl : slab) : M bstate unit :=
  fun s => Ret (tt, with_slab i sl s).

Definition set_bookkeeping (sp las tot : Z) (ini : bool) : M bstate unit :=
  fun s => Ret (tt, with_bookkeeping sp las tot ini s).

(** [slab_init(&allocator->slabs[i], alloc_size)] *)
Definition slab_init (i : Z) (asz : Z) : M bstate bool :=
  sl <- get_slab i ;;
  d <- malloc asz ;;
  if d =? NULL then
    set_slab i (mkSlab d (curr sl) (end_ sl) (alloc_size sl)) ;;;
    ret false
  else
    set_slab i (mkSlab d d (wrap64 (d + asz)) asz) ;;;
    ret true.


(** [slab_malloc(&allocator->slabs[i], size)] *)
Definition slab_malloc (i : Z) (size : Z) : M bstate Z :=
  sl <- get_slab i ;;
  let alignment := 8 in
  let new_alloc := align_to (curr sl) alignment in
  let new_alloc_end := wrap64 (new_alloc + size) in
  if end_ sl <? new_alloc_end then ret NULL
  else
    set_slab i (mkSlab (data sl) new_alloc_end (end_ sl) (alloc_size sl)) ;;;
    ret new_alloc.

Definition bump_ptr_allocator_init : M bstate bool :=
  s <- get ;;
  if initialized (allocator s) then stop (Exit (-1))
  else
    set_bookkeeping 0 DEFAULT_ALLOC_SIZE_BYTES DEFAULT_ALLOC_SIZE_BYTES true ;;;
    ok <- slab_init 0 DEFAULT_ALLOC_SIZE_BYTES ;;
    if negb ok then ret false else ret true.


Definition bump_ptr_allocator_malloc (allocator_null : bool) (size : Z) : M bstate Z :=
  if allocator_null then stop (Exit (-1))
  else
    s <- get ;;
    alloc <- slab_malloc (slab_ptr (allocator s)) size ;;
    if negb (alloc =? NULL) then ret alloc
    else
      s <- get ;;
      let a := allocator s in
      if DEFAULT_NUM_SLABS <=? wrap64 (slab_ptr a + 1) then ret NULL
      else
        let sp := wrap64 (slab_ptr a + 1) in
        let las := wrap64 (last_alloc_size a * 2) in
        let tot := wrap64 (total_mem_allocated a + las) in
        set_bookkeeping sp las tot (initialized a) ;;;
        ok <- slab_init sp las ;;
        if negb ok then ret NULL
        else
          alloc <- slab_malloc sp size ;;
          if negb (alloc =? NULL) then
            sl <- get_slab sp ;;
            ret (curr sl)
          else ret NULL.

Definition custom_malloc (size : Z) : M bstate Z :=
  bump_ptr_allocator_malloc false size.

Definition custom_free (addr : Z) : M bstate unit := ret tt.

Definition bump_ptr_setup : M bstate unit :=
  s <- get ;;
  if negb (initialized (allocator s)) then
    bump_ptr_allocator_init ;;; ret tt
  else ret tt.


(** A run of allocation requests, in order: the pointers returned. *)
Fixpoint malloc_all (sizes : list Z) : M bstate (list Z) :=
  match sizes with
  | [] => ret []
  | sz :: rest =>
      p <- custom_malloc sz ;;
      ps <- malloc_all rest ;;
      ret (p :: ps)
  end.

End WithLibc.

(** Two allocations [[p, p + n)] and [[q, q + m)] overlap. *)
Definition overlap (p n q m : Z) : Prop := p < q + m /\ q < p + n.

(** A C library that hands out blocks 1 MiB apart, 16-byte aligned. *)
Definition libc_spaced (n : nat) (sz : Z) : Z := 1048576 * (Z.of_nat n + 1).

Definition fresh : bstate := mkBstate static_allocator 0.

End BumpPtr.

(** ** Objects on the heap

    [linked_list.h] (the struct declarations of both levels) is not part of
    the sources at hand; the records below follow the fields the code reads
    and writes.  Level 1 keeps [head] and [size]; level 2 adds [tail].  The
    iterator's fields [ll] and [data] are [it_ll] and [it_data] here, [data]
    being a node's field already. *)

Record node : Type := mkNode {
  data : Z;
  next : Z
}.

Record iterator : Type := mkIterator {
  it_ll : Z;
  current_node : Z;
  current_index : Z;
  it_data : Z
}.

Module Level1Types.
Record linked_list : Type := mkList {
  head : Z;
  size : Z
}.
End Level1Types.

Module Level2Types.
Record linked_list : Type := mkList {
  head : Z;
  tail : Z;
  size : Z
}.
Record queue : Type := mkQueue {
  q_ll : Z
}.
End Level2Types.

Inductive obj : Type :=
  | ONode (n : node)
  | OIter (it : iterator)
  | OList1 (l : Level1Types.linked_list)
  | OList2 (l : Level2Types.linked_list)
  | OQueue (q : Level2Types.queue).

(** [sizeof] of the structs on LP64. *)
Definition sizeof_node : Z := 16.
Definition sizeof_iterator : Z := 32.
Definition sizeof_linked_list1 : Z := 16.
Definition sizeof_linked_list2 : Z := 24.
Definition sizeof_queue : Z := 8.

(** ** The world the list and queue code runs in

    [A] is the state of whatever allocator the caller registered.  A
    registered [malloc] maps a size and the allocator state to the pointer
    returned and the new state; a registered [free] takes the pointer.
    [uninit] is what sits in memory that no object has been written to yet:
    a field of a freshly allocated struct reads as [uninit] of its address
    until the code stores to it. *)

Section World.
Context {A : Type}.

Definition malloc_fn : Type := Z -> A -> Z * A.
Definition free_fn : Type := Z -> A -> A.

Record world : Type := mkWorld {
  heap : gmap Z obj;
  astate : A;
  uninit : Z -> Z;
  malloc_fptr : option malloc_fn;    (* linked_list.c: static malloc_fptr *)
  free_fptr : option free_fn;        (* linked_list.c: static free_fptr *)
  q_malloc_fptr : option malloc_fn;  (* queue.c: static malloc_fptr *)
  q_free_fptr : option free_fn       (* queue.c: static free_fptr *)
}.

Definition with_heap (h : gmap Z obj) (w : world) : world :=
  mkWorld h (astate w) (uninit w) (malloc_fptr w) (free_fptr w)
          (q_malloc_fptr w) (q_free_fptr w).

Definition with_astate (a : A) (w : world) : world :=
  mkWorld (heap w) a (uninit w) (malloc_fptr w) (free_fptr w)
          (q_malloc_fptr w) (q_free_fptr w).

Definition bad_pointer (p : Z) : fault :=
  if p =? NULL then NullDeref else WildAccess.

(** Reading through a pointer. *)
Definition load (p : Z) : M world obj := fun w =>
  match heap w !! p with
  | Some o => if p =? NULL then Stop NullDeref else Ret (o, w)
  | None => Stop (bad_pointer p)
  end.

(** Writing through a pointer to a live object. *)
Definition store (p : Z) (o : obj) : M world unit := fun w =>
  match heap w !! p with
  | Some _ => if p =? NULL then Stop NullDeref
              else Ret (tt, with_heap (<[p := o]> (heap w)) w)
  | None => Stop (bad_pointer p)
  end.

Definition load_node (p : Z) : M world node :=
  o <- load p ;; match o with ONode n => ret n | _ => stop WildAccess end.
Definition load_iter (p : Z) : M world iterator :=
  o <- load p ;; match o with OIter it => ret it | _ => stop WildAccess end.

Definition set_data (p : Z) (v : Z) : M world unit :=
  n <- load_node p ;; store p (ONode (mkNode v (next n))).
Definition set_next (p : Z) (v : Z) : M world unit :=
  n <- load_node p ;; store p (ONode (mkNode (data n) v)).

(** Calling through a function pointer; a null one is a fault. *)
Definition call_malloc (fp : option malloc_fn) (sz : Z) : M world Z := fun w =>
  match fp with
  | None => Stop NullCall
  | Some f =>
      let (p, a') := f sz (astate w) in
      Ret (p, with_astate a' w)
  end.

(** After [free] the object is gone: the model drops it from the heap, so an
    access through a dangling pointer would fault. *)
Definition call_free (fp : option free_fn) (p : Z) : M world unit := fun w =>
  match fp with
  | None => Stop NullCall
  | Some f =>
      Ret (tt, with_heap (delete p (heap w)) (with_astate (f p (astate w)) w))
  end.

(** The cast of a [malloc] result to a struct pointer: a non-null block
    becomes an object whose fields hold whatever the memory held. *)
Definition cast_to (p : Z) (mk : (Z -> Z) -> obj) : M world unit := fun w =>
  if p =? NULL then Ret (tt, w)
  else Ret (tt, with_heap (<[p := mk (uninit w)]> (heap w)) w).

Definition as_node (p : Z) (u : Z -> Z) : obj :=
  ONode (mkNode (u p) (u (p + 8))).
Definition as_iterator (p : Z) (u : Z -> Z) : obj :=
  OIter (mkIterator (u p) (u (p + 8)) (u (p + 16)) (u (p + 24))).
Definition as_list1 (p : Z) (u : Z -> Z) : obj :=
  OList1 (Level1Types.mkList (u p) (u (p + 8))).
Definition as_list2 (p : Z) (u : Z -> Z) : obj :=
  OList2 (Level2Types.mkList (u p) (u (p + 8)) (u (p + 16))).
Definition as_queue (p : Z) (u : Z -> Z) : obj :=
  OQueue (Level2Types.mkQueue (u p)).

(** [while (n-- != 0) { prev = curr; curr = curr->next; }], the position
    walk of both list modules: the final [(prev, curr)]. *)
Fixpoint walk (n : nat) (prev curr : Z) : M world (Z * Z) :=
  match n with
  | O => ret (prev, curr)
  | Datatypes.S n' =>
      nd <- load_node curr ;;
      walk n' curr (next nd)
  end.

(** [while (curr != NULL) { if (curr->data == data) { result = i; break; }
    curr = curr->next; i += 1; }] of [linked_list_find]. *)
Fixpoint find_loop (fuel : nat) (v : Z) (curr i : Z) : M world Z :=
  match fuel with
  | O => stop OutOfFuel
  | Datatypes.S fuel' =>
      if curr =? NULL then ret SIZE_MAX
      else
        nd <- load_node curr ;;
        if data nd =? v then ret i
        else find_loop fuel' v (next nd) (wrap64 (i + 1))
  end.

(** [while (curr != NULL) { next = curr->next; free_fptr(curr); curr = next; }]
    of [linked_list_delete]. *)
Fixpoint delete_loop (fuel : nat) (curr : Z) : M world unit :=
  match fuel with
  | O => stop OutOfFuel
  | Datatypes.S fuel' =>
      if curr =? NULL then ret tt
      else
        nd <- load_node curr ;;
        w <- get ;;
        call_free (free_fptr w) curr ;;;
        delete_loop fuel' (next nd)
  end.

(** [linked_list_iterate], the same in both modules. *)
Definition linked_list_iterate (iter : Z) : M world bool :=
  if iter =? NULL then ret false
  else
    it <- load_iter iter ;;
    cn <- load_node (current_node it) ;;
    if negb (next cn =? NULL) then
      nn <- load_node (next cn) ;;
      store iter (OIter (mkIterator (it_ll it) (next cn)
                           (wrap64 (current_index it + 1)) (data nn))) ;;;
      ret true
    else ret false.

(** [linked_list_delete_iterator], the same in both modules. *)
Definition linked_list_delete_iterator (iter : Z) : M world bool :=
  if iter =? NULL then ret false
  else
    w <- get ;;
    call_free (free_fptr w) iter ;;;
    ret true.

(** [linked_list_register_malloc] / [linked_list_register_free]. *)
Definition linked_list_register_malloc (f : option malloc_fn) : M world bool :=
  fun w => Ret (true, mkWorld (heap w) (astate w) (uninit w) f (free_fptr w)
                              (q_malloc_fptr w) (q_free_fptr w)).
Definition linked_list_register_free (f : option free_fn) : M world bool :=
  fun w => Ret (true, mkWorld (heap w) (astate w) (uninit w) (malloc_fptr w) f
                              (q_malloc_fptr w) (q_free_fptr w)).

End World.
Arguments world A : clear implicits.
Arguments malloc_fn A : clear implicits.
Arguments free_fn A : clear implicits.

(** ** Level 1: the list with a head only ([linked_list.c], level 1) *)

Module Level1.
Import Level1Types.

Section Code.
Context {A : Type}.
Abbreviation W := (world A).

Definition load_list (p : Z) : M W linked_list :=
  o <- load p ;; match o with OList1 l => ret l | _ => stop WildAccess end.
Definition set_head (p : Z) (v : Z) : M W unit :=
  l <- load_list p ;; store p (OList1 (mkList v (size l))).
Definition set_size (p : Z) (v : Z) : M W unit :=
  l <- load_list p ;; store p (OList1 (mkList (head l) v)).

Definition linked_list_create : M W Z :=
  w <- get ;;
  match malloc_fptr w, free_fptr w with
  | Some _, Some _ =>
      empty_list <- call_malloc (malloc_fptr w) sizeof_linked_list1 ;;
      cast_to empty_list (as_list1 empty_list) ;;;
      if negb (empty_list =? NULL) then
        set_head empty_list NULL ;;;
        set_size empty_list 0 ;;;
        ret empty_list
      else ret empty_list
  | _, _ => ret NULL
  end.

Definition linked_list_delete (fuel : nat) (ll : Z) : M W bool :=
  if ll =? NULL then ret false
  else
    l <- load_list ll ;;
    delete_loop fuel (head l) ;;;
    w <- get ;;
    call_free (free_fptr w) ll ;;;
    ret true.

Definition linked_list_size (ll : Z) : M W Z :=
  if ll =? NULL then ret SIZE_MAX
  else l <- load_list ll ;; ret (size l).

Definition linked_list_insert (ll : Z) (index : Z) (d : Z) : M W bool :=
  oob <- (if ll =? NULL then ret true
          else sz <- linked_list_size ll ;; ret (sz <? index)) ;;
  if (oob : bool) then ret false
  else
    l <- load_list ll ;;
    pc <- walk (Z.to_nat index) NULL (head l) ;;
    let prev := fst pc in
    w <- get ;;
    new_node <- call_malloc (malloc_fptr w) sizeof_node ;;
    cast_to new_node (as_node new_node) ;;;
    set_data new_node d ;;;
    set_next new_node NULL ;;;
    l <- load_list ll ;;
    (if head l =? NULL then
       set_head ll new_node
     else if negb (prev =? NULL) then
       pn <- load_node prev ;;
       set_next new_node (next pn) ;;;
       set_next prev new_node
     else
       set_next new_node (head l) ;;;
       set_head ll new_node) ;;;
    l <- load_list ll ;;
    set_size ll (wrap64 (size l + 1)) ;;;
    ret true.

Definition linked_list_insert_end (ll : Z) (d : Z) : M W bool :=
  if negb (ll =? NULL) then
    sz <- linked_list_size ll ;;
    linked_list_insert ll sz d
  else ret false.

Definition linked_list_insert_front (ll : Z) (d : Z) : M W bool :=
  linked_list_insert ll 0 d.

Definition linked_list_find (fuel : nat) (ll : Z) (d : Z) : M W Z :=
  if ll =? NULL then ret SIZE_MAX
  else
    l <- load_list ll ;;
    find_loop fuel d (head l) 0.

Definition linked_list_remove (ll : Z) (index : Z) : M W bool :=
  oob <- (if ll =? NULL then ret true
          else sz <- linked_list_size ll ;; ret (sz <=? index)) ;;
  if (oob : bool) then ret false
  else
    (if index =? 0 then
       l <- load_list ll ;;
       let to_remove := head l in
       hn <- load_node (head l) ;;
       set_head ll (next hn) ;;;
       w <- get ;;
       call_free (free_fptr w) to_remove
     else
       l <- load_list ll ;;
       pc <- walk (Z.to_nat index) NULL (head l) ;;
       let prev := fst pc in
       let curr := snd pc in
       pn <- load_node prev ;;
       let to_remove := next pn in
       cn <- load_node curr ;;
       set_next prev (next cn) ;;;
       w <- get ;;
       call_free (free_fptr w) to_remove) ;;;
    l <- load_list ll ;;
    set_size ll (wrap64 (size l - 1)) ;;;
    ret true.

Definition linked_list_create_iterator (ll : Z) (index : Z) : M W Z :=
  oob <- (if ll =? NULL then ret true
          else sz <- linked_list_size ll ;; ret (sz <=? index)) ;;
  if (oob : bool) then ret NULL
  else
    w <- get ;;
    iter <- call_malloc (malloc_fptr w) sizeof_iterator ;;
    cast_to iter (as_iterator iter) ;;;
    it <- load_iter iter ;;
    store iter (OIter (mkIterator ll (current_node it) (current_index it) (it_data it))) ;;;
    it <- load_iter iter ;;
    store iter (OIter (mkIterator (it_ll it) (current_node it) index (it_data it))) ;;;
    (if index =? 0 then
       l <- load_list ll ;;
       hn <- load_node (head l) ;;
       it <- load_iter iter ;;
       store iter (OIter (mkIterator (it_ll it) (head l) (current_index it) (data hn)))
     else
       l <- load_list ll ;;
       pc <- walk (Z.to_nat index) NULL (head l) ;;
       let prev := fst pc in
       pn <- load_node prev ;;
       it <- load_iter iter ;;
       store iter (OIter (mkIterator (it_ll it) prev (current_index it) (data pn)))) ;;;
    ret iter.

(** Test driver: [size], then [insert_end], then [find] of the value just
    inserted: the size read first, the result of the insertion, the index
    found. *)
Definition insert_end_then_find (fuel : nat) (ll : Z) (d : Z) : M W (Z * bool * Z) :=
  sz <- linked_list_size ll ;;
  ok <- linked_list_insert_end ll d ;;
  i <- linked_list_find fuel ll d ;;
  ret (sz, ok, i).

End Code.
End Level1.

(** ** Level 2: the list with head and tail ([linked_list.c], level 2) *)

Module Level2.
Import Level2Types.

(** Stands for [&iter], the address of a local [struct iterator]: never
    null, and only ever compared with [NULL]. *)
Definition addr_of_local : Z := 1.

Section Code.
Context {A : Type}.
Abbreviation W := (world A).

Definition load_list (p : Z) : M W linked_list :=
  o <- load p ;; match o with OList2 l => ret l | _ => stop WildAccess end.
Definition set_head (p : Z) (v : Z) : M W unit :=
  l <- load_list p ;; store p (OList2 (mkList v (tail l) (size l))).
Definition set_tail (p : Z) (v : Z) : M W unit :=
  l <- load_list p ;; store p (OList2 (mkList (head l) v (size l))).
Definition set_size (p : Z) (v : Z) : M W unit :=
  l <- load_list p ;; store p (OList2 (mkList (head l) (tail l) v)).

Definition linked_list_create : M W Z :=
  w <- get ;;
  empty_list <- call_malloc (malloc_fptr w) sizeof_linked_list2 ;;
  cast_to empty_list (as_list2 empty_list) ;;;
  if negb (empty_list =? NULL) then
    set_head empty_list NULL ;;;
    set_tail empty_list NULL ;;;
    set_size empty_list 0 ;;;
    ret empty_list
  else ret empty_list.

Definition linked_list_delete (fuel : nat) (ll : Z) : M W bool :=
  if ll =? NULL then ret false
  else
    l <- load_list ll ;;
    delete_loop fuel (head l) ;;;
    w <- get ;;
    call_free (free_fptr w) ll ;;;
    ret true.

Definition linked_list_size (ll : Z) : M W Z :=
  if ll =? NULL then ret SIZE_MAX
  else l <- load_list ll ;; ret (size l).

(** [_linked_list_init_iterator(iter, ll, index)]: the fields it writes to
    [*iter], returned as a record; the caller puts them where [iter] points
    (a local, or the heap). *)
Definition _linked_list_init_iterator (iter : Z) (ll : Z) (index : Z) : M W iterator :=
  if iter =? NULL then stop AssertFail
  else
    l <- load_list ll ;;
    pc <- walk (Z.to_nat index) NULL (head l) ;;
    let curr := snd pc in
    cn <- load_node curr ;;
    ret (mkIterator ll curr index (data cn)).

Definition linked_list_insert (ll : Z) (index : Z) (d : Z) : M W bool :=
  ll_size <- linked_list_size ll ;;
  if (ll =? NULL) || (ll_size <? index) then ret false
  else
    w <- get ;;
    new_node <- call_malloc (malloc_fptr w) sizeof_node ;;
    cast_to new_node (as_node new_node) ;;;
    set_data new_node d ;;;
    (if index =? 0 then
       l <- load_list ll ;;
       set_next new_node (head l) ;;;
       set_head ll new_node ;;;
       if ll_size =? 0 then
         l <- load_list ll ;;
         set_tail ll (head l)
       else ret tt
     else if index =? ll_size then
       l <- load_list ll ;;
       set_next (tail l) new_node ;;;
       set_tail ll new_node
     else
       iter <- _linked_list_init_iterator addr_of_local ll (wrap64 (index - 1)) ;;
       let prev := current_node iter in
       pn <- load_node prev ;;
       set_next new_node (next pn) ;;;
       set_next prev new_node) ;;;
    l <- load_list ll ;;
    set_size ll (wrap64 (size l + 1)) ;;;
    ret true.

Definition linked_list_insert_end (ll : Z) (d : Z) : M W bool :=
  if negb (ll =? NULL) then
    sz <- linked_list_size ll ;;
    linked_list_insert ll sz d
  else ret false.

Definition linked_list_insert_front (ll : Z) (d : Z) : M W bool :=
  linked_list_insert ll 0 d.

Definition linked_list_find (fuel : nat) (ll : Z) (d : Z) : M W Z :=
  if ll =? NULL then ret SIZE_MAX
  else
    l <- load_list ll ;;
    find_loop fuel d (head l) 0.

Definition linked_list_remove (ll : Z) (index : Z) : M W bool :=
  oob <- (if ll =? NULL then ret true
          else sz <- linked_list_size ll ;; ret (sz <=? index)) ;;
  if (oob : bool) then ret false
  else
    (if index =? 0 then
       l <- load_list ll ;;
       let to_remove := head l in
       hn <- load_node (head l) ;;
       set_head ll (next hn) ;;;
       w <- get ;;
       call_free (free_fptr w) to_remove
     else
       iter <- _linked_list_init_iterator addr_of_local ll (wrap64 (index - 1)) ;;
       let prev := current_node iter in
       pn <- load_node prev ;;
       let to_remove := next pn in
       rn <- load_node to_remove ;;
       set_next prev (next rn) ;;;
       l <- load_list ll ;;
       (if tail l =? to_remove then set_tail ll prev else ret tt) ;;;
       w <- get ;;
       call_free (free_fptr w) to_remove) ;;;
    l <- load_list ll ;;
    set_size ll (wrap64 (size l - 1)) ;;;
    ret true.

Definition linked_list_create_iterator (ll : Z) (index : Z) : M W Z :=
  oob <- (if ll =? NULL then ret true
          else sz <- linked_list_size ll ;; ret (sz <=? index)) ;;
  if (oob : bool) then ret NULL
  else
    w <- get ;;
    iter <- call_malloc (malloc_fptr w) sizeof_iterator ;;
    cast_to iter (as_iterator iter) ;;;
    it <- _linked_list_init_iterator iter ll index ;;
    store iter (OIter it) ;;;
    ret iter.

(** Test driver: [size], then [insert_end], then [find] of the value just
    inserted: the size read first, the result of the insertion, the index
    found. *)
Definition insert_end_then_find (fuel : nat) (ll : Z) (d : Z) : M W (Z * bool * Z) :=
  sz <- linked_list_size ll ;;
  ok <- linked_list_insert_end ll d ;;
  i <- linked_list_find fuel ll d ;;
  ret (sz, ok, i).

(** *** The queue ([queue.c]) *)

Definition load_queue (p : Z) : M W queue :=
  o <- load p ;; match o with OQueue q => ret q | _ => stop WildAccess end.

Definition queue_create : M W Z :=
  w <- get ;;
  queue <- call_malloc (q_malloc_fptr w) sizeof_queue ;;
  cast_to queue (as_queue queue) ;;;
  if negb (queue =? NULL) then
    l <- linked_list_create ;;
    store queue (OQueue (mkQueue l)) ;;;
    ret queue
  else ret queue.

Definition queue_delete (fuel : nat) (queue : Z) : M W bool :=
  if queue =? NULL then ret false
  else
    q <- load_queue queue ;;
    linked_list_delete fuel (q_ll q) ;;;
    w <- get ;;
    call_free (q_free_fptr w) queue ;;;
    ret true.

Definition queue_push (queue : Z) (d : Z) : M W bool :=
  if queue =? NULL then ret false
  else
    q <- load_queue queue ;;
    linked_list_insert_end (q_ll q) d.

Definition queue_size (queue : Z) : M W Z :=
  if queue =? NULL then ret SIZE_MAX
  else
    q <- load_queue queue ;;
    linked_list_size (q_ll q).

Definition queue_has_next (queue : Z) : M W bool :=
  if queue =? NULL then ret false
  else
    sz <- queue_size queue ;;
    ret (0 <? sz).

(** [popped_data] is the value [*popped_data] holds on entry; the second
    component of the result is what it holds on return. *)
Definition queue_next (queue : Z) (popped_data : Z) : M W (bool * Z) :=
  has <- queue_has_next queue ;;
  if negb has then ret (false, popped_data)
  else
    q <- load_queue queue ;;
    iter <- linked_list_create_iterator (q_ll q) 0 ;;
    if iter =? NULL then ret (false, popped_data)
    else
      it <- load_iter iter ;;
      ret (true, it_data it).

Definition queue_pop (queue : Z) (popped_data : Z) : M W (bool * Z) :=
  if queue =? NULL then ret (false, popped_data)
  else
    r <- queue_next queue popped_data ;;
    if negb (fst r) then ret (false, snd r)
    else
      q <- load_queue queue ;;
      ok <- linked_list_remove (q_ll q) 0 ;;
      ret (ok, snd r).

Definition queue_register_malloc (f : option (malloc_fn A)) : M W bool :=
  (fun w => Ret (tt, mkWorld (heap w) (astate w) (uninit w) (malloc_fptr w)
                             (free_fptr w) f (q_free_fptr w))) ;;;
  linked_list_register_malloc f ;;;
  ret true.

Definition queue_register_free (f : option (free_fn A)) : M W bool :=
  (fun w => Ret (tt, mkWorld (heap w) (astate w) (uninit w) (malloc_fptr w)
                             (free_fptr w) (q_malloc_fptr w) f)) ;;;
  linked_list_register_free f ;;;
  ret true.

End Code.
End Level2.

(** ** Allocators a caller may register

    [endless] never fails: it hands out successive 64-byte-spaced addresses.
    [limited] does the same for a fixed number of calls and then returns
    [NULL]. Neither reuses what was freed. *)

Definition endless_malloc : malloc_fn Z := fun sz a => (a, a + 64).
Definition endless_free : free_fn Z := fun p a => a.

Definition limited_malloc : malloc_fn (Z * nat) := fun sz a =>
  match snd a with
  | O => (NULL, a)
  | Datatypes.S k => (fst a, (fst a + 64, k))
  end.
Definition limited_free : free_fn (Z * nat) := fun p a => a.

(** A world with nothing on the heap and nothing registered; uninitialised
    memory reads as [57005] ([0xDEAD]). *)
Definition boot {A} (a : A) : world A :=
  mkWorld ∅ a (fun _ => 57005) None None None None.

(** The same, the given functions registered with the list module only. *)
Definition boot_list {A} (a : A) (m : malloc_fn A) (f : free_fn A) : world A :=
  mkWorld ∅ a (fun _ => 57005) (Some m) (Some f) None None.

(** The same, registered through the queue's own registration calls. *)
Definition boot_queue {A} (a : A) (m : malloc_fn A) (f : free_fn A) : world A :=
  mkWorld ∅ a (fun _ => 57005) (Some m) (Some f) (Some m) (Some f).

(** ** The benchmark harness ([queue_performance.c]): graph rows and BFS *)

Module Harness.

(** [struct row]; [adjacent_nodes] is [None] for a null array pointer,
    otherwise the slots of the block it points to. *)
Record row : Type := mkRow {
  size : Z;
  adjacent_nodes : option (list Z);
  visited : bool
}.

Definition sizeof_row : Z := 24.
Definition sizeof_unsigned_int : Z := 4.

(** The calls the harness makes to the C library's allocator. *)
Inductive libc_call : Type :=
  | CMalloc (bytes : Z)
  | CRealloc (bytes : Z).

(** [rows] is the global row array ([rows !! i = Some None] is a null
    [rows[i]]); [libc_log] lists the allocator calls made so far; [qw] is the
    world of the queue and list modules. *)
Record hstate (A : Type) : Type := mkH {
  rows : list (option row);
  libc_log : list libc_call;
  qw : world A
}.
Arguments mkH {A} _ _ _.
Arguments rows {A} _.
Arguments libc_log {A} _.
Arguments qw {A} _.

Section Code.
Context {A : Type}.
Abbreviation H := (hstate A).

(** Whether the C library grants a request, given the calls made before. *)
Variable libc_grants : list libc_call -> libc_call -> bool.
(** What a slot of a freshly allocated array holds. *)
Variable garbage : Z.

Definition libc_request (c : libc_call) : M H bool := fun s =>
  Ret (libc_grants (libc_log s) c, mkH (rows s) (libc_log s ++ [c]) (qw s)).

(** [rows[i]] read and written; an index outside the array is a fault. *)
Definition get_row (i : Z) : M H (option row) := fun s =>
  match rows s !! Z.to_nat i with
  | Some r => if 0 <=? i then Ret (r, s) else Stop WildAccess
  | None => Stop WildAccess
  end.

Definition set_row (i : Z) (r : option row) : M H unit := fun s =>
  Ret (tt, mkH (<[Z.to_nat i := r]> (rows s)) (libc_log s) (qw s)).

(** [arr[k]] read and written for an array pointer [arr]. *)
Definition array_get (arr : option (list Z)) (k : Z) : M H Z :=
  match arr with
  | None => stop NullDeref
  | Some cells =>
      match cells !! Z.to_nat k with
      | Some v => if 0 <=? k then ret v else stop WildAccess
      | None => stop WildAccess
      end
  end.

Definition array_set (arr : option (list Z)) (k : Z) (v : Z) : M H (list Z) :=
  match arr with
  | None => stop NullDeref
  | Some cells =>
      if (0 <=? k) && (k <? Z.of_nat (length cells))
      then ret (<[Z.to_nat k := v]> cells)
      else stop WildAccess
  end.

Definition add_edge (i j : Z) : M H unit :=
  r <- get_row i ;;
  match r with
  | None =>
      ok <- libc_request (CMalloc sizeof_row) ;;
      if negb ok then stop (Exit 1)
      else
        ok <- libc_request (CMalloc (16 * sizeof_unsigned_int)) ;;
        if negb ok then stop (Exit 1)
        else
          cells <- array_set (Some (replicate 16 garbage)) 0 j ;;
          set_row i (Some (mkRow 1 (Some cells) false))
  | Some r =>
      let sz := size r in
      arr <- (if sz mod 16 =? 15 then
                let bytes := wrap64 ((sz + 1 + 16) * sizeof_unsigned_int) in
                ok <- libc_request (CRealloc bytes) ;;
                if ok then
                  ret (match adjacent_nodes r with
                       | Some cells =>
                           Some (resize (Z.to_nat (bytes / sizeof_unsigned_int))
                                        garbage cells)
                       | None =>
                           Some (replicate (Z.to_nat (bytes / sizeof_unsigned_int))
                                           garbage)
                       end)
                else ret None
              else ret (adjacent_nodes r)) ;;
      cells <- array_set arr sz j ;;
      set_row i (Some (mkRow (wrap64 (sz + 1)) (Some cells) (visited r)))
  end.

(** The edge-reading loop of [main], one [add_edge] per pair read. *)
Fixpoint add_edges (edges : list (Z * Z)) : M H unit :=
  match edges with
  | [] => ret tt
  | (i, j) :: rest => add_edge i j ;;; add_edges rest
  end.

(** The [realloc] calls [add_edge] makes while a row grows from size [k] by
    [n] more entries. *)
Fixpoint growth_calls (k : Z) (n : nat) : list libc_call :=
  match n with
  | O => []
  | Datatypes.S n' =>
      (if k mod 16 =? 15
       then [CRealloc ((k + 1 + 16) * sizeof_unsigned_int)] else [])
      ++ growth_calls (k + 1) n'
  end.

(** Runs list or queue code in the harness state. *)
Definition liftq {X} (c : M (world A) X) : M H X := fun s =>
  match c (qw s) with
  | Ret (x, w') => Ret (x, mkH (rows s) (libc_log s) w')
  | Stop f => Stop f
  end.

(** The [for] loop of [breadth_first_search] over a row's adjacent nodes,
    [k] iterations left, at index [node]: [Some found_path] when the loop
    completes, [None] when a push fails and the function returns early. *)
Fixpoint push_adjacent (k : nat) (queue j : Z) (arr : option (list Z))
    (node : Z) (found_path : bool) : M H (option bool) :=
  match k with
  | O => ret (Some found_path)
  | Datatypes.S k' =>
      d <- array_get arr node ;;
      let found_path := if j =? d then true else found_path in
      sanity <- liftq (Level2.queue_push queue d) ;;
      if negb sanity then ret None
      else push_adjacent k' queue j arr (wrap64 (node + 1)) found_path
  end.

(** How the [while] loop of [breadth_first_search] is left. *)
Inductive loop_exit : Type :=
  | Finished (found_path : bool) (node_count : Z)
  | Returned (v : bool).

Fixpoint bfs_loop (fuel : nat) (queue j : Z) (found_path : bool)
    (next_node node_count : Z) : M H loop_exit :=
  if found_path then ret (Finished found_path node_count)
  else
    match fuel with
    | O => stop OutOfFuel
    | Datatypes.S fuel' =>
        r <- get_row next_node ;;
        match r with
        | Some (mkRow sz arr false) =>
            set_row next_node (Some (mkRow sz arr true)) ;;;
            res <- push_adjacent (Z.to_nat sz) queue j arr 0 found_path ;;
            match res with
            | None => ret (Returned true)
            | Some found_path =>
                full <- liftq (Level2.queue_pop queue next_node) ;;
                if negb (fst full) then ret (Finished found_path node_count)
                else bfs_loop fuel' queue j found_path (snd full)
                              (wrap64 (node_count + 1))
            end
        | _ =>
            not_done <- liftq (Level2.queue_pop queue next_node) ;;
            let node_count := wrap64 (node_count + 1) in
            if negb (fst not_done) then ret (Finished found_path node_count)
            else bfs_loop fuel' queue j found_path (snd not_done) node_count
        end
    end.

(** [breadth_first_search(i, j)]: the value returned, and the node count it
    prints ([None] when it returns before printing). *)
Definition breadth_first_search (fuel : nat) (i j : Z) : M H (bool * option Z) :=
  queue <- liftq Level2.queue_create ;;
  e <- bfs_loop fuel queue j false i 0 ;;
  match e with
  | Returned v => ret (v, None)
  | Finished found_path node_count =>
      liftq (Level2.queue_delete fuel queue) ;;;
      ret (found_path, Some node_count)
  end.

End Code.

(** [instrumented_malloc] and [custom_free], the functions [main] registers
    with the queue.  The allocator state is the bump allocator's state and
    the [malloc_invocations] counter.  ([custom_malloc] never stops here: the
    instance it passes is not null.) *)
Definition instrumented_malloc (libc_malloc : nat -> Z -> Z)
    : malloc_fn (BumpPtr.bstate * Z) := fun sz a =>
  match BumpPtr.custom_malloc libc_malloc sz (fst a) with
  | Ret (p, b') => (p, (b', wrap64 (snd a + 1)))
  | Stop _ => (NULL, (fst a, wrap64 (snd a + 1)))
  end.

Definition custom_free : free_fn (BumpPtr.bstate * Z) := fun p a => a.

(** The row array of a graph on nodes [0..m], zeroed as [main] does. *)
Definition empty_rows (m : Z) : list (option row) :=
  replicate (Z.to_nat (m + 1)) None.

(** The fixed graph with the edges 1->2, 2->3, 3->4. *)
Definition chain_edges : list (Z * Z) := [(1, 2); (2, 3); (3, 4)].

Definition always_grants : list libc_call -> libc_call -> bool :=
  fun _ _ => true.

End Harness.

(** ** What the heap holds: list segments and the list headers *)

(** [chain h ps xs q]: the nodes at the addresses [ps], in this order, hold
    the values [xs], each linked to the next one, and the last one's [next]
    is [q]. *)
Fixpoint chain (h : gmap Z obj) (ps : list Z) (xs : list Z) (q : Z) : Prop :=
  match ps, xs with
  | [], [] => True
  | p :: ps', x :: xs' =>
      p <> NULL /\ h !! p = Some (ONode (mkNode x (hd q ps'))) /\ chain h ps' xs' q
  | _, _ => False
  end.

Section Representation.
Context {A : Type}.

(** A level-1 list at [ll] holding [xs] in the nodes [ps]: the chain ends in
    [NULL] and [size] is the number of nodes. *)
Definition list1_at (w : world A) (ll : Z) (ps : list Z) (xs : list Z) : Prop :=
  ll <> NULL /\ NoDup ps /\ chain (heap w) ps xs NULL /\
  Z.of_nat (length xs) <= SIZE_MAX /\
  heap w !! ll
    = Some (OList1 (Level1Types.mkList (hd NULL ps) (Z.of_nat (length xs)))).

(** A level-2 list at [ll] holding [xs] in the nodes [ps]: [size] is the
    number of nodes, [head] the first node, [tail] the last node when there
    is one; [q] is whatever the last node's [next] holds (and what [head]
    holds when the list is empty). *)
Definition list2_at (w : world A) (ll : Z) (ps : list Z) (xs : list Z) (q : Z) : Prop :=
  ll <> NULL /\ NoDup ps /\ chain (heap w) ps xs q /\
  Z.of_nat (length xs) <= SIZE_MAX /\
  exists tl,
    heap w !! ll
      = Some (OList2 (Level2Types.mkList (hd q ps) tl (Z.of_nat (length xs)))) /\
    (forall p, last ps = Some p -> tl = p).

(** A queue at [queue] wrapping such a level-2 list. *)
Definition queue_at (w : world A) (queue : Z) (ps : list Z) (xs : list Z) (q : Z) : Prop :=
  queue <> NULL /\
  exists ll, heap w !! queue = Some (OQueue (Level2Types.mkQueue ll)) /\
             list2_at w ll ps xs q.

(** What callers must be able to rely on from the functions they register:
    [malloc] returns a non-null block that is not live, [ainv] relating the
    allocator's state to the set of live blocks. *)
Record sound_allocator (mf : malloc_fn A) (ff : free_fn A)
    (ainv : A -> gset Z -> Prop) : Prop := {
  malloc_fresh : forall a D sz p a',
    ainv a D -> mf sz a = (p, a') ->
    p <> NULL /\ (p ∉ D) /\ ainv a' ({[p]} ∪ D);
  free_keeps : forall a D p,
    ainv a D -> ainv (ff p a) (D ∖ {[p]})
}.

(** The functions [mf] and [ff] are registered with both modules, and the
    allocator's invariant holds of the live objects. *)
Definition world_ok (mf : malloc_fn A) (ff : free_fn A)
    (ainv : A -> gset Z -> Prop) (w : world A) : Prop :=
  malloc_fptr w = Some mf /\ free_fptr w = Some ff /\
  q_malloc_fptr w = Some mf /\ q_free_fptr w = Some ff /\
  ainv (astate w) (dom (heap w)).

(** Live objects outside the addresses [ks] are left as they were. *)
Definition frame_on (ks : list Z) (w w' : world A) : Prop :=
  forall r o, r ∉ ks -> heap w !! r = Some o -> heap w' !! r = Some o.

(** Test drivers for the queue: push the values in order; pop [n] times,
    recording for each pop its result, the value it delivered, and
    [queue_size] just before and just after. *)
Fixpoint push_all (queue : Z) (vs : list Z) : M (world A) bool :=
  match vs with
  | [] => ret true
  | v :: vs' =>
      ok <- Level2.queue_push queue v ;;
      if (ok : bool) then push_all queue vs' else ret false
  end.

Fixpoint pop_all (queue : Z) (n : nat) : M (world A) (list (bool * Z * Z * Z)) :=
  match n with
  | O => ret []
  | Datatypes.S n' =>
      before <- Level2.queue_size queue ;;
      r <- Level2.queue_pop queue 0 ;;
      after <- Level2.queue_size queue ;;
      rest <- pop_all queue n' ;;
      ret ((fst r, snd r, before, after) :: rest)
  end.

End Representation.

(** What [pop_all] must record when the queue holds [xs]. *)
Fixpoint fifo_trace (xs : list Z) : list (bool * Z * Z * Z) :=
  match xs with
  | [] => []
  | x :: xs' =>
      (true, x, Z.of_nat (length xs), Z.of_nat (length xs')) :: fifo_trace xs'
  end.

(** The invariant of the [endless] allocator: every live block lies below
    the next address it will hand out. *)
Definition endless_inv (a : Z) (D : gset Z) : Prop :=
  0 < a /\ forall p, p ∈ D -> p < a.

(** The world right after [queue_create] in [boot_queue 4096 endless_malloc
    endless_free]: the queue header at 4096, its empty list at 4160. *)
Definition queue_world : world Z :=
  mkWorld (<[4096 := OQueue (Level2Types.mkQueue 4160)]>
             (<[4160 := OList2 (Level2Types.mkList 0 0 0)]> ∅))
          4224 (fun _ => 57005)
          (Some endless_malloc) (Some endless_free)
          (Some endless_malloc) (Some endless_free).

(** A level-1 list and a level-2 list, each at 4096 and holding [10; 20] in
    nodes at 4160 and 4224, as the [endless] allocator lays them out. *)
Definition list1_world : world Z :=
  mkWorld (<[4096 := OList1 (Level1Types.mkList 4160 2)]>
             (<[4160 := ONode (mkNode 10 4224)]>
                (<[4224 := ONode (mkNode 20 0)]> ∅)))
          4288 (fun _ => 57005)
          (Some endless_malloc) (Some endless_free)
          (Some endless_malloc) (Some endless_free).

Definition list2_world : world Z :=
  mkWorld (<[4096 := OList2 (Level2Types.mkList 4160 4224 2)]>
             (<[4160 := ONode (mkNode 10 4224)]>
                (<[4224 := ONode (mkNode 20 57005)]> ∅)))
          4288 (fun _ => 57005)
          (Some endless_malloc) (Some endless_free)
          (Some endless_malloc) (Some endless_free).

(** A world in which only [malloc] has been registered with the list
    module. *)
Definition boot_malloc_only {A} (a : A) (m : malloc_fn A) : world A :=
  mkWorld ∅ a (fun _ => 57005) (Some m) None None None.

(** The harness state [main] starts the edge loop in, for a graph on the
    nodes 0..4. *)
Definition harness_boot : Harness.hstate Z :=
  Harness.mkH (Harness.empty_rows 4) []
              (boot_queue 4096 endless_malloc endless_free).



(** Seventeen destinations, 100 to 116. *)
Definition seventeen : list Z := map Z.of_nat (seq 100 17).

(** The harness state as [main] itself sets it up: [instrumented_malloc] and
    [custom_free] registered through the queue, the process-wide bump
    allocator still in its static, never initialised state ([main] does not
    call [bump_ptr_setup]). *)
Definition harness_as_wired : Harness.hstate (BumpPtr.bstate * Z) :=
  Harness.mkH (Harness.empty_rows 4) []
              (boot_queue (BumpPtr.fresh, 0)
                          (Harness.instrumented_malloc BumpPtr.libc_spaced)
                          Harness.custom_free).

(** ** Runs that return

    [runs c s Q]: started in [s], the command [c] returns, and its result
    and final state satisfy [Q]. *)
Definition runs {S X} (c : M S X) (s : S) (Q : X -> S -> Prop) : Prop :=
  exists x s', c s = Ret (x, s') /\ Q x s'.

(** ** Further predicates and drivers *)

(** The regions [[p, p + n)] of the pointers [ps] with sizes [ns] lie one
    after the other between [lo] and [hi]. *)
Fixpoint regions_in_order (lo hi : Z) (ps ns : list Z) : Prop :=
  match ps, ns with
  | [], [] => lo <= hi
  | p :: ps', n :: ns' => lo <= p /\ regions_in_order (p + n) hi ps' ns'
  | _, _ => False
  end.

(** Room that serves the sizes [ns] whatever the alignment of the cursor:
    each size and the at most 7 bytes its alignment costs. *)
Fixpoint room_needed (ns : list Z) : Z :=
  match ns with
  | [] => 0
  | n :: ns' => n + 7 + room_needed ns'
  end.



(** An initialised instance whose first slab is the block [[d, d + sz)] with
    the cursor at [c]. *)
Definition one_slab (d sz c : Z) : BumpPtr.bstate :=
  BumpPtr.mkBstate
    (BumpPtr.mkAllocator
       (<[0%nat := BumpPtr.mkSlab d c (d + sz) sz]>
          (replicate (Z.to_nat BumpPtr.DEFAULT_NUM_SLABS) BumpPtr.zero_slab))
       0 sz sz true) 1.

(** A C library that answers every call with the same block. *)
Definition libc_const (d : Z) : nat -> Z -> Z := fun _ _ => d.

(** Test drivers for iterators: [collect] reads the iterator's value and
    advances it with [linked_list_iterate] until that returns [false];
    [traverse1] and [traverse2] create an iterator at index 0, collect, and
    delete the iterator. *)
Section Drivers.
Context {A : Type}.

Fixpoint collect (fuel : nat) (iter : Z) : M (world A) (list Z) :=
  match fuel with
  | O => stop OutOfFuel
  | Datatypes.S fuel' =>
      it <- load_iter iter ;;
      more <- linked_list_iterate iter ;;
      if (more : bool) then
        rest <- collect fuel' iter ;;
        ret (it_data it :: rest)
      else ret [it_data it]
  end.

Definition traverse1 (fuel : nat) (ll : Z) : M (world A) (list Z) :=
  iter <- Level1.linked_list_create_iterator ll 0 ;;
  if iter =? NULL then ret []
  else
    vs <- collect fuel iter ;;
    linked_list_delete_iterator iter ;;;
    ret vs.

Definition traverse2 (fuel : nat) (ll : Z) : M (world A) (list Z) :=
  iter <- Level2.linked_list_create_iterator ll 0 ;;
  if iter =? NULL then ret []
  else
    vs <- collect fuel iter ;;
    linked_list_delete_iterator iter ;;;
    ret vs.

End Drivers.

(** A level-2 list at 4096 holding [10; 20; 30] whose last node's [next]
    is [NULL], in memory that [malloc] hands out zeroed. *)
Definition list2_zeroed : world Z :=
  mkWorld (<[4096 := OList2 (Level2Types.mkList 4160 4288 3)]>
             (<[4160 := ONode (mkNode 10 4224)]>
                (<[4224 := ONode (mkNode 20 4288)]>
                   (<[4288 := ONode (mkNode 30 0)]> ∅))))
          4352 (fun _ => 0)
          (Some endless_malloc) (Some endless_free)
          (Some endless_malloc) (Some endless_free).

(** Test driver for the queue: any sequence of pushes and pops, recording
    what each call returned (for a pop, with the value it delivered; the
    caller's variable holds 0 before each pop). *)
Inductive qop : Type :=
| QPush (v : Z)
| QPop.

Section QueueDrivers.
Context {A : Type}.

Fixpoint run_ops (queue : Z) (ops : list qop) : M (world A) (list (bool * Z)) :=
  match ops with
  | [] => ret []
  | QPush v :: rest =>
      ok <- Level2.queue_push queue v ;;
      rs <- run_ops queue rest ;;
      ret ((ok, v) :: rs)
  | QPop :: rest =>
      r <- Level2.queue_pop queue 0 ;;
      rs <- run_ops queue rest ;;
      ret (r :: rs)
  end.

End QueueDrivers.

(** The same operations on a first-in-first-out sequence: a push appends, a
    pop takes the oldest value, a pop of the empty sequence fails and leaves
    the caller's 0. *)
Fixpoint fifo_ops (xs : list Z) (ops : list qop) : list (bool * Z) :=
  match ops with
  | [] => []
  | QPush v :: rest => (true, v) :: fifo_ops (xs ++ [v]) rest
  | QPop :: rest =>
      match xs with
      | [] => (false, 0) :: fifo_ops [] rest
      | x :: xs' => (true, x) :: fifo_ops xs' rest
      end
  end.

(** What the sequence holds after the operations. *)
Fixpoint fifo_after (xs : list Z) (ops : list qop) : list Z :=
  match ops with
  | [] => xs
  | QPush v :: rest => fifo_after (xs ++ [v]) rest
  | QPop :: rest => fifo_after (tl xs) rest
  end.

(** The world after one [queue_push] of 10 in [queue_world]: the node at
    4224, its [next] the [NULL] the empty list's [head] held. *)
Definition queue_world_one : world Z :=
  mkWorld (<[4096 := OQueue (Level2Types.mkQueue 4160)]>
             (<[4160 := OList2 (Level2Types.mkList 4224 4224 1)]>
                (<[4224 := ONode (mkNode 10 0)]> ∅)))
          4288 (fun _ => 57005)
          (Some endless_malloc) (Some endless_free)
          (Some endless_malloc) (Some endless_free).

(** A queue header at 4096 whose list could not be created. *)
Definition queue_world_no_list : world Z :=
  mkWorld (<[4096 := OQueue (Level2Types.mkQueue 0)]> ∅)
          4160 (fun _ => 57005)
          (Some endless_malloc) (Some endless_free)
          (Some endless_malloc) (Some endless_free).

(** ** The harness's clock arithmetic ([queue_performance.c])

    [struct timespec] with [time_t] and [long] both 64-bit signed; signed
    arithmetic is written with the wrap-around of the machine. *)
Module HarnessTime.

Record timespec : Type := mkTimespec {
  tv_sec : Z;
  tv_nsec : Z
}.

Definition wrap_long (z : Z) : Z := (z + 2 ^ 63) mod 2 ^ 64 - 2 ^ 63.

(** [sum_timespec(&destination, additional_time)]: the new [*destination]. *)
Definition sum_timespec (destination additional_time : timespec) : timespec :=
  let nsec := wrap_long (tv_nsec destination + tv_nsec additional_time) in
  let sec := if 1000000000 <? nsec then wrap_long (tv_sec destination + 1)
             else tv_sec destination in
  mkTimespec (wrap_long (sec + tv_sec additional_time)) nsec.

Definition compute_timespec_diff (start stop : timespec) : Z :=
  let nanoseconds := wrap_long (wrap_long (tv_sec stop - tv_sec start) * 1000000000) in
  if tv_nsec stop <? tv_nsec start then
    let nanoseconds := wrap_long (nanoseconds - 1000000000) in
    wrap_long (nanoseconds + wrap_long (tv_nsec start - tv_nsec stop))
  else
    wrap_long (nanoseconds + wrap_long (tv_nsec stop - tv_nsec start)).

(** The instant or duration a [timespec] stands for, in nanoseconds. *)
Definition nanos (t : timespec) : Z := tv_sec t * 1000000000 + tv_nsec t.

(** A [timespec] as [clock_gettime] returns it, with seconds that leave the
    arithmetic far from overflow. *)
Definition normal (t : timespec) : Prop :=
  0 <= tv_sec t < 2 ^ 31 /\ 0 <= tv_nsec t < 1000000000.

End HarnessTime.

(** The harness as [main] wires it (the bump allocator never set up), with
    the one edge 1->2 read. *)
Definition harness_as_wired_edge : Harness.hstate (BumpPtr.bstate * Z) :=
  Harness.mkH (<[1%nat := Some (Harness.mkRow 1 (Some (2 :: replicate 15 0)) false)]>
                 (Harness.empty_rows 4))
              [] (Harness.qw harness_as_wired).

(** * Properties *)

(** ** Stepping through the monad *)

Lemma bind_ret_inv {S X Y} (c : M S X) (k : X -> M S Y) s x s' :
  c s = Ret (x, s') -> bind c k s = k x s'.
Proof. intros H. unfold bind. now rewrite H. Qed.

Lemma bind_stop_inv {S X Y} (c : M S X) (k : X -> M S Y) s f :
  c s = Stop f -> bind c k s = Stop f.
Proof. intros H. unfold bind. now rewrite H. Qed.

Lemma bind_get {S Y} (k : S -> M S Y) s : bind get k s = k s s.
Proof. reflexivity. Qed.

Lemma bind_ret {S X Y} (x : X) (k : X -> M S Y) s : bind (ret x) k s = k x s.
Proof. reflexivity. Qed.


Module BumpPtrFacts.
Import BumpPtr.

Section Steps.
Variable libc_malloc : nat -> Z -> Z.

Lemma get_slab_ok s i sl :
  0 <= i -> slabs (allocator s) !! Z.to_nat i = Some sl ->
  get_slab i s = Ret (sl, s).
Proof.
  intros Hi Hl. unfold get_slab. rewrite Hl.
  destruct (0 <=? i) eqn:E; [reflexivity | apply Z.leb_gt in E; lia].
Qed.

Lemma slab_malloc_full s i sl size :
  0 <= i -> slabs (allocator s) !! Z.to_nat i = Some sl ->
  end_ sl < wrap64 (align_to (curr sl) 8 + size) ->
  slab_malloc i size s = Ret (NULL, s).
Proof.
  intros Hi Hl Hfull. unfold slab_malloc.
  rewrite (bind_ret_inv _ _ _ _ _ (get_slab_ok s i sl Hi Hl)).
  destruct (end_ sl <? wrap64 (align_to (curr sl) 8 + size)) eqn:E;
    [reflexivity | apply Z.ltb_ge in E; lia].
Qed.

Lemma slab_malloc_fits s i sl size :
  0 <= i -> slabs (allocator s) !! Z.to_nat i = Some sl ->
  wrap64 (align_to (curr sl) 8 + size) <= end_ sl ->
  slab_malloc i size s
    = Ret (align_to (curr sl) 8,
           with_slab i (mkSlab (data sl) (wrap64 (align_to (curr sl) 8 + size))
                               (end_ sl) (alloc_size sl)) s).
Proof.
  intros Hi Hl Hfit. unfold slab_malloc.
  rewrite (bind_ret_inv _ _ _ _ _ (get_slab_ok s i sl Hi Hl)).
  destruct (end_ sl <? wrap64 (align_to (curr sl) 8 + size)) eqn:E;
    [apply Z.ltb_lt in E; lia | reflexivity].
Qed.

Lemma slab_init_granted s i sl asz :
  0 <= i -> slabs (allocator s) !! Z.to_nat i = Some sl ->
  libc_malloc (libc_calls s) asz <> NULL ->
  slab_init libc_malloc i asz s
    = Ret (true,
           let d := libc_malloc (libc_calls s) asz in
           with_slab i (mkSlab d d (wrap64 (d + asz)) asz)
             (mkBstate (allocator s) (Datatypes.S (libc_calls s)))).
Proof.
  intros Hi Hl Hd. unfold slab_init.
  rewrite (bind_ret_inv _ _ _ _ _ (get_slab_ok s i sl Hi Hl)).
  unfold bind at 1, malloc.
  destruct (libc_malloc (libc_calls s) asz =? NULL) eqn:E;
    [apply Z.eqb_eq in E; contradiction | reflexivity].
Qed.

(** The growth path of [bump_ptr_allocator_malloc]: when the active slab
    cannot serve the request, a slot is left and the C library grants a block
    [d] of twice the last size in which the request fits, the new slab is
    created with that doubled size and the request is served there at
    [align_to d 8]; the pointer handed back is the slab's cursor after the
    allocation, that is the END of the served region. *)
Lemma bump_growth_returns_cursor (s : bstate) (size : Z) (sl nsl : slab) :
  let a := allocator s in
  let sp := wrap64 (slab_ptr a + 1) in
  let las := wrap64 (last_alloc_size a * 2) in
  let d := libc_malloc (libc_calls s) las in
  let start := align_to d 8 in
  0 <= slab_ptr a ->
  slabs a !! Z.to_nat (slab_ptr a) = Some sl ->
  end_ sl < wrap64 (align_to (curr sl) 8 + size) ->
  sp < DEFAULT_NUM_SLABS ->
  slabs a !! Z.to_nat sp = Some nsl ->
  d <> NULL ->
  start <> NULL ->
  wrap64 (start + size) <= wrap64 (d + las) ->
  exists s',
    bump_ptr_allocator_malloc libc_malloc false size s
      = Ret (wrap64 (start + size), s') /\
    slab_ptr (allocator s') = sp /\
    last_alloc_size (allocator s') = las /\
    total_mem_allocated (allocator s') = wrap64 (total_mem_allocated a + las) /\
    slabs (allocator s') !! Z.to_nat sp
      = Some (mkSlab d (wrap64 (start + size)) (wrap64 (d + las)) las).
Proof.
  intros a sp las d start Hsp0 Hsl Hfull Hslot Hnsl Hd Hstart Hfit.
  assert (Hsp : 0 <= sp) by (unfold sp, wrap64; apply Z.mod_pos_bound; lia).
  assert (Hlen : (Z.to_nat sp < length (slabs a))%nat)
    by (eapply lookup_lt_Some; eassumption).
  assert (Ed : libc_malloc (libc_calls s) las = d) by reflexivity.
  assert (Es : align_to d 8 = start) by reflexivity.
  clearbody start. clearbody d.
  assert (Hinit : slab_init libc_malloc sp las
            (with_bookkeeping sp las (wrap64 (total_mem_allocated a + las))
               (initialized a) s)
          = Ret (true, with_slab sp (mkSlab d d (wrap64 (d + las)) las)
                   (mkBstate (allocator (with_bookkeeping sp las
                                (wrap64 (total_mem_allocated a + las))
                                (initialized a) s))
                             (Datatypes.S (libc_calls s))))).
  { rewrite (slab_init_granted _ sp nsl las Hsp); cbn [libc_calls with_bookkeeping];
      rewrite ?Ed; auto. }
  set (s1 := with_slab sp (mkSlab d d (wrap64 (d + las)) las) _) in Hinit.
  assert (Hs1 : slabs (allocator s1) !! Z.to_nat sp
                = Some (mkSlab d d (wrap64 (d + las)) las)).
  { subst s1. simpl. apply list_lookup_insert_eq. exact Hlen. }
  pose proof (slab_malloc_fits s1 sp _ size Hsp Hs1) as Hserve.
  cbn [curr data end_ alloc_size] in Hserve. rewrite Es in Hserve.
  specialize (Hserve Hfit).
  set (s2 := with_slab sp _ s1) in Hserve.
  assert (Hs2 : slabs (allocator s2) !! Z.to_nat sp
                = Some (mkSlab d (wrap64 (start + size)) (wrap64 (d + las)) las)).
  { subst s2 s1. simpl. apply list_lookup_insert_eq.
    rewrite length_insert. exact Hlen. }
  exists s2. split.
  - unfold bump_ptr_allocator_malloc. rewrite bind_get.
    rewrite (bind_ret_inv _ _ _ _ _ (slab_malloc_full s _ sl size Hsp0 Hsl Hfull)).
    change (negb (NULL =? NULL)) with false. cbv iota. rewrite bind_get.
    fold a. cbv zeta. fold sp las.
    destruct (DEFAULT_NUM_SLABS <=? sp) eqn:E2; [apply Z.leb_le in E2; lia|].
    unfold bind at 1, set_bookkeeping.
    rewrite (bind_ret_inv _ _ _ _ _ Hinit).
    change (negb true) with false. cbv iota.
    rewrite (bind_ret_inv _ _ _ _ _ Hserve).
    destruct (start =? NULL) eqn:E6; [apply Z.eqb_eq in E6; contradiction|].
    change (negb false) with true. cbv iota.
    rewrite (bind_ret_inv _ _ _ _ _ (get_slab_ok s2 sp _ Hsp Hs2)).
    reflexivity.
  - repeat split; assumption.
Qed.

End Steps.

(** C1 (code defect, evaluated).  After the default initialisation, the
    requests 4096, 16, 16 are served as follows: the first fills slab 0; the
    second creates slab 1 of 8192 bytes (twice 4096) at [d] and is served at
    [d], yet the pointer returned is [d + 16], the end of that region; the
    third is served at [d + 16] and returns [d + 16] as well.  The second and
    third successful allocations return the same, overlapping, region. *)
Theorem bump_growth_overlap :
  exists p1 p2 p3 s,
    (bump_ptr_setup libc_spaced ;;; malloc_all libc_spaced [4096; 16; 16]) fresh
      = Ret ([p1; p2; p3], s) /\
    slabs (allocator s) !! 1%nat = Some (mkSlab 2097152 2097184 2105344 8192) /\
    p2 = 2097152 + 16 /\
    p3 = p2 /\
    overlap p2 16 p3 16.
Proof.
  eexists _, _, _, _. split; [vm_compute; reflexivity|].
  split; [reflexivity|]. split; [reflexivity|]. split; [reflexivity|].
  unfold overlap. lia.
Qed.

End BumpPtrFacts.

(** ** Rules for [runs] *)

Section RunRules.
Context {S : Type}.

Lemma runs_ret {X} (x : X) (s : S) Q : Q x s -> runs (ret x) s Q.
Proof. intros HQ. exists x, s. split; [reflexivity | exact HQ]. Qed.

Lemma runs_get (s : S) Q : Q s s -> runs get s Q.
Proof. intros HQ. exists s, s. split; [reflexivity | exact HQ]. Qed.

Lemma runs_bind {X Y} (c : M S X) (k : X -> M S Y) s Q :
  runs c s (fun x s' => runs (k x) s' Q) -> runs (bind c k) s Q.
Proof.
  intros (x & s' & Hc & y & s'' & Hk & HQ).
  exists y, s''. split; [|exact HQ].
  rewrite (bind_ret_inv _ _ _ _ _ Hc). exact Hk.
Qed.

Lemma runs_weaken {X} (c : M S X) s (Q Q' : X -> S -> Prop) :
  runs c s Q -> (forall x s', Q x s' -> Q' x s') -> runs c s Q'.
Proof. intros (x & s' & Hc & HQ) Himp. exists x, s'. auto. Qed.


End RunRules.

Section HeapRules.
Context {A : Type}.
Implicit Types (w : world A) (p : Z).

Lemma eqb_NULL_false p : p <> NULL -> (p =? NULL) = false.
Proof. intros H. now apply Z.eqb_neq. Qed.

Lemma runs_load w p o Q :
  p <> NULL -> heap w !! p = Some o -> Q o w -> runs (load p) w Q.
Proof.
  intros Hp Hl HQ. exists o, w. split; [|exact HQ].
  unfold load. now rewrite Hl, (eqb_NULL_false p Hp).
Qed.

Lemma runs_store w p o o' Q :
  p <> NULL -> heap w !! p = Some o' ->
  Q tt (with_heap (<[p := o]> (heap w)) w) -> runs (store p o) w Q.
Proof.
  intros Hp Hl HQ. eexists tt, _. split; [|exact HQ].
  unfold store. now rewrite Hl, (eqb_NULL_false p Hp).
Qed.

Lemma runs_load_node w p n Q :
  p <> NULL -> heap w !! p = Some (ONode n) -> Q n w -> runs (load_node p) w Q.
Proof.
  intros Hp Hl HQ. apply runs_bind. eapply runs_load; eauto. now apply runs_ret.
Qed.

Lemma runs_load_iter w p it Q :
  p <> NULL -> heap w !! p = Some (OIter it) -> Q it w -> runs (load_iter p) w Q.
Proof.
  intros Hp Hl HQ. apply runs_bind. eapply runs_load; eauto. now apply runs_ret.
Qed.

Lemma runs_set_data w p v n Q :
  p <> NULL -> heap w !! p = Some (ONode n) ->
  Q tt (with_heap (<[p := ONode (mkNode v (next n))]> (heap w)) w) ->
  runs (set_data p v) w Q.
Proof.
  intros Hp Hl HQ. apply runs_bind. eapply runs_load_node; eauto.
  eapply runs_store; eauto.
Qed.

Lemma runs_set_next w p v n Q :
  p <> NULL -> heap w !! p = Some (ONode n) ->
  Q tt (with_heap (<[p := ONode (mkNode (data n) v)]> (heap w)) w) ->
  runs (set_next p v) w Q.
Proof.
  intros Hp Hl HQ. apply runs_bind. eapply runs_load_node; eauto.
  eapply runs_store; eauto.
Qed.

Lemma runs_call_malloc w (f : malloc_fn A) sz Q :
  (forall p a', f sz (astate w) = (p, a') -> Q p (with_astate a' w)) ->
  runs (call_malloc (Some f) sz) w Q.
Proof.
  intros HQ. unfold runs, call_malloc.
  destruct (f sz (astate w)) as [p a'] eqn:E. eauto.
Qed.

Lemma runs_cast_to w p mk Q :
  p <> NULL ->
  Q tt (with_heap (<[p := mk (uninit w)]> (heap w)) w) ->
  runs (cast_to p mk) w Q.
Proof.
  intros Hp HQ. eexists tt, _. split; [|exact HQ].
  unfold cast_to. now rewrite (eqb_NULL_false p Hp).
Qed.

Lemma runs_call_free w (f : free_fn A) p Q :
  Q tt (with_heap (delete p (heap w)) (with_astate (f p (astate w)) w)) ->
  runs (call_free (Some f) p) w Q.
Proof. intros HQ. eexists tt, _. split; [reflexivity | exact HQ]. Qed.

(** *** Chains *)

Lemma chain_length h ps xs q : chain h ps xs q -> length ps = length xs.
Proof.
  revert xs. induction ps as [|p ps IH]; intros [|x xs]; simpl; try tauto.
  intros (_ & _ & Hc). f_equal. now apply IH.
Qed.

Lemma chain_nil_iff h ps xs q : chain h ps xs q -> (ps = [] <-> xs = []).
Proof.
  intros Hc. apply chain_length in Hc.
  destruct ps, xs; simpl in Hc; try discriminate; split; congruence.
Qed.

Lemma chain_lookup h ps xs q p :
  chain h ps xs q -> p ∈ ps -> p <> NULL /\ exists n, h !! p = Some (ONode n).
Proof.
  revert xs. induction ps as [|p0 ps IH]; intros [|x xs]; simpl; try tauto.
  - intros _ Hin. inversion Hin.
  - intros (Hp0 & Hl & Hc) Hin. apply elem_of_cons in Hin as [-> | Hin].
    + split; [exact Hp0 | eauto].
    + eapply IH; eauto.
Qed.

Lemma chain_insert_other h ps xs q p o :
  p ∉ ps -> chain h ps xs q -> chain (<[p := o]> h) ps xs q.
Proof.
  revert xs. induction ps as [|p0 ps IH]; intros [|x xs]; simpl; try tauto.
  intros Hnin (Hp0 & Hl & Hc). apply not_elem_of_cons in Hnin as [Hne Hnin].
  split; [exact Hp0|]. split; [|now apply IH].
  rewrite lookup_insert_ne by congruence. exact Hl.
Qed.

Lemma chain_delete_other h ps xs q p :
  p ∉ ps -> chain h ps xs q -> chain (delete p h) ps xs q.
Proof.
  revert xs. induction ps as [|p0 ps IH]; intros [|x xs]; simpl; try tauto.
  intros Hnin (Hp0 & Hl & Hc). apply not_elem_of_cons in Hnin as [Hne Hnin].
  split; [exact Hp0|]. split; [|now apply IH].
  rewrite lookup_delete_ne by congruence. exact Hl.
Qed.

Lemma chain_ext h h' ps xs q :
  chain h ps xs q -> (forall p, p ∈ ps -> h' !! p = h !! p) -> chain h' ps xs q.
Proof.
  revert xs. induction ps as [|p0 ps IH]; intros [|x xs]; simpl; try tauto.
  intros (Hp0 & Hl & Hc) Hext.
  split; [exact Hp0|]. split.
  - rewrite Hext by (apply elem_of_cons; auto). exact Hl.
  - apply IH; [exact Hc|]. intros p Hp. apply Hext. apply elem_of_cons. auto.
Qed.

Lemma chain_fresh h ps xs q p : h !! p = None -> chain h ps xs q -> p ∉ ps.
Proof.
  intros Hnone Hc Hin. destruct (chain_lookup _ _ _ _ _ Hc Hin) as (_ & n & Hl).
  congruence.
Qed.

Lemma chain_not_header h ps xs q p :
  chain h ps xs q -> (forall n, h !! p <> Some (ONode n)) -> p ∉ ps.
Proof.
  intros Hc Hno Hin. destruct (chain_lookup _ _ _ _ _ Hc Hin) as (_ & n & Hl).
  now apply (Hno n).
Qed.

(** Appending a node to a chain whose last link already points to it. *)
Lemma chain_snoc h ps xs p x q' :
  chain h ps xs p -> p <> NULL ->
  h !! p = Some (ONode (mkNode x q')) ->
  chain h (ps ++ [p]) (xs ++ [x]) q'.
Proof.
  revert xs. induction ps as [|p0 ps IH]; intros [|x0 xs]; simpl; try tauto.
  intros (Hp0 & Hl0 & Hc) Hp Hl.
  split; [exact Hp0|]. split; [|now apply IH].
  destruct ps; exact Hl0.
Qed.

(** Redirecting the last link of a chain. *)
Lemma chain_set_last h ps xs q t n q2 :
  chain h ps xs q -> NoDup ps -> last ps = Some t ->
  h !! t = Some (ONode n) ->
  chain (<[t := ONode (mkNode (data n) q2)]> h) ps xs q2.
Proof.
  revert xs. induction ps as [|p0 ps IH]; intros [|x0 xs]; simpl; try tauto.
  intros (Hp0 & Hl0 & Hc) Hnd Hlast Hn.
  apply NoDup_cons in Hnd as [Hn0 Hnd].
  destruct ps as [|p1 ps].
  - simpl in Hlast. injection Hlast as <-.
    destruct xs; [|simpl in Hc; tauto].
    rewrite Hl0 in Hn. injection Hn as <-. simpl.
    split; [exact Hp0|]. split; [apply lookup_insert_eq | exact I].
  - assert (Ht : t ∈ p1 :: ps).
    { rewrite last_cons in Hlast. destruct (last (p1 :: ps)) eqn:E.
      - injection Hlast as <-. apply last_Some_elem_of in E. exact E.
      - apply last_None in E. discriminate. }
    assert (p0 <> t) by (intros ->; contradiction).
    split; [exact Hp0|]. split.
    + rewrite lookup_insert_ne by congruence. exact Hl0.
    + apply IH; auto.
Qed.

(** The last node of a chain links to the chain's end. *)
Lemma chain_last h ps xs q t :
  chain h ps xs q -> last ps = Some t ->
  t <> NULL /\ exists x, h !! t = Some (ONode (mkNode x q)).
Proof.
  revert xs. induction ps as [|p0 ps IH]; intros [|x0 xs]; simpl; try tauto;
    try (intros _ Hlast; discriminate Hlast).
  intros (Hp0 & Hl0 & Hc) Hlast. destruct ps as [|p1 ps].
  - simpl in Hlast. injection Hlast as <-.
    destruct xs; [|simpl in Hc; tauto]. split; [exact Hp0 | eauto].
  - apply (IH xs Hc). exact Hlast.
Qed.

(** The node at position [i] of a chain. *)
Lemma chain_lookup_index h ps xs q (i : nat) p x :
  chain h ps xs q -> ps !! i = Some p -> xs !! i = Some x ->
  p <> NULL /\ h !! p = Some (ONode (mkNode x (hd q (drop (Datatypes.S i) ps)))).
Proof.
  revert ps xs. induction i as [|i IH]; intros [|p0 ps] [|x0 xs]; simpl; try tauto;
    try discriminate.
  - intros (Hp0 & Hl0 & Hc) [= <-] [= <-]. rewrite drop_0. auto.
  - intros (Hp0 & Hl0 & Hc) Hp Hx. now apply (IH ps xs).
Qed.

Lemma hd_drop_lookup (ps : list Z) q (i : nat) p :
  ps !! i = Some p -> hd q (drop i ps) = p.
Proof.
  revert ps. induction i as [|i IH]; intros [|p0 ps]; simpl; try discriminate.
  - now intros [= <-].
  - apply IH.
Qed.

Lemma default_last_cons (prev p : Z) (l : list Z) :
  default prev (last (p :: l)) = default p (last l).
Proof. rewrite last_cons. now destruct (last l). Qed.

Lemma last_take_lookup (ps : list Z) (k : nat) p :
  ps !! k = Some p -> last (take (Datatypes.S k) ps) = Some p.
Proof.
  revert ps. induction k as [|k IH]; intros [|p0 ps] Hp; try discriminate.
  - injection Hp as ->. now destruct ps.
  - cbn [lookup list_lookup] in Hp. rewrite firstn_cons, last_cons.
    now rewrite (IH ps Hp).
Qed.

(** The position walk along a chain. *)
Lemma runs_walk w ps xs q (n : nat) prev Q :
  chain (heap w) ps xs q -> (n <= length ps)%nat ->
  Q (default prev (last (take n ps)), hd q (drop n ps)) w ->
  runs (walk n prev (hd q ps)) w Q.
Proof.
  revert ps xs prev. induction n as [|n IH]; intros ps xs prev Hc Hn HQ.
  - simpl. apply runs_ret. now rewrite take_0, drop_0 in HQ.
  - destruct ps as [|p ps]; [simpl in Hn; lia|].
    destruct xs as [|x xs]; [simpl in Hc; tauto|].
    destruct Hc as (Hp & Hl & Hc).
    cbn [walk hd]. apply runs_bind. eapply runs_load_node; eauto.
    cbn [next]. apply (IH ps xs p Hc).
    { simpl in Hn. lia. }
    rewrite firstn_cons, skipn_cons, default_last_cons in HQ. exact HQ.
Qed.

End HeapRules.

(** ** Tactics for stepping through list code *)

Lemma wrap64_small z : 0 <= z <= SIZE_MAX -> wrap64 z = z.
Proof. intros H. unfold wrap64. apply Z.mod_small. unfold SIZE_MAX in H. lia. Qed.

Ltac wsimpl :=
  cbn [heap astate uninit malloc_fptr free_fptr q_malloc_fptr q_free_fptr
       with_heap with_astate fst snd data next
       Level2Types.head Level2Types.tail Level2Types.size Level2Types.q_ll
       Level1Types.head Level1Types.size
       it_ll current_node current_index it_data] in *.

Ltac solve_ne :=
  first [ assumption | apply not_eq_sym; assumption | congruence ].

Ltac hlookup :=
  wsimpl;
  repeat first [ rewrite lookup_insert_eq
               | rewrite lookup_insert_ne by solve_ne
               | rewrite lookup_delete_ne by solve_ne ];
  first [ reflexivity | eassumption ].

Ltac step0 :=
  lazymatch goal with
  | |- runs (bind _ _) _ _ => apply runs_bind
  | |- runs (ret _) _ _ => apply runs_ret
  | |- runs get _ _ => apply runs_get
  | |- runs (load_node _) _ _ => eapply runs_load_node; [solve_ne | hlookup | wsimpl]
  | |- runs (load_iter _) _ _ => eapply runs_load_iter; [solve_ne | hlookup | wsimpl]
  | |- runs (set_data _ _) _ _ => eapply runs_set_data; [solve_ne | hlookup | wsimpl]
  | |- runs (set_next _ _) _ _ => eapply runs_set_next; [solve_ne | hlookup | wsimpl]
  | |- runs (store _ _) _ _ => eapply runs_store; [solve_ne | hlookup | wsimpl]
  | |- runs (cast_to _ _) _ _ => apply runs_cast_to; [solve_ne | wsimpl]
  | |- runs (call_free (Some _) _) _ _ => apply runs_call_free; wsimpl
  end.

Section WorldFacts.
Context {A : Type} (mf : malloc_fn A) (ff : free_fn A) (ainv : A -> gset Z -> Prop).
Hypothesis Hsound : sound_allocator mf ff ainv.
Implicit Types (w : world A).

Lemma frame_on_refl ks w : frame_on ks w w.
Proof. intros r o _ H. exact H. Qed.

Lemma world_ok_alloc w sz p a' o :
  world_ok mf ff ainv w -> mf sz (astate w) = (p, a') ->
  p <> NULL /\ heap w !! p = None /\
  world_ok mf ff ainv (with_heap (<[p := o]> (heap w)) (with_astate a' w)).
Proof.
  intros (H1 & H2 & H3 & H4 & Hi) Hm.
  destruct (malloc_fresh _ _ _ Hsound _ _ _ _ _ Hi Hm) as (Hp & Hfresh & Hi').
  split; [exact Hp|]. split; [now apply not_elem_of_dom|].
  repeat split; wsimpl; try assumption.
  now rewrite dom_insert_L.
Qed.

Lemma world_ok_free w p :
  world_ok mf ff ainv w ->
  world_ok mf ff ainv (with_heap (delete p (heap w)) (with_astate (ff p (astate w)) w)).
Proof.
  intros (H1 & H2 & H3 & H4 & Hi). repeat split; wsimpl; try assumption.
  rewrite dom_delete_L. now apply (free_keeps _ _ _ Hsound).
Qed.

Lemma ok_transfer w w' :
  world_ok mf ff ainv w ->
  malloc_fptr w' = malloc_fptr w -> free_fptr w' = free_fptr w ->
  q_malloc_fptr w' = q_malloc_fptr w -> q_free_fptr w' = q_free_fptr w ->
  astate w' = astate w -> dom (heap w') = dom (heap w) ->
  world_ok mf ff ainv w'.
Proof.
  intros (H1 & H2 & H3 & H4 & Hi) E1 E2 E3 E4 E5 E6.
  unfold world_ok. rewrite E1, E2, E3, E4, E5, E6. auto.
Qed.

Lemma in_dom_of_lookup (h : gmap Z obj) p o : h !! p = Some o -> p ∈ dom h.
Proof. intros H. apply elem_of_dom. eauto. Qed.

(** [find_loop] along a chain whose node [k] is the first to hold [v]. *)
Lemma runs_find_loop w ps xs q v (k : nat) fuel i Q :
  chain (heap w) ps xs q -> xs !! k = Some v ->
  (forall j x, (j < k)%nat -> xs !! j = Some x -> x <> v) ->
  (k < fuel)%nat -> 0 <= i -> i + Z.of_nat k <= SIZE_MAX ->
  Q (i + Z.of_nat k) w ->
  runs (find_loop fuel v (hd q ps) i) w Q.
Proof.
  revert ps xs fuel i. induction k as [|k IH]; intros ps xs fuel i Hc Hk Hfirst Hf Hi Hb HQ.
  - destruct xs as [|x xs]; [discriminate|]. injection Hk as ->.
    destruct ps as [|p ps]; [simpl in Hc; tauto|]. destruct Hc as (Hp & Hl & Hc).
    destruct fuel as [|fuel]; [lia|]. cbn [find_loop hd].
    rewrite (eqb_NULL_false _ Hp). step0. step0. rewrite Z.eqb_refl.
    step0. now rewrite Z.add_0_r in HQ.
  - destruct xs as [|x xs]; [discriminate|].
    destruct ps as [|p ps]; [simpl in Hc; tauto|]. destruct Hc as (Hp & Hl & Hc).
    destruct fuel as [|fuel]; [lia|]. cbn [find_loop hd].
    rewrite (eqb_NULL_false _ Hp). step0. step0.
    assert (Hxv : x <> v) by (apply (Hfirst O x); [lia | reflexivity]).
    destruct (x =? v) eqn:E; [apply Z.eqb_eq in E; contradiction|].
    apply (IH ps xs); auto.
    + intros j y Hj Hy. apply (Hfirst (Datatypes.S j) y); [lia | exact Hy].
    + lia.
    + rewrite wrap64_small by lia. lia.
    + rewrite wrap64_small by lia. lia.
    + rewrite wrap64_small by lia.
      replace (i + 1 + Z.of_nat k) with (i + Z.of_nat (Datatypes.S k)) by lia. exact HQ.
Qed.

(** [delete_loop] frees every node of a chain that ends in [NULL]. *)
Lemma runs_delete_loop w ps xs fuel :
  world_ok mf ff ainv w -> chain (heap w) ps xs NULL -> NoDup ps ->
  (length ps < fuel)%nat ->
  runs (delete_loop fuel (hd NULL ps)) w (fun _ w' =>
    world_ok mf ff ainv w' /\ frame_on ps w w').
Proof.
  revert w xs fuel. induction ps as [|p ps IH]; intros w xs fuel Hok Hc Hnd Hf.
  - destruct fuel as [|fuel]; [simpl in Hf; lia|]. cbn [delete_loop hd].
    rewrite Z.eqb_refl. step0. split; [exact Hok | apply frame_on_refl].
  - destruct xs as [|x xs]; [simpl in Hc; tauto|]. destruct Hc as (Hp & Hl & Hc).
    apply NoDup_cons in Hnd as [Hpps Hnd].
    destruct fuel as [|fuel]; [simpl in Hf; lia|]. cbn [delete_loop hd].
    rewrite (eqb_NULL_false _ Hp). step0. step0. step0. step0. cbv beta.
    destruct Hok as (Hmf & Hff & Hrest). rewrite Hff.
    step0. step0.
    eapply runs_weaken.
    + apply (IH _ xs fuel).
      * apply (world_ok_free w p). repeat split; tauto.
      * wsimpl. apply chain_delete_other; assumption.
      * exact Hnd.
      * simpl in Hf. lia.
    + intros _ w' (Hok' & Hfr). split; [exact Hok'|].
      intros r o Hr Hro. apply not_elem_of_cons in Hr as [Hrp Hr].
      apply Hfr; [exact Hr|]. wsimpl. now rewrite lookup_delete_ne by solve_ne.
Qed.

End WorldFacts.

Ltac solve_ok H :=
  eapply ok_transfer;
  [ exact H | reflexivity | reflexivity | reflexivity | reflexivity | reflexivity
  | wsimpl; rewrite ?dom_insert_L, ?dom_delete_L; set_solver ].

(** ** Level 2 *)

Module Level2Facts.
Import Level2Types Level2.

Section Rules.
Context {A : Type}.
Implicit Types (w : world A).

Lemma runs_load_list w p l Q :
  p <> NULL -> heap w !! p = Some (OList2 l) -> Q l w -> runs (load_list p) w Q.
Proof.
  intros Hp Hl HQ. apply runs_bind. eapply runs_load; eauto. now apply runs_ret.
Qed.

Lemma runs_set_head w p v l Q :
  p <> NULL -> heap w !! p = Some (OList2 l) ->
  Q tt (with_heap (<[p := OList2 (mkList v (tail l) (size l))]> (heap w)) w) ->
  runs (set_head p v) w Q.
Proof.
  intros Hp Hl HQ. apply runs_bind. eapply runs_load_list; eauto.
  eapply runs_store; eauto.
Qed.

Lemma runs_set_tail w p v l Q :
  p <> NULL -> heap w !! p = Some (OList2 l) ->
  Q tt (with_heap (<[p := OList2 (mkList (head l) v (size l))]> (heap w)) w) ->
  runs (set_tail p v) w Q.
Proof.
  intros Hp Hl HQ. apply runs_bind. eapply runs_load_list; eauto.
  eapply runs_store; eauto.
Qed.

Lemma runs_set_size w p v l Q :
  p <> NULL -> heap w !! p = Some (OList2 l) ->
  Q tt (with_heap (<[p := OList2 (mkList (head l) (tail l) v)]> (heap w)) w) ->
  runs (set_size p v) w Q.
Proof.
  intros Hp Hl HQ. apply runs_bind. eapply runs_load_list; eauto.
  eapply runs_store; eauto.
Qed.

Lemma runs_load_queue w p q Q :
  p <> NULL -> heap w !! p = Some (OQueue q) -> Q q w -> runs (load_queue p) w Q.
Proof.
  intros Hp Hl HQ. apply runs_bind. eapply runs_load; eauto. now apply runs_ret.
Qed.

Lemma runs_size w ll l Q :
  ll <> NULL -> heap w !! ll = Some (OList2 l) -> Q (size l) w ->
  runs (linked_list_size ll) w Q.
Proof.
  intros Hp Hl HQ. unfold linked_list_size. rewrite (eqb_NULL_false _ Hp).
  apply runs_bind. eapply runs_load_list; eauto. now apply runs_ret.
Qed.

End Rules.

Ltac step :=
  first
  [ step0
  | lazymatch goal with
    | |- runs (load_list _) _ _ => eapply runs_load_list; [solve_ne | hlookup | wsimpl]
    | |- runs (load_queue _) _ _ => eapply runs_load_queue; [solve_ne | hlookup | wsimpl]
    | |- runs (linked_list_size _) _ _ => eapply runs_size; [solve_ne | hlookup | wsimpl]
    | |- runs (set_head _ _) _ _ => eapply runs_set_head; [solve_ne | hlookup | wsimpl]
    | |- runs (set_tail _ _) _ _ => eapply runs_set_tail; [solve_ne | hlookup | wsimpl]
    | |- runs (set_size _ _) _ _ => eapply runs_set_size; [solve_ne | hlookup | wsimpl]
    end ].

Ltac steps := repeat (step; cbv beta).

Section Sound.
Context {A : Type} (mf : malloc_fn A) (ff : free_fn A) (ainv : A -> gset Z -> Prop).
Hypothesis Hsound : sound_allocator mf ff ainv.
Implicit Types (w : world A).

Abbreviation ok := (world_ok mf ff ainv).

(** [linked_list_create] under a sound allocator. *)
Lemma create_ok w :
  ok w ->
  runs linked_list_create w (fun ll w' =>
    list2_at w' ll [] [] NULL /\ ok w' /\ heap w !! ll = None /\
    frame_on [] w w').
Proof.
  intros Hok. pose proof Hok as (Hmf & Hff & _).
  unfold linked_list_create. step. step. cbv beta. rewrite Hmf.
  step. apply runs_call_malloc. intros p a' Hm. cbv beta.
  destruct (world_ok_alloc _ _ _ Hsound w _ p a' (as_list2 p (uninit w)) Hok Hm)
    as (Hp & Hfresh & Hok1).
  step. step. rewrite (eqb_NULL_false _ Hp). cbn [negb].
  unfold as_list2. steps.
  split; [|split; [|split]].
  - split; [exact Hp|]. split; [constructor|]. split; [exact I|].
    split; [unfold SIZE_MAX; simpl; lia|].
    exists NULL. split; [hlookup | intros t Ht; discriminate].
  - solve_ok Hok1.
  - exact Hfresh.
  - intros r o _ Hr. wsimpl.
    assert (r <> p) by congruence.
    now rewrite !lookup_insert_ne by solve_ne.
Qed.

(** [linked_list_insert] at index 0. *)
Lemma insert_front_ok w ll ps xs q v :
  ok w -> list2_at w ll ps xs q -> Z.of_nat (length xs) < SIZE_MAX ->
  runs (linked_list_insert ll 0 v) w (fun b w' =>
    b = true /\ exists p,
      heap w !! p = None /\ list2_at w' ll (p :: ps) (v :: xs) q /\ ok w' /\
      frame_on (ll :: ps) w w').
Proof.
  intros Hok (Hll & Hnd & Hc & Hsz & tl & Hl & Htl) Hlt.
  pose proof Hok as (Hmf & Hff & _).
  unfold linked_list_insert. step. step. cbv beta.
  rewrite (eqb_NULL_false _ Hll).
  replace (Z.of_nat (length xs) <? 0) with false by (symmetry; apply Z.ltb_ge; lia).
  cbn [orb]. step. step. cbv beta. rewrite Hmf.
  step. apply runs_call_malloc. intros p a' Hm. cbv beta.
  destruct (world_ok_alloc _ _ _ Hsound w _ p a' (as_node p (uninit w)) Hok Hm)
    as (Hp & Hfresh & Hok1).
  assert (Hpll : p <> ll) by congruence.
  assert (Hpps : p ∉ ps) by (eapply chain_fresh; eauto).
  assert (Hllps : ll ∉ ps).
  { eapply chain_not_header; [exact Hc|]. intros n. rewrite Hl. discriminate. }
  assert (Hlldom : ll ∈ dom (heap w)) by (eapply in_dom_of_lookup; eauto).
  unfold as_node in *. rewrite Z.eqb_refl.
  step. step. step. step. step. step. step. step. step. step.
  assert (Hwrap : wrap64 (Z.of_nat (length xs) + 1) = Z.of_nat (length (v :: xs)))
    by (rewrite wrap64_small; simpl length; lia).
  destruct (Z.of_nat (length xs) =? 0) eqn:E0.
  - apply Z.eqb_eq in E0.
    assert (xs = []) by (destruct xs; [reflexivity | simpl in E0; lia]). subst xs.
    assert (ps = []) by (now apply (chain_nil_iff _ _ _ _ Hc)). subst ps.
    steps. split; [reflexivity|]. exists p. split; [exact Hfresh|].
    split; [|split].
    + split; [exact Hll|]. split; [apply NoDup_singleton|]. split.
      { cbn. split; [exact Hp|]. split; [hlookup | exact I]. }
      split; [simpl; unfold SIZE_MAX; lia|].
      exists p. split; [hlookup | intros t Ht; simpl in Ht; congruence].
    + solve_ok Hok1.
    + intros r o Hr Hro. apply not_elem_of_cons in Hr as [Hr _]. wsimpl.
      assert (r <> p) by congruence.
      now rewrite !lookup_insert_ne by solve_ne.
  - apply Z.eqb_neq in E0.
    assert (Hps : ps <> []).
    { intros ->. destruct xs; [simpl in E0; lia | simpl in Hc; tauto]. }
    steps. split; [reflexivity|]. exists p. split; [exact Hfresh|].
    split; [|split].
    + split; [exact Hll|]. split; [now apply NoDup_cons|]. split.
      { cbn. split; [exact Hp|]. split; [hlookup|].
        repeat (apply chain_insert_other; [assumption|]). exact Hc. }
      split; [simpl length in *; lia|].
      exists tl. split; [rewrite Hwrap; hlookup|].
      intros t Ht. apply Htl. rewrite last_cons in Ht.
      destruct (last ps) eqn:El; [exact Ht|].
      apply last_None in El. contradiction.
    + solve_ok Hok1.
    + intros r o Hr Hro. apply not_elem_of_cons in Hr as [Hr _]. wsimpl.
      assert (r <> p) by congruence.
      now rewrite !lookup_insert_ne by solve_ne.
Qed.

(** [linked_list_insert] at index [size] of a list that is not empty. *)
Lemma insert_back_ok w ll ps xs q v :
  ok w -> list2_at w ll ps xs q -> ps <> [] -> Z.of_nat (length xs) < SIZE_MAX ->
  runs (linked_list_insert ll (Z.of_nat (length xs)) v) w (fun b w' =>
    b = true /\ exists p q',
      heap w !! p = None /\ list2_at w' ll (ps ++ [p]) (xs ++ [v]) q' /\ ok w' /\
      frame_on (ll :: ps) w w').
Proof.
  intros Hok (Hll & Hnd & Hc & Hsz & tl & Hl & Htl) Hps Hlt.
  pose proof Hok as (Hmf & Hff & _).
  assert (Hxs : xs <> []) by (intros E; apply Hps; now apply (chain_nil_iff _ _ _ _ Hc)).
  assert (Hlen : Z.of_nat (length xs) <> 0) by (destruct xs; [congruence | simpl; lia]).
  destruct (last ps) as [t|] eqn:Et; [|apply last_None in Et; contradiction].
  specialize (Htl t eq_refl). subst tl.
  assert (Htps : t ∈ ps) by (now apply last_Some_elem_of).
  destruct (chain_lookup _ _ _ _ _ Hc Htps) as (Ht & n & Hn).
  unfold linked_list_insert. step. step. cbv beta.
  rewrite (eqb_NULL_false _ Hll), Z.ltb_irrefl.
  cbn [orb]. step. step. cbv beta. rewrite Hmf.
  step. apply runs_call_malloc. intros p a' Hm. cbv beta.
  destruct (world_ok_alloc _ _ _ Hsound w _ p a' (as_node p (uninit w)) Hok Hm)
    as (Hp & Hfresh & Hok1).
  assert (Hpll : p <> ll) by congruence.
  assert (Hpps : p ∉ ps) by (eapply chain_fresh; eauto).
  assert (Hpt : p <> t) by congruence.
  assert (Htll : t <> ll) by congruence.
  assert (Hllps : ll ∉ ps).
  { eapply chain_not_header; [exact Hc|]. intros n0. rewrite Hl. discriminate. }
  assert (Hlldom : ll ∈ dom (heap w)) by (eapply in_dom_of_lookup; eauto).
  assert (Htdom : t ∈ dom (heap w)) by (eapply in_dom_of_lookup; eauto).
  unfold as_node in *.
  destruct (Z.of_nat (length xs) =? 0) eqn:E0; [apply Z.eqb_eq in E0; contradiction|].
  rewrite Z.eqb_refl.
  steps. split; [reflexivity|]. exists p, (uninit w (p + 8)).
  split; [exact Hfresh|]. split; [|split].
  - split; [exact Hll|]. split.
    { apply NoDup_app. split; [exact Hnd|]. split; [|apply NoDup_singleton].
      intros r Hr Hr'. apply list_elem_of_singleton in Hr'. subst r. contradiction. }
    split.
    { apply chain_ext with
        (h := <[t := ONode (mkNode (data n) p)]>
                (<[p := ONode (mkNode v (uninit w (p + 8)))]> (heap w))).
      - apply chain_snoc; [|exact Hp|hlookup].
        apply chain_set_last with (q := q); [|exact Hnd|exact Et|hlookup].
        apply chain_insert_other; [assumption|]. exact Hc.
      - intros r Hr. assert (r <> ll).
        { intros ->. apply elem_of_app in Hr as [Hr|Hr]; [contradiction|].
          apply list_elem_of_singleton in Hr. congruence. }
        wsimpl. do 2 rewrite (lookup_insert_ne _ ll r) by solve_ne.
        now rewrite insert_insert_eq. }
    split; [rewrite length_app; simpl length in *; lia|].
    exists p. split.
    + rewrite length_app, Nat2Z.inj_add. simpl length.
      rewrite wrap64_small by lia.
      replace (hd (uninit w (p + 8)) (ps ++ [p])) with (hd q ps)
        by (destruct ps; [contradiction | reflexivity]).
      hlookup.
    + intros r Hr. rewrite last_snoc in Hr. congruence.
  - solve_ok Hok1.
  - intros r o Hr Hro. apply not_elem_of_cons in Hr as [Hr Hr'].
    assert (r <> p) by congruence.
    assert (r <> t) by (intros ->; contradiction).
    wsimpl. now rewrite !lookup_insert_ne by solve_ne.
Qed.

(** [linked_list_insert_end]. *)
Lemma insert_end_ok w ll ps xs q v :
  ok w -> list2_at w ll ps xs q -> Z.of_nat (length xs) < SIZE_MAX ->
  runs (linked_list_insert_end ll v) w (fun b w' =>
    b = true /\ exists p q',
      heap w !! p = None /\ list2_at w' ll (ps ++ [p]) (xs ++ [v]) q' /\
      (ps = [] -> q' = q) /\ ok w' /\ frame_on (ll :: ps) w w').
Proof.
  intros Hok Hat Hlt. pose proof Hat as (Hll & _ & Hc & _ & tl & Hl & _).
  unfold linked_list_insert_end. rewrite (eqb_NULL_false _ Hll). cbn [negb].
  step. step. cbv beta.
  destruct ps as [|p0 ps].
  - assert (xs = []) by (now apply (chain_nil_iff _ _ _ _ Hc)). subst xs.
    eapply runs_weaken; [apply (insert_front_ok w ll [] [] q v Hok Hat Hlt)|].
    intros b w' (-> & p & Hf & Hat' & Hok' & Hfr).
    split; [reflexivity|]. exists p, q.
    split; [exact Hf|]. split; [exact Hat'|].
    split; [reflexivity|]. split; assumption.
  - eapply runs_weaken; [apply (insert_back_ok w ll _ xs q v Hok Hat); [discriminate|exact Hlt]|].
    intros b w' (-> & p & q' & Hf & Hat' & Hok' & Hfr).
    split; [reflexivity|]. exists p, q'.
    split; [exact Hf|]. split; [exact Hat'|].
    split; [intros E; discriminate E|]. split; assumption.
Qed.

(** [linked_list_remove] at index 0. *)
Lemma remove_front_ok w ll p ps x xs q :
  ok w -> list2_at w ll (p :: ps) (x :: xs) q ->
  runs (linked_list_remove ll 0) w (fun b w' =>
    b = true /\ list2_at w' ll ps xs q /\ ok w' /\ frame_on (ll :: p :: ps) w w').
Proof.
  intros Hok (Hll & Hnd & Hc & Hsz & tl & Hl & Htl).
  pose proof Hok as (Hmf & Hff & _).
  destruct Hc as (Hp & Hn & Hc). apply NoDup_cons in Hnd as [Hpps Hnd].
  assert (Hpll : p <> ll) by congruence.
  assert (Hllps : ll ∉ ps).
  { eapply chain_not_header; [exact Hc|]. intros n0. rewrite Hl. discriminate. }
  assert (Hlldom : ll ∈ dom (heap w)) by (eapply in_dom_of_lookup; eauto).
  unfold linked_list_remove. rewrite (eqb_NULL_false _ Hll).
  step. step. step. step. cbv beta.
  replace (Z.of_nat (length (x :: xs)) <=? 0) with false
    by (symmetry; apply Z.leb_gt; simpl length; lia).
  rewrite Z.eqb_refl. cbn [hd] in *.
  step. step. step. step. step. step. step. step. step. cbv beta. wsimpl. rewrite Hff.
  steps. split; [reflexivity|]. split; [|split].
  - split; [exact Hll|]. split; [exact Hnd|]. split.
    { apply chain_insert_other; [assumption|].
      apply chain_delete_other; [assumption|].
      apply chain_insert_other; [assumption|]. exact Hc. }
    split; [simpl length in *; lia|].
    exists tl. split.
    + replace (wrap64 (Z.of_nat (length (x :: xs)) - 1)) with (Z.of_nat (length xs))
        by (rewrite wrap64_small; simpl length in *; lia).
      hlookup.
    + intros t Ht. apply Htl. rewrite last_cons, Ht. reflexivity.
  - solve_ok (world_ok_free _ _ _ Hsound w p Hok).
  - intros r o Hr Hro. apply not_elem_of_cons in Hr as [Hr Hr'].
    apply not_elem_of_cons in Hr' as [Hr' _].
    wsimpl. rewrite lookup_insert_ne by solve_ne.
    rewrite lookup_delete_ne by solve_ne.
    now rewrite lookup_insert_ne by solve_ne.
Qed.

Lemma list2_at_ext w w' ll ps xs q :
  list2_at w ll ps xs q ->
  (forall r, r ∈ ll :: ps -> heap w' !! r = heap w !! r) ->
  list2_at w' ll ps xs q.
Proof.
  intros (Hll & Hnd & Hc & Hsz & tl & Hl & Htl) Hext.
  split; [exact Hll|]. split; [exact Hnd|]. split.
  - eapply chain_ext; [exact Hc|]. intros r Hr. apply Hext. now apply elem_of_cons; right.
  - split; [exact Hsz|]. exists tl. split; [|exact Htl].
    rewrite Hext by (apply elem_of_cons; auto). exact Hl.
Qed.

(** [linked_list_create_iterator] at an index inside the list. *)
Lemma create_iterator_ok w ll ps xs q (i : nat) pi xi :
  ok w -> list2_at w ll ps xs q -> ps !! i = Some pi -> xs !! i = Some xi ->
  runs (linked_list_create_iterator ll (Z.of_nat i)) w (fun it w' =>
    it <> NULL /\ heap w !! it = None /\
    heap w' !! it = Some (OIter (mkIterator ll pi (Z.of_nat i) xi)) /\
    list2_at w' ll ps xs q /\ ok w' /\ frame_on [] w w').
Proof.
  intros Hok Hat Hpi Hxi. pose proof Hat as (Hll & Hnd & Hc & Hsz & tl & Hl & Htl).
  pose proof Hok as (Hmf & Hff & _).
  pose proof (lookup_lt_Some _ _ _ Hxi) as Hi.
  pose proof (lookup_lt_Some _ _ _ Hpi) as Hi'.
  destruct (chain_lookup_index _ _ _ _ _ _ _ Hc Hpi Hxi) as (Hpin & Hpil).
  assert (Hpips : pi ∈ ps) by (eapply list_elem_of_lookup_2; eauto).
  unfold linked_list_create_iterator. rewrite (eqb_NULL_false _ Hll).
  step. step. step. step. cbv beta.
  replace (Z.of_nat (length xs) <=? Z.of_nat i) with false
    by (symmetry; apply Z.leb_gt; lia).
  step. step. cbv beta. rewrite Hmf.
  step. apply runs_call_malloc. intros it a' Hm. cbv beta.
  destruct (world_ok_alloc _ _ _ Hsound w _ it a' (as_iterator it (uninit w)) Hok Hm)
    as (Hit & Hfresh & Hok1).
  assert (Hitll : it <> ll) by congruence.
  assert (Hitps : it ∉ ps) by (eapply chain_fresh; eauto).
  assert (Hitpi : it <> pi) by (intros ->; contradiction).
  step. step. step.
  unfold _linked_list_init_iterator. rewrite (eqb_NULL_false _ Hit).
  step. step. step. rewrite Nat2Z.id.
  eapply runs_walk with (xs := xs).
  { wsimpl. apply chain_insert_other; [exact Hitps | exact Hc]. }
  { lia. }
  wsimpl. rewrite (hd_drop_lookup _ _ _ _ Hpi).
  step. step. step. step. step. step.
  split; [exact Hit|]. split; [exact Hfresh|]. split; [hlookup|].
  split; [|split].
  - eapply list2_at_ext; [exact Hat|]. intros r Hr. wsimpl.
    assert (r <> it).
    { intros ->. apply elem_of_cons in Hr as [Hr|Hr]; [congruence | contradiction]. }
    now rewrite !lookup_insert_ne by solve_ne.
  - solve_ok Hok1.
  - intros r o _ Hro. wsimpl. assert (r <> it) by congruence.
    now rewrite !lookup_insert_ne by solve_ne.
Qed.

(** What [linked_list_size] does, whatever the heap holds. *)
Lemma size_cases w ll :
  (ll = NULL /\ linked_list_size ll w = Ret (SIZE_MAX, w)) \/
  (ll <> NULL /\ exists l, heap w !! ll = Some (OList2 l) /\
                            linked_list_size ll w = Ret (size l, w)) \/
  (ll <> NULL /\ exists f, linked_list_size ll w = Stop f).
Proof.
  destruct (Z.eq_dec ll NULL) as [->|Hne]; [left; auto|]. right.
  unfold linked_list_size, load_list, load, bind. rewrite (eqb_NULL_false _ Hne).
  destruct (heap w !! ll) as [[n|it|l1|l|qq]|] eqn:E;
    try (right; split; [exact Hne | eexists; reflexivity]).
  left. split; [exact Hne|]. exists l. split; reflexivity.
Qed.

(** [linked_list_create_iterator] on a null list or at an index that is not
    inside the list: the absent result, nothing touched. *)
Lemma create_iterator_out_of_range w ll index :
  ll = NULL \/ (exists l, heap w !! ll = Some (OList2 l) /\ size l <= index) ->
  linked_list_create_iterator ll index w = Ret (NULL, w).
Proof.
  intros [-> | (l & Hl & Hge)]; [reflexivity|].
  unfold linked_list_create_iterator.
  destruct (size_cases w ll) as [(-> & Hs) | [(Hne & l' & Hl' & Hs) | (Hne & f & Hs)]];
    [reflexivity | |].
  - rewrite Hl in Hl'. injection Hl' as <-. rewrite (eqb_NULL_false _ Hne).
    erewrite bind_ret_inv; [|rewrite (bind_ret_inv _ _ _ _ _ Hs); reflexivity].
    replace (size l <=? index) with true by (symmetry; apply Z.leb_le; lia).
    reflexivity.
  - unfold linked_list_size, load_list, load, bind in Hs.
    rewrite (eqb_NULL_false _ Hne), Hl in Hs. discriminate.
Qed.

(** [linked_list_delete] of a list whose chain ends in [NULL]. *)
Lemma delete_ok w ll ps xs fuel :
  ok w -> list2_at w ll ps xs NULL -> (length ps < fuel)%nat ->
  runs (linked_list_delete fuel ll) w (fun b w' =>
    b = true /\ ok w' /\ frame_on (ll :: ps) w w').
Proof.
  intros Hok (Hll & Hnd & Hc & Hsz & tl & Hl & Htl) Hf.
  unfold linked_list_delete. rewrite (eqb_NULL_false _ Hll).
  step. step. step.
  eapply runs_weaken; [apply (runs_delete_loop _ _ _ Hsound w ps xs fuel Hok Hc Hnd Hf)|].
  intros _ w1 (Hok1 & Hfr1). cbv beta.
  step. step. cbv beta. destruct Hok1 as (Hmf1 & Hff1 & Hrest1). rewrite Hff1.
  step. step. step.
  split; [reflexivity|]. split.
  - apply (world_ok_free _ _ _ Hsound w1 ll). repeat split; tauto.
  - intros r o Hr Hro. apply not_elem_of_cons in Hr as [Hrl Hr].
    wsimpl. rewrite lookup_delete_ne by solve_ne. now apply Hfr1.
Qed.

Lemma first_at_end (xs : list Z) v :
  v ∉ xs ->
  (xs ++ [v]) !! length xs = Some v /\
  (forall j x, (j < length xs)%nat -> (xs ++ [v]) !! j = Some x -> x <> v).
Proof.
  intros Hv. split.
  - rewrite lookup_app_r by lia. now rewrite Nat.sub_diag.
  - intros j x Hj Hx ->. rewrite lookup_app_l in Hx by lia.
    apply Hv. eapply list_elem_of_lookup_2; eauto.
Qed.

Lemma insert_end_then_find_ok w ll ps xs q v fuel :
  ok w -> list2_at w ll ps xs q -> v ∉ xs ->
  Z.of_nat (length xs) < SIZE_MAX -> (length xs < fuel)%nat ->
  runs (insert_end_then_find fuel ll v) w (fun r _ =>
    r = (Z.of_nat (length xs), true, Z.of_nat (length xs))).
Proof.
  intros Hok Hat Hv Hlt Hf. pose proof Hat as (Hll & _ & _ & _ & tl & Hl & _).
  unfold insert_end_then_find. step. step. step.
  eapply runs_weaken; [apply (insert_end_ok w ll ps xs q v Hok Hat Hlt)|].
  intros b w1 (-> & p & q' & _ & Hat1 & _). cbv beta.
  destruct Hat1 as (_ & _ & Hc1 & _ & tl1 & Hl1 & _).
  destruct (first_at_end xs v Hv) as (Hk & Hfirst).
  step. unfold linked_list_find. rewrite (eqb_NULL_false _ Hll). step. step.
  eapply runs_find_loop with (k := length xs); eauto; try lia.
  cbv beta. step. rewrite Z.add_0_l. reflexivity.
Qed.



(** *** The queue *)

Lemma queue_at_not_list w qa ps xs q ll :
  queue_at w qa ps xs q -> heap w !! qa = Some (OQueue (mkQueue ll)) ->
  list2_at w ll ps xs q /\ qa <> ll /\ (qa ∉ ps).
Proof.
  intros (Hqa & ll' & Hq & Hat) Hq'. rewrite Hq in Hq'. injection Hq' as ->.
  split; [exact Hat|]. destruct Hat as (Hll & Hnd & Hc & Hsz & tl & Hl & Htl). split.
  - intros ->. congruence.
  - eapply chain_not_header; [exact Hc|]. intros n. rewrite Hq. discriminate.
Qed.

Lemma queue_create_ok w :
  ok w ->
  runs queue_create w (fun qa w' =>
    queue_at w' qa [] [] NULL /\ ok w' /\ frame_on [] w w').
Proof.
  intros Hok. pose proof Hok as (_ & _ & Hqmf & _).
  unfold queue_create. step. step. cbv beta. rewrite Hqmf.
  step. apply runs_call_malloc. intros qa a' Hm. cbv beta.
  destruct (world_ok_alloc _ _ _ Hsound w _ qa a' (as_queue qa (uninit w)) Hok Hm)
    as (Hqa & Hfresh & Hok1).
  step. step. rewrite (eqb_NULL_false _ Hqa). cbn [negb].
  step. eapply runs_weaken; [apply (create_ok _ Hok1)|].
  intros ll w2 (Hat & Hok2 & Hllfresh & Hfr). cbv beta.
  assert (Hq1 : heap (with_heap (<[qa := as_queue qa (uninit w)]> (heap w))
                                (with_astate a' w)) !! qa
                = Some (as_queue qa (uninit w))) by hlookup.
  pose proof (Hfr _ _ (not_elem_of_nil qa) Hq1) as Hq2.
  assert (Hqall : qa <> ll) by (intros ->; congruence).
  step. step. step.
  split; [|split].
  - split; [exact Hqa|]. exists ll. split; [hlookup|].
    eapply list2_at_ext; [exact Hat|]. intros r Hr. wsimpl.
    apply elem_of_cons in Hr as [->|Hr]; [|inversion Hr].
    now rewrite lookup_insert_ne by solve_ne.
  - assert (qa ∈ dom (heap w2)) by (eapply in_dom_of_lookup; eauto).
    solve_ok Hok2.
  - intros r o _ Hro. wsimpl. assert (r <> qa) by congruence.
    rewrite lookup_insert_ne by solve_ne. apply Hfr; [apply not_elem_of_nil|].
    wsimpl. now rewrite lookup_insert_ne by solve_ne.
Qed.

Lemma queue_size_ok w qa ps xs q Q :
  queue_at w qa ps xs q -> Q (Z.of_nat (length xs)) w ->
  runs (queue_size qa) w Q.
Proof.
  intros (Hqa & ll & Hq & Hat) HQ.
  destruct Hat as (Hll & Hnd & Hc & Hsz & tl & Hl & Htl).
  unfold queue_size. rewrite (eqb_NULL_false _ Hqa). step. step. step. exact HQ.
Qed.

Lemma queue_push_ok w qa ps xs q v :
  ok w -> queue_at w qa ps xs q -> Z.of_nat (length xs) < SIZE_MAX ->
  runs (queue_push qa v) w (fun b w' =>
    b = true /\ exists p q',
      queue_at w' qa (ps ++ [p]) (xs ++ [v]) q' /\ (ps = [] -> q' = q) /\ ok w').
Proof.
  intros Hok Hqat Hlt. pose proof Hqat as (Hqa & ll & Hq & _).
  destruct (queue_at_not_list _ _ _ _ _ _ Hqat Hq) as (Hat & Hqall & Hqaps).
  unfold queue_push. rewrite (eqb_NULL_false _ Hqa). step. step. wsimpl.
  eapply runs_weaken; [apply (insert_end_ok w ll ps xs q v Hok Hat Hlt)|].
  intros b w' (-> & p & q' & Hf & Hat' & Hq' & Hok' & Hfr).
  split; [reflexivity|]. exists p, q'. split; [|split; assumption].
  split; [exact Hqa|]. exists ll. split; [|exact Hat'].
  apply Hfr; [|exact Hq]. intros Hin.
  apply elem_of_cons in Hin as [Hin|Hin]; contradiction.
Qed.

Lemma queue_pop_ok w qa p ps x xs q d :
  ok w -> queue_at w qa (p :: ps) (x :: xs) q ->
  runs (queue_pop qa d) w (fun r w' =>
    r = (true, x) /\ queue_at w' qa ps xs q /\ ok w').
Proof.
  intros Hok Hqat. pose proof Hqat as (Hqa & ll & Hq & _).
  destruct (queue_at_not_list _ _ _ _ _ _ Hqat Hq) as (Hat & Hqall & Hqaps).
  unfold queue_pop. rewrite (eqb_NULL_false _ Hqa). step.
  unfold queue_next. step. unfold queue_has_next. rewrite (eqb_NULL_false _ Hqa).
  step. eapply queue_size_ok; [exact Hqat|]. step. cbv beta.
  replace (0 <? Z.of_nat (length (x :: xs))) with true
    by (symmetry; apply Z.ltb_lt; simpl length; lia).
  cbn [negb]. step. step. wsimpl. step.
  eapply runs_weaken;
    [apply (create_iterator_ok w ll (p :: ps) (x :: xs) q O p x Hok Hat); reflexivity|].
  intros it w1 (Hit & Hitfresh & Hiter & Hat1 & Hok1 & Hfr1). cbv beta.
  rewrite (eqb_NULL_false _ Hit).
  pose proof (Hfr1 _ _ (not_elem_of_nil qa) Hq) as Hq1.
  step. step. step. cbn [fst snd negb]. step. step. wsimpl. step.
  eapply runs_weaken; [apply (remove_front_ok w1 ll p ps x xs q Hok1 Hat1)|].
  intros b w2 (-> & Hat2 & Hok2 & Hfr2). cbv beta. step.
  split; [reflexivity|]. split; [|exact Hok2].
  split; [exact Hqa|]. exists ll. split; [|exact Hat2].
  apply Hfr2; [|exact Hq1]. intros Hin.
  apply elem_of_cons in Hin as [Hin|Hin]; contradiction.
Qed.

Lemma queue_pop_empty w qa q d :
  queue_at w qa [] [] q -> queue_pop qa d w = Ret ((false, d), w).
Proof.
  intros Hqat. pose proof Hqat as (Hqa & ll & Hq & Hll & Hnd & Hc & Hsz & tl & Hl & Htl).
  assert (Hr : runs (queue_pop qa d) w (fun r w' => r = (false, d) /\ w' = w)).
  { unfold queue_pop. rewrite (eqb_NULL_false _ Hqa). step.
    unfold queue_next. step. unfold queue_has_next. rewrite (eqb_NULL_false _ Hqa).
    step. eapply queue_size_ok; [exact Hqat|]. cbv beta. step. cbv beta.
    change (0 <? Z.of_nat (length (@nil Z))) with false. cbn [negb]. step. cbn [fst snd negb]. step. auto. }
  destruct Hr as (r & w' & Hrun & -> & ->). exact Hrun.
Qed.

Lemma queue_delete_ok w qa ps xs fuel :
  ok w -> queue_at w qa ps xs NULL -> (length ps < fuel)%nat ->
  runs (queue_delete fuel qa) w (fun b w' => b = true /\ ok w').
Proof.
  intros Hok Hqat Hf. pose proof Hqat as (Hqa & ll & Hq & _).
  destruct (queue_at_not_list _ _ _ _ _ _ Hqat Hq) as (Hat & Hqall & Hqaps).
  unfold queue_delete. rewrite (eqb_NULL_false _ Hqa). step. step. wsimpl. step.
  eapply runs_weaken; [apply (delete_ok w ll ps xs fuel Hok Hat Hf)|].
  intros b w1 (-> & Hok1 & Hfr1). cbv beta.
  step. step. cbv beta. destruct Hok1 as (Hmf1 & Hff1 & Hqmf1 & Hqff1 & Hinv1).
  rewrite Hqff1. step. step. step. split; [reflexivity|].
  apply (world_ok_free _ _ _ Hsound w1 qa). repeat split; assumption.
Qed.

Lemma push_all_ok w qa ps xs q vs :
  ok w -> queue_at w qa ps xs q ->
  Z.of_nat (length xs + length vs) <= SIZE_MAX ->
  runs (push_all qa vs) w (fun b w' =>
    b = true /\ exists ps' q', queue_at w' qa ps' (xs ++ vs) q' /\ ok w').
Proof.
  revert w ps xs q. induction vs as [|v vs IH]; intros w ps xs q Hok Hqat Hb.
  - cbn [push_all]. step. split; [reflexivity|]. exists ps, q.
    rewrite app_nil_r. auto.
  - cbn [push_all]. step.
    eapply runs_weaken; [apply (queue_push_ok w qa ps xs q v Hok Hqat)|].
    { simpl length in Hb. lia. }
    intros b w1 (-> & p & q1 & Hqat1 & _ & Hok1). cbv beta.
    eapply runs_weaken; [apply (IH w1 _ _ _ Hok1 Hqat1)|].
    { rewrite length_app. simpl length in *. lia. }
    intros b w2 (-> & ps2 & q2 & Hqat2 & Hok2).
    split; [reflexivity|]. exists ps2, q2. rewrite <- app_assoc in Hqat2. auto.
Qed.

Lemma pop_all_ok w qa ps xs q :
  ok w -> queue_at w qa ps xs q ->
  runs (pop_all qa (length xs)) w (fun tr w' =>
    tr = fifo_trace xs /\ queue_at w' qa [] [] q /\ ok w').
Proof.
  revert w ps. induction xs as [|x xs IH]; intros w ps Hok Hqat.
  - cbn [pop_all length]. step. split; [reflexivity|].
    assert (ps = []).
    { destruct Hqat as (_ & ll & _ & _ & _ & Hc & _).
      now apply (chain_nil_iff _ _ _ _ Hc). }
    subst ps. auto.
  - destruct ps as [|p ps].
    { destruct Hqat as (_ & ll & _ & _ & _ & Hc & _). simpl in Hc. tauto. }
    cbn [pop_all length]. step.
    eapply queue_size_ok; [exact Hqat|]. cbv beta. step.
    eapply runs_weaken; [apply (queue_pop_ok w qa p ps x xs q 0 Hok Hqat)|].
    intros r w1 (-> & Hqat1 & Hok1). cbv beta. step.
    eapply queue_size_ok; [exact Hqat1|]. cbv beta. step.
    eapply runs_weaken; [apply (IH w1 ps Hok1 Hqat1)|].
    intros tr w2 (-> & Hqat2 & Hok2). cbv beta. step.
    split; [reflexivity|]. auto.
Qed.

(** C7.  Under a sound allocator, pushing the values [vs] onto a queue that
    holds [xs] (so onto an empty queue when [xs] is empty) and then popping
    delivers [xs ++ vs] in first-in-first-out order: every pop succeeds,
    yields the oldest value, and [queue_size] read just after it is one less
    than [queue_size] read just before it. *)
Theorem queue_fifo w qa ps xs q vs :
  ok w -> queue_at w qa ps xs q ->
  Z.of_nat (length xs + length vs) <= SIZE_MAX ->
  exists w1 w2,
    push_all qa vs w = Ret (true, w1) /\
    pop_all qa (length xs + length vs) w1 = Ret (fifo_trace (xs ++ vs), w2).
Proof.
  intros Hok Hqat Hb.
  destruct (push_all_ok w qa ps xs q vs Hok Hqat Hb)
    as (b & w1 & Hpush & -> & ps1 & q1 & Hqat1 & Hok1).
  destruct (pop_all_ok w1 qa ps1 (xs ++ vs) q1 Hok1 Hqat1)
    as (tr & w2 & Hpop & -> & _).
  exists w1, w2. split; [exact Hpush|].
  rewrite length_app in Hpop. exact Hpop.
Qed.

End Sound.
End Level2Facts.

(** ** The [endless] allocator is sound; concrete worlds *)

Lemma endless_sound : sound_allocator endless_malloc endless_free endless_inv.
Proof.
  split.
  - intros a D sz p a' (Hpos & Hbelow) Hm. unfold endless_malloc in Hm.
    injection Hm as <- <-. split; [unfold NULL; lia|]. split.
    + intros Hin. apply Hbelow in Hin. lia.
    + split; [lia|]. intros p Hp. apply elem_of_union in Hp as [Hp|Hp].
      * apply elem_of_singleton in Hp. lia.
      * apply Hbelow in Hp. lia.
  - intros a D p (Hpos & Hbelow). split; [exact Hpos|].
    intros r Hr. apply Hbelow. set_solver.
Qed.

Example queue_create_boot :
  Level2.queue_create (boot_queue 4096 endless_malloc endless_free)
  = Ret (4096, queue_world).
Proof. vm_compute. reflexivity. Qed.

Lemma queue_world_ok : world_ok endless_malloc endless_free endless_inv queue_world.
Proof.
  unfold world_ok. do 4 (split; [reflexivity|]).
  split; [simpl; lia|].
  intros p Hp. cbn [heap astate queue_world] in *.
  rewrite !dom_insert_L, dom_empty_L in Hp.
  repeat (apply elem_of_union in Hp as [Hp|Hp];
          [apply elem_of_singleton in Hp; lia|]).
  now apply elem_of_empty in Hp.
Qed.

Lemma queue_world_at : queue_at queue_world 4096 [] [] NULL.
Proof.
  split; [discriminate|]. exists 4160. split; [reflexivity|].
  split; [discriminate|]. split; [constructor|]. split; [exact I|].
  split; [discriminate|]. exists 0. split; [reflexivity|].
  intros p Hp. discriminate Hp.
Qed.

Lemma queue_fifo_witness :
  exists w1 w2,
    push_all 4096 [7; 8; 9] queue_world = Ret (true, w1) /\
    pop_all 4096 (0 + 3) w1 = Ret (fifo_trace ([] ++ [7; 8; 9]), w2).
Proof.
  apply (Level2Facts.queue_fifo endless_malloc endless_free endless_inv
           endless_sound queue_world 4096 [] [] NULL [7; 8; 9]).
  - exact queue_world_ok.
  - exact queue_world_at.
  - simpl. unfold SIZE_MAX. lia.
Defined.

(** ** The harness: [add_edge] *)

Module HarnessFacts.
Import Harness.

Section AddEdge.
Context {A : Type}.
Variable libc_grants : list libc_call -> libc_call -> bool.
Variable garbage : Z.
Hypothesis Hgrants : forall l c, libc_grants l c = true.
Implicit Types (s : hstate A).

Lemma get_row_ok s i r :
  0 <= i -> rows s !! Z.to_nat i = Some r -> get_row i s = Ret (r, s).
Proof.
  intros Hi Hr. unfold get_row. rewrite Hr.
  destruct (0 <=? i) eqn:E; [reflexivity | apply Z.leb_gt in E; lia].
Qed.

(** The first edge of a row: the row struct and a 16-slot array are
    allocated. *)
Lemma add_edge_new s i j :
  0 <= i -> rows s !! Z.to_nat i = Some None ->
  add_edge libc_grants garbage i j s
  = Ret (tt, mkH (<[Z.to_nat i :=
                     Some (mkRow 1 (Some (j :: replicate 15 garbage)) false)]> (rows s))
                 ((libc_log s ++ [CMalloc sizeof_row])
                    ++ [CMalloc (16 * sizeof_unsigned_int)])
                 (qw s)).
Proof.
  intros Hi Hr. unfold add_edge.
  rewrite (bind_ret_inv _ _ _ _ _ (get_row_ok s i None Hi Hr)).
  unfold bind at 1, libc_request. rewrite Hgrants. cbn [negb].
  unfold bind at 1. cbn [libc_log rows qw]. rewrite Hgrants. cbn [negb].
  reflexivity.
Qed.

(** A further edge of a row holding [k] entries [pre] in an array with
    [slack] free slots. *)
Lemma add_edge_append s i j (k slack : nat) pre vis :
  0 <= i ->
  rows s !! Z.to_nat i
    = Some (Some (mkRow (Z.of_nat k) (Some (pre ++ replicate slack garbage)) vis)) ->
  length pre = k -> (1 <= slack <= 16)%nat ->
  (Z.of_nat (k + slack)) mod 16 = 0 ->
  Z.of_nat k + 17 <= 2 ^ 61 ->
  add_edge libc_grants garbage i j s
  = Ret (tt, mkH (<[Z.to_nat i :=
                     Some (mkRow (Z.of_nat (Datatypes.S k))
                             (Some ((pre ++ [j]) ++
                                    replicate (if (slack =? 1)%nat then 16 else slack - 1)
                                              garbage))
                             vis)]> (rows s))
                 (libc_log s ++ growth_calls (Z.of_nat k) 1)
                 (qw s)).
Proof.
  intros Hi Hr Hpre Hslack Hmod Hb. unfold add_edge.
  rewrite (bind_ret_inv _ _ _ _ _ (get_row_ok s i _ Hi Hr)).
  cbn [size adjacent_nodes visited growth_calls]. rewrite app_nil_r.
  assert (Hwrap1 : wrap64 (Z.of_nat k + 1) = Z.of_nat (Datatypes.S k)).
  { rewrite wrap64_small; [lia | unfold SIZE_MAX; lia]. }
  assert (Hin : (0 <=? Z.of_nat k) = true) by (apply Z.leb_le; lia).
  destruct (Z.of_nat k mod 16 =? 15) eqn:E.
  - apply Z.eqb_eq in E.
    assert (slack = 1%nat).
    { rewrite Nat2Z.inj_add in Hmod.
      pose proof (Z.div_mod (Z.of_nat k) 16 ltac:(lia)) as D1.
      pose proof (Z.div_mod (Z.of_nat k + Z.of_nat slack) 16 ltac:(lia)) as D2.
      rewrite Hmod, E in *. lia. }
    subst slack. cbn [Nat.eqb replicate].
    assert (Hbytes : wrap64 ((Z.of_nat k + 1 + 16) * sizeof_unsigned_int)
                     = (Z.of_nat k + 17) * 4).
    { unfold sizeof_unsigned_int. rewrite wrap64_small; [lia | unfold SIZE_MAX; lia]. }
    erewrite bind_ret_inv; cycle 1.
    { unfold bind, libc_request. rewrite Hgrants. reflexivity. }
    rewrite Hbytes. unfold sizeof_unsigned_int. rewrite Z.div_mul by lia.
    rewrite resize_ge by (rewrite length_app; simpl; lia).
    rewrite length_app. cbn [length replicate].
    replace (Z.to_nat (Z.of_nat k + 17) - (length pre + 1))%nat with 16%nat by lia.
    erewrite bind_ret_inv; cycle 1.
    { unfold array_set. rewrite Hin.
      replace (Z.of_nat k <? _) with true
        by (symmetry; apply Z.ltb_lt; rewrite !length_app, length_replicate; simpl; lia).
      reflexivity. }
    unfold set_row. cbn [rows libc_log qw].
    rewrite Hwrap1. rewrite Nat2Z.id.
    replace k with (length pre + 0)%nat at 2 by lia.
    rewrite <- (app_assoc pre), insert_app_r. cbn [app insert list_insert].
    rewrite <- app_assoc.
    replace (Z.of_nat k + 1 + 16) with (Z.of_nat k + 17) by lia. reflexivity.
  - apply Z.eqb_neq in E.
    assert (2 <= slack)%nat.
    { rewrite Nat2Z.inj_add in Hmod.
      pose proof (Z.div_mod (Z.of_nat k) 16 ltac:(lia)) as D1.
      pose proof (Z.div_mod (Z.of_nat k + Z.of_nat slack) 16 ltac:(lia)) as D2.
      pose proof (Z.mod_pos_bound (Z.of_nat k) 16 ltac:(lia)) as B1.
      rewrite Hmod in *. lia. }
    destruct slack as [|[|slack]]; try lia.
    cbn [Nat.eqb Nat.sub replicate]. rewrite ?Nat.sub_0_r.
    rewrite bind_ret.
    erewrite bind_ret_inv; cycle 1.
    { unfold array_set. rewrite Hin.
      replace (Z.of_nat k <? _) with true
        by (symmetry; apply Z.ltb_lt; rewrite !length_app; simpl; lia).
      reflexivity. }
    unfold set_row. cbn [rows libc_log qw].
    rewrite Hwrap1. rewrite Nat2Z.id.
    replace k with (length pre + 0)%nat at 2 by lia.
    rewrite insert_app_r. cbn [insert list_insert].
    rewrite <- app_assoc. rewrite app_nil_r. reflexivity.
Qed.

Lemma add_edges_append js : forall s i (k slack : nat) pre vis,
  0 <= i ->
  rows s !! Z.to_nat i
    = Some (Some (mkRow (Z.of_nat k) (Some (pre ++ replicate slack garbage)) vis)) ->
  length pre = k -> (1 <= slack <= 16)%nat ->
  (Z.of_nat (k + slack)) mod 16 = 0 ->
  Z.of_nat (k + length js) + 17 <= 2 ^ 61 ->
  exists slack',
    add_edges libc_grants garbage (map (pair i) js) s
    = Ret (tt, mkH (<[Z.to_nat i :=
                       Some (mkRow (Z.of_nat (k + length js))
                               (Some ((pre ++ js) ++ replicate slack' garbage))
                               vis)]> (rows s))
                   (libc_log s ++ growth_calls (Z.of_nat k) (length js))
                   (qw s)) /\
    (1 <= slack' <= 16)%nat /\
    (Z.of_nat (k + length js + slack')) mod 16 = 0.
Proof.
  induction js as [|j js IH]; intros s i k slack pre vis Hi Hr Hpre Hslack Hmod Hb.
  - exists slack. cbn [map add_edges length growth_calls].
    rewrite !app_nil_r, Nat.add_0_r. split; [|auto].
    rewrite list_insert_id by exact Hr. now destruct s.
  - cbn [map add_edges length].
    assert (Hlen : (Z.to_nat i < length (rows s))%nat) by (eapply lookup_lt_Some; eauto).
    rewrite (bind_ret_inv _ _ _ _ _
               (add_edge_append s i j k slack pre vis Hi Hr Hpre Hslack Hmod
                  ltac:(simpl length in Hb; lia))).
    set (slack1 := if (slack =? 1)%nat then 16%nat else (slack - 1)%nat).
    assert (Hs1 : (1 <= slack1 <= 16)%nat).
    { subst slack1. destruct (Nat.eqb_spec slack 1); lia. }
    assert (Hm1 : Z.of_nat (Datatypes.S k + slack1) mod 16 = 0).
    { subst slack1. destruct (Nat.eqb_spec slack 1) as [->|Hne].
      - replace (Z.of_nat (Datatypes.S k + 16)) with (Z.of_nat (k + 1) + 1 * 16) by lia.
        now rewrite Z.mod_add by lia.
      - replace (Datatypes.S k + (slack - 1))%nat with (k + slack)%nat by lia.
        exact Hmod. }
    fold slack1.
    match goal with
    | |- exists _, add_edges _ _ _ ?s1 = _ /\ _ =>
        destruct (IH s1 i (Datatypes.S k) slack1 (pre ++ [j]) vis Hi)
          as (slack' & Hrun & Hs' & Hm')
    end.
    { cbn [rows]. apply list_lookup_insert_eq. exact Hlen. }
    { rewrite length_app. simpl. lia. }
    { exact Hs1. }
    { exact Hm1. }
    { simpl length in Hb. lia. }
    exists slack'. split; [|split].
    + rewrite Hrun. cbn [rows libc_log qw]. rewrite list_insert_insert_eq.
      rewrite <- !app_assoc. cbn [growth_calls app].
      replace (Datatypes.S k + length js)%nat with (k + Datatypes.S (length js))%nat by lia.
      replace (Z.of_nat (Datatypes.S k)) with (Z.of_nat k + 1) by lia.
      rewrite app_nil_r. reflexivity.
    + exact Hs'.
    + replace (k + Datatypes.S (length js) + slack')%nat
        with (Datatypes.S k + length js + slack')%nat by lia. exact Hm'.
Qed.

(** All the edges of one source row, the row absent before. *)
Lemma add_edges_fresh_row s i j js :
  0 <= i -> rows s !! Z.to_nat i = Some None ->
  Z.of_nat (length js) + 18 <= 2 ^ 61 ->
  exists slack,
    add_edges libc_grants garbage (map (pair i) (j :: js)) s
    = Ret (tt, mkH (<[Z.to_nat i :=
                       Some (mkRow (Z.of_nat (Datatypes.S (length js)))
                               (Some ((j :: js) ++ replicate slack garbage))
                               false)]> (rows s))
                   (libc_log s
                      ++ [CMalloc sizeof_row; CMalloc (16 * sizeof_unsigned_int)]
                      ++ growth_calls 1 (length js))
                   (qw s)) /\
    (1 <= slack <= 16)%nat /\
    (Z.of_nat (Datatypes.S (length js) + slack)) mod 16 = 0.
Proof.
  intros Hi Hr Hb.
  assert (Hlen : (Z.to_nat i < length (rows s))%nat) by (eapply lookup_lt_Some; eauto).
  cbn [map add_edges].
  rewrite (bind_ret_inv _ _ _ _ _ (add_edge_new s i j Hi Hr)).
  match goal with
  | |- exists _, add_edges _ _ _ ?s1 = _ /\ _ =>
      destruct (add_edges_append js s1 i 1%nat 15%nat [j] false Hi)
        as (slack & Hrun & Hs & Hm)
  end.
  { cbn [rows]. apply list_lookup_insert_eq. exact Hlen. }
  { reflexivity. }
  { lia. }
  { reflexivity. }
  { lia. }
  exists slack. split; [|split; [exact Hs | exact Hm]].
  rewrite Hrun. cbn [rows libc_log qw]. rewrite list_insert_insert_eq.
  rewrite <- !app_assoc. reflexivity.
Qed.

(** C9.  Seventeen [add_edge] calls for one source row [i] that had no edges:
    the row then holds the seventeen destinations, in insertion order, in an
    array of 32 slots; the C library was asked for the array exactly twice,
    a 16-slot block at the first call and a [realloc] to 32 slots.  The
    [realloc] is issued by the sixteenth call, the one that finds the size at
    15: after fifteen calls only the 16-slot block has been requested. *)
Theorem add_edge_seventeen (s : hstate A) i js :
  0 <= i -> rows s !! Z.to_nat i = Some None -> length js = 17%nat ->
  (exists cells s17,
     add_edges libc_grants garbage (map (pair i) js) s = Ret (tt, s17) /\
     rows s17 !! Z.to_nat i = Some (Some (mkRow 17 (Some cells) false)) /\
     take 17 cells = js /\ length cells = 32%nat /\
     libc_log s17 = libc_log s ++ [CMalloc sizeof_row;
                                   CMalloc (16 * sizeof_unsigned_int);
                                   CRealloc (32 * sizeof_unsigned_int)]) /\
  (exists cells s15,
     add_edges libc_grants garbage (map (pair i) (take 15 js)) s = Ret (tt, s15) /\
     rows s15 !! Z.to_nat i = Some (Some (mkRow 15 (Some cells) false)) /\
     length cells = 16%nat /\
     libc_log s15 = libc_log s ++ [CMalloc sizeof_row;
                                   CMalloc (16 * sizeof_unsigned_int)]) /\
  (exists cells s16,
     add_edges libc_grants garbage (map (pair i) (take 16 js)) s = Ret (tt, s16) /\
     rows s16 !! Z.to_nat i = Some (Some (mkRow 16 (Some cells) false)) /\
     length cells = 32%nat /\
     libc_log s16 = libc_log s ++ [CMalloc sizeof_row;
                                   CMalloc (16 * sizeof_unsigned_int);
                                   CRealloc (32 * sizeof_unsigned_int)]).
Proof.
  intros Hi Hr Hlen17.
  assert (Hlen : (Z.to_nat i < length (rows s))%nat) by (eapply lookup_lt_Some; eauto).
  destruct js as [|j js]; [discriminate|]. simpl in Hlen17.
  injection Hlen17 as Hlen16.
  split; [|split].
  - destruct (add_edges_fresh_row s i j js Hi Hr) as (slack & Hrun & Hs & Hm).
    { rewrite Hlen16. lia. }
    rewrite Hlen16 in *.
    assert (slack = 15%nat).
    { pose proof (Z.div_mod (Z.of_nat (17 + slack)) 16 ltac:(lia)) as D.
      rewrite Hm in D. lia. }
    subst slack. eexists _, _. split; [exact Hrun|]. cbn [rows libc_log].
    split; [apply list_lookup_insert_eq; exact Hlen|].
    split; [|split].
    + apply take_app_length'. simpl. lia.
    + rewrite length_app. simpl. lia.
    + reflexivity.
  - cbn [take].
    destruct (add_edges_fresh_row s i j (take 14 js) Hi Hr) as (slack & Hrun & Hs & Hm).
    { rewrite length_take. lia. }
    assert (Hl14 : length (take 14 js) = 14%nat) by (rewrite length_take; lia).
    rewrite Hl14 in *.
    assert (slack = 1%nat).
    { pose proof (Z.div_mod (Z.of_nat (15 + slack)) 16 ltac:(lia)) as D.
      rewrite Hm in D. lia. }
    subst slack. eexists _, _. split; [exact Hrun|]. cbn [rows libc_log].
    split; [apply list_lookup_insert_eq; exact Hlen|].
    split; [|reflexivity].
    rewrite length_app. simpl. lia.
  - cbn [take].
    destruct (add_edges_fresh_row s i j (take 15 js) Hi Hr) as (slack & Hrun & Hs & Hm).
    { rewrite length_take. lia. }
    assert (Hl15 : length (take 15 js) = 15%nat) by (rewrite length_take; lia).
    rewrite Hl15 in *.
    assert (slack = 16%nat).
    { pose proof (Z.div_mod (Z.of_nat (16 + slack)) 16 ltac:(lia)) as D.
      rewrite Hm in D. lia. }
    subst slack. eexists _, _. split; [exact Hrun|]. cbn [rows libc_log].
    split; [apply list_lookup_insert_eq; exact Hlen|].
    split; [|reflexivity].
    rewrite length_app. simpl. lia.
Qed.

End AddEdge.

(** ** The harness: breadth-first search *)

Section Bfs.
Context {A : Type} (mf : malloc_fn A) (ff : free_fn A) (ainv : A -> gset Z -> Prop).
Hypothesis Hsound : sound_allocator mf ff ainv.
Variable libc_grants : list libc_call -> libc_call -> bool.
Variable garbage : Z.
Hypothesis Hgrants : forall l c, libc_grants l c = true.
Implicit Types (s : hstate A).

Abbreviation ok := (world_ok mf ff ainv).

Lemma runs_liftq {X} (c : M (world A) X) s Q :
  runs c (qw s) (fun x w' => Q x (mkH (rows s) (libc_log s) w')) ->
  runs (liftq c) s Q.
Proof.
  intros (x & w' & Hc & HQ). exists x, (mkH (rows s) (libc_log s) w').
  split; [|exact HQ]. unfold liftq. now rewrite Hc.
Qed.

Lemma runs_get_row s i r Q :
  0 <= i -> rows s !! Z.to_nat i = Some r -> Q r s -> runs (get_row i) s Q.
Proof.
  intros Hi Hr HQ. exists r, s. split; [|exact HQ]. now apply get_row_ok.
Qed.

(** One turn of the loop at a row that was not visited and has a single
    adjacent node [d], the queue being empty: the row is marked, [d] is
    pushed and popped again, and the loop goes on at [d]. *)
Lemma bfs_visit_single s qa j next count d rest fuel Q :
  0 <= next -> 0 <= count < SIZE_MAX ->
  rows s !! Z.to_nat next = Some (Some (mkRow 1 (Some (d :: rest)) false)) ->
  queue_at (qw s) qa [] [] NULL -> ok (qw s) ->
  (forall w',
     queue_at w' qa [] [] NULL -> ok w' ->
     runs (bfs_loop fuel qa j (if j =? d then true else false) d (count + 1))
          (mkH (<[Z.to_nat next := Some (mkRow 1 (Some (d :: rest)) true)]> (rows s))
               (libc_log s) w') Q) ->
  runs (bfs_loop (Datatypes.S fuel) qa j false next count) s Q.
Proof.
  intros Hnext Hcount Hrow Hq Hok Hcont. cbn [bfs_loop].
  apply runs_bind. eapply runs_get_row; [exact Hnext | exact Hrow |]. cbv beta iota.
  apply runs_bind. eexists tt, _. split; [reflexivity|].
  apply runs_bind. change (Z.to_nat 1) with 1%nat. cbn [push_adjacent].
  apply runs_bind. apply runs_ret. cbv beta.
  apply runs_bind. apply runs_liftq. cbn [qw rows libc_log].
  eapply runs_weaken;
    [apply (Level2Facts.queue_push_ok mf ff ainv Hsound (qw s) qa [] [] NULL d Hok Hq);
     simpl; unfold SIZE_MAX; lia|].
  intros b w1 (-> & p & q' & Hq1 & Hq' & Hok1). cbv beta. cbn [negb].
  rewrite (Hq' eq_refl) in Hq1. cbn [app] in Hq1.
  apply runs_ret. cbv beta iota.
  apply runs_bind. apply runs_liftq. cbn [qw rows libc_log].
  eapply runs_weaken;
    [apply (Level2Facts.queue_pop_ok mf ff ainv Hsound w1 qa p [] d [] NULL next Hok1 Hq1)|].
  intros r w2 (-> & Hq2 & Hok2). cbv beta. cbn [fst snd negb].
  rewrite wrap64_small by lia. apply Hcont; assumption.
Qed.

(** One turn of the loop at a node without a row, the queue being empty: the
    pop fails and the search stops. *)
Lemma bfs_dead_end s qa j next count q fuel (Q : loop_exit -> hstate A -> Prop) :
  0 <= next -> 0 <= count < SIZE_MAX ->
  rows s !! Z.to_nat next = Some None ->
  queue_at (qw s) qa [] [] q ->
  Q (Finished false (count + 1)) s ->
  runs (bfs_loop (Datatypes.S fuel) qa j false next count) s Q.
Proof.
  intros Hnext Hcount Hrow Hq HQ. cbn [bfs_loop].
  apply runs_bind. eapply runs_get_row; [exact Hnext | exact Hrow |]. cbv beta iota.
  apply runs_bind. apply runs_liftq.
  exists (false, next), (qw s). split; [now apply (Level2Facts.queue_pop_empty _ _ q)|].
  cbn [fst snd negb]. rewrite wrap64_small by lia. apply runs_ret.
  now destruct s.
Qed.

Lemma chain_graph_built (w : world A) log :
  add_edges libc_grants garbage chain_edges (mkH (empty_rows 4) log w)
  = Ret (tt, mkH [None;
                  Some (mkRow 1 (Some (2 :: replicate 15 garbage)) false);
                  Some (mkRow 1 (Some (3 :: replicate 15 garbage)) false);
                  Some (mkRow 1 (Some (4 :: replicate 15 garbage)) false);
                  None]
                 (log ++ [CMalloc sizeof_row; CMalloc (16 * sizeof_unsigned_int);
                          CMalloc sizeof_row; CMalloc (16 * sizeof_unsigned_int);
                          CMalloc sizeof_row; CMalloc (16 * sizeof_unsigned_int)])
                 w).
Proof.
  unfold chain_edges. cbn [add_edges].
  do 3 (erewrite bind_ret_inv;
        [|apply (add_edge_new libc_grants garbage Hgrants); [lia | reflexivity]]).
  cbn [rows libc_log qw]. rewrite <- !app_assoc. reflexivity.
Qed.

(** C3, as the code has it.  On the graph with exactly the edges 1->2, 2->3,
    3->4, under a sound registered allocator, [breadth_first_search(1, 4)]
    returns true and reports 3 nodes visited, and
    [breadth_first_search(4, 1)] returns false (reporting 1). *)
Theorem bfs_chain_graph (w : world A) log (fuel : nat) :
  ok w -> (3 <= fuel)%nat ->
  (exists s',
     (add_edges libc_grants garbage chain_edges ;;;
      breadth_first_search fuel 1 4) (mkH (empty_rows 4) log w)
     = Ret ((true, Some 3), s')) /\
  (exists s',
     (add_edges libc_grants garbage chain_edges ;;;
      breadth_first_search fuel 4 1) (mkH (empty_rows 4) log w)
     = Ret ((false, Some 1), s')).
Proof.
  intros Hok Hfuel.
  destruct fuel as [|[|[|fuel]]]; try lia.
  split.
  - rewrite (bind_ret_inv _ _ _ _ _ (chain_graph_built w log)).
    match goal with |- exists s', ?c ?s = Ret (?r, s') =>
      cut (runs c s (fun x _ => x = r)) end.
    { intros (x & s' & Hrun & ->). eauto. }
    unfold breadth_first_search.
    apply runs_bind. apply runs_liftq. cbn [qw rows libc_log].
    eapply runs_weaken; [apply (Level2Facts.queue_create_ok mf ff ainv Hsound w Hok)|].
    intros qa w1 (Hq1 & Hok1 & _). cbv beta.
    apply runs_bind.
    eapply bfs_visit_single; [lia | unfold SIZE_MAX; lia | reflexivity | exact Hq1 | exact Hok1 |].
    intros w2 Hq2 Hok2. cbn [insert list_insert Z.to_nat Pos.to_nat Pos.iter_op Nat.add].
    change (if 4 =? 2 then true else false) with false.
    eapply bfs_visit_single; [lia | unfold SIZE_MAX; lia | reflexivity | exact Hq2 | exact Hok2 |].
    intros w3 Hq3 Hok3.
    change (if 4 =? 3 then true else false) with false.
    eapply bfs_visit_single; [lia | unfold SIZE_MAX; lia | reflexivity | exact Hq3 | exact Hok3 |].
    intros w4 Hq4 Hok4.
    change (if 4 =? 4 then true else false) with true.
    replace (bfs_loop fuel qa 4 true 4 (0 + 1 + 1 + 1))
      with (ret (S := hstate A) (Finished true 3)) by (destruct fuel; reflexivity).
    apply runs_ret. cbv beta iota.
    apply runs_bind. apply runs_liftq. cbn [qw].
    eapply runs_weaken;
      [apply (Level2Facts.queue_delete_ok mf ff ainv Hsound w4 qa [] []
                (Datatypes.S (Datatypes.S (Datatypes.S fuel))) Hok4 Hq4); simpl; lia|].
    intros b w5 _. cbv beta. apply runs_ret. reflexivity.
  - rewrite (bind_ret_inv _ _ _ _ _ (chain_graph_built w log)).
    match goal with |- exists s', ?c ?s = Ret (?r, s') =>
      cut (runs c s (fun x _ => x = r)) end.
    { intros (x & s' & Hrun & ->). eauto. }
    unfold breadth_first_search.
    apply runs_bind. apply runs_liftq. cbn [qw rows libc_log].
    eapply runs_weaken; [apply (Level2Facts.queue_create_ok mf ff ainv Hsound w Hok)|].
    intros qa w1 (Hq1 & Hok1 & _). cbv beta.
    apply runs_bind.
    eapply bfs_dead_end; [lia | unfold SIZE_MAX; lia | reflexivity | exact Hq1 |].
    cbv beta iota.
    apply runs_bind. apply runs_liftq. cbn [qw].
    eapply runs_weaken;
      [apply (Level2Facts.queue_delete_ok mf ff ainv Hsound w1 qa [] []
                (Datatypes.S (Datatypes.S (Datatypes.S fuel))) Hok1 Hq1); simpl; lia|].
    intros b w5 _. cbv beta. apply runs_ret. reflexivity.
Qed.

End Bfs.
End HarnessFacts.

(** ** Level 1 *)

Module Level1Facts.
Import Level1Types Level1.

Section Rules.
Context {A : Type}.
Implicit Types (w : world A).

Lemma runs_load_list1 w p l Q :
  p <> NULL -> heap w !! p = Some (OList1 l) -> Q l w -> runs (load_list p) w Q.
Proof.
  intros Hp Hl HQ. apply runs_bind. eapply runs_load; eauto. now apply runs_ret.
Qed.

Lemma runs_set_head1 w p v l Q :
  p <> NULL -> heap w !! p = Some (OList1 l) ->
  Q tt (with_heap (<[p := OList1 (mkList v (size l))]> (heap w)) w) ->
  runs (set_head p v) w Q.
Proof.
  intros Hp Hl HQ. apply runs_bind. eapply runs_load_list1; eauto.
  eapply runs_store; eauto.
Qed.

Lemma runs_set_size1 w p v l Q :
  p <> NULL -> heap w !! p = Some (OList1 l) ->
  Q tt (with_heap (<[p := OList1 (mkList (head l) v)]> (heap w)) w) ->
  runs (set_size p v) w Q.
Proof.
  intros Hp Hl HQ. apply runs_bind. eapply runs_load_list1; eauto.
  eapply runs_store; eauto.
Qed.

Lemma runs_size1 w ll l Q :
  ll <> NULL -> heap w !! ll = Some (OList1 l) -> Q (size l) w ->
  runs (linked_list_size ll) w Q.
Proof.
  intros Hp Hl HQ. unfold linked_list_size. rewrite (eqb_NULL_false _ Hp).
  apply runs_bind. eapply runs_load_list1; eauto. now apply runs_ret.
Qed.

End Rules.

Ltac step :=
  first
  [ step0
  | lazymatch goal with
    | |- runs (load_list _) _ _ => eapply runs_load_list1; [solve_ne | hlookup | wsimpl]
    | |- runs (linked_list_size _) _ _ => eapply runs_size1; [solve_ne | hlookup | wsimpl]
    | |- runs (set_head _ _) _ _ => eapply runs_set_head1; [solve_ne | hlookup | wsimpl]
    | |- runs (set_size _ _) _ _ => eapply runs_set_size1; [solve_ne | hlookup | wsimpl]
    end ].

Ltac steps := repeat (step; cbv beta).

Section Sound.
Context {A : Type} (mf : malloc_fn A) (ff : free_fn A) (ainv : A -> gset Z -> Prop).
Hypothesis Hsound : sound_allocator mf ff ainv.
Implicit Types (w : world A).

Abbreviation ok := (world_ok mf ff ainv).

(** [linked_list_insert] at index [size]: the whole list is walked and the
    new node linked after the last one. *)
Lemma insert_last_ok w ll ps xs v :
  ok w -> list1_at w ll ps xs -> Z.of_nat (length xs) < SIZE_MAX ->
  runs (linked_list_insert ll (Z.of_nat (length xs)) v) w (fun b w' =>
    b = true /\ exists p,
      heap w !! p = None /\ list1_at w' ll (ps ++ [p]) (xs ++ [v]) /\ ok w').
Proof.
  intros Hok (Hll & Hnd & Hc & Hsz & Hl) Hlt.
  pose proof Hok as (Hmf & Hff & _).
  pose proof (chain_length _ _ _ _ Hc) as Hlen.
  assert (Hllps : ll ∉ ps).
  { eapply chain_not_header; [exact Hc|]. intros n0. rewrite Hl. discriminate. }
  assert (Hlldom : ll ∈ dom (heap w)) by (eapply in_dom_of_lookup; eauto).
  unfold linked_list_insert. rewrite (eqb_NULL_false _ Hll).
  step. step. step. step. cbv beta. rewrite Z.ltb_irrefl.
  step. step. step. rewrite Nat2Z.id.
  eapply runs_walk with (xs := xs); [exact Hc | lia |].
  rewrite <- Hlen, firstn_all, drop_all. cbn [hd fst snd].
  step. step. cbv beta. rewrite Hmf.
  step. apply runs_call_malloc. intros p a' Hm. cbv beta.
  destruct (world_ok_alloc _ _ _ Hsound w _ p a' (as_node p (uninit w)) Hok Hm)
    as (Hp & Hfresh & Hok1).
  assert (Hpll : p <> ll) by congruence.
  assert (Hpps : p ∉ ps) by (eapply chain_fresh; eauto).
  unfold as_node in *.
  assert (Hwrap : wrap64 (Z.of_nat (length xs) + 1) = Z.of_nat (length (xs ++ [v]))).
  { rewrite length_app. simpl length. rewrite wrap64_small; lia. }
  assert (Hnd' : NoDup (ps ++ [p])).
  { apply NoDup_app. split; [exact Hnd|]. split; [|apply NoDup_singleton].
    intros r Hr Hr'. apply list_elem_of_singleton in Hr'. subst r. contradiction. }
  assert (Hsz' : Z.of_nat (length (xs ++ [v])) <= SIZE_MAX)
    by (rewrite length_app; simpl length; lia).
  step. step. step. step. step. step. step. step.
  destruct ps as [|p0 ps0] eqn:Eps.
  - assert (xs = []) by (now apply (chain_nil_iff _ _ _ _ Hc)). subst xs.
    cbn [hd]. rewrite Z.eqb_refl. steps.
    split; [reflexivity|]. exists p. split; [exact Hfresh|]. split; [|solve_ok Hok1].
    split; [exact Hll|]. split; [exact Hnd'|]. split.
    { cbn. split; [exact Hp|]. split; [hlookup | exact I]. }
    split; [exact Hsz'|]. rewrite <- Hwrap. hlookup.
  - rewrite <- Eps in *.
    assert (Hp0 : hd NULL ps <> NULL).
    { subst ps. destruct xs; [simpl in Hc; tauto|]. simpl in Hc. cbn [hd]. tauto. }
    rewrite (eqb_NULL_false _ Hp0).
    destruct (last ps) as [t|] eqn:Et; [|apply last_None in Et; congruence].
    destruct (chain_last _ _ _ _ _ Hc Et) as (Ht & xt & Hxt).
    assert (Htps : t ∈ ps) by (now apply last_Some_elem_of).
    assert (Hpt : p <> t) by congruence.
    assert (Htll : t <> ll) by (intros ->; contradiction).
    assert (Htdom : t ∈ dom (heap w)) by (eapply in_dom_of_lookup; eauto).
    change (default NULL (Some t)) with t. rewrite (eqb_NULL_false _ Ht). cbn [negb].
    steps.
    split; [reflexivity|]. exists p. split; [exact Hfresh|]. split; [|solve_ok Hok1].
    split; [exact Hll|]. split; [exact Hnd'|]. split.
    { apply chain_ext with
        (h := <[t := ONode (mkNode (data (mkNode xt NULL)) p)]>
                (<[p := ONode (mkNode v NULL)]> (heap w))).
      - apply chain_snoc; [|exact Hp|hlookup].
        apply chain_set_last with (q := NULL); [|exact Hnd|exact Et|hlookup].
        apply chain_insert_other; [assumption|]. exact Hc.
      - intros r Hr. assert (r <> ll).
        { intros ->. apply elem_of_app in Hr as [Hr|Hr]; [contradiction|].
          apply list_elem_of_singleton in Hr. congruence. }
        wsimpl. rewrite (lookup_insert_ne _ ll r) by solve_ne.
        now rewrite !insert_insert_eq. }
    split; [exact Hsz'|]. rewrite <- Hwrap.
    replace (hd NULL (ps ++ [p])) with (hd NULL ps)
      by (subst ps; reflexivity).
    hlookup.
Qed.

Lemma insert_end1_ok w ll ps xs v :
  ok w -> list1_at w ll ps xs -> Z.of_nat (length xs) < SIZE_MAX ->
  runs (linked_list_insert_end ll v) w (fun b w' =>
    b = true /\ exists p,
      heap w !! p = None /\ list1_at w' ll (ps ++ [p]) (xs ++ [v]) /\ ok w').
Proof.
  intros Hok Hat Hlt. pose proof Hat as (Hll & _ & _ & _ & Hl).
  unfold linked_list_insert_end. rewrite (eqb_NULL_false _ Hll). cbn [negb].
  step. step. cbv beta. now apply insert_last_ok.
Qed.

Lemma insert_end_then_find1_ok w ll ps xs v fuel :
  ok w -> list1_at w ll ps xs -> v ∉ xs ->
  Z.of_nat (length xs) < SIZE_MAX -> (length xs < fuel)%nat ->
  runs (insert_end_then_find fuel ll v) w (fun r _ =>
    r = (Z.of_nat (length xs), true, Z.of_nat (length xs))).
Proof.
  intros Hok Hat Hv Hlt Hf. pose proof Hat as (Hll & _ & _ & _ & Hl).
  unfold insert_end_then_find. step. step. step.
  eapply runs_weaken; [apply (insert_end1_ok w ll ps xs v Hok Hat Hlt)|].
  intros b w1 (-> & p & _ & Hat1 & _). cbv beta.
  destruct Hat1 as (_ & _ & Hc1 & _ & Hl1).
  destruct (Level2Facts.first_at_end xs v Hv) as (Hk & Hfirst).
  step. unfold linked_list_find. rewrite (eqb_NULL_false _ Hll). step. step.
  eapply runs_find_loop with (k := length xs); eauto; try lia.
  cbv beta. step. rewrite Z.add_0_l. reflexivity.
Qed.

(** What [linked_list_size] does, whatever the heap holds. *)
Lemma size1_cases w ll :
  (ll = NULL /\ linked_list_size ll w = Ret (SIZE_MAX, w)) \/
  (ll <> NULL /\ exists l, heap w !! ll = Some (OList1 l) /\
                            linked_list_size ll w = Ret (size l, w)) \/
  (ll <> NULL /\ exists f, linked_list_size ll w = Stop f).
Proof.
  destruct (Z.eq_dec ll NULL) as [->|Hne]; [left; auto|]. right.
  unfold linked_list_size, load_list, load, bind. rewrite (eqb_NULL_false _ Hne).
  destruct (heap w !! ll) as [[n|it|l|l2|qq]|] eqn:E;
    try (right; split; [exact Hne | eexists; reflexivity]).
  left. split; [exact Hne|]. exists l. split; reflexivity.
Qed.



(** [linked_list_create_iterator] on a null list or at an index that is not
    inside the list: the absent result, nothing touched. *)
Lemma create_iterator1_out_of_range w ll index :
  ll = NULL \/ (exists l, heap w !! ll = Some (OList1 l) /\ size l <= index) ->
  linked_list_create_iterator ll index w = Ret (NULL, w).
Proof.
  intros [-> | (l & Hl & Hge)]; [reflexivity|].
  unfold linked_list_create_iterator.
  destruct (size1_cases w ll) as [(-> & Hs) | [(Hne & l' & Hl' & Hs) | (Hne & f & Hs)]];
    [reflexivity | |].
  - rewrite Hl in Hl'. injection Hl' as <-. rewrite (eqb_NULL_false _ Hne).
    erewrite bind_ret_inv; [|rewrite (bind_ret_inv _ _ _ _ _ Hs); reflexivity].
    replace (size l <=? index) with true by (symmetry; apply Z.leb_le; lia).
    reflexivity.
  - unfold linked_list_size, load_list, load, bind in Hs.
    rewrite (eqb_NULL_false _ Hne), Hl in Hs. discriminate.
Qed.

(** [linked_list_create] when a function reference is missing. *)
Lemma create_unregistered w :
  malloc_fptr w = None \/ free_fptr w = None ->
  linked_list_create w = Ret (NULL, w).
Proof.
  intros H. unfold linked_list_create. rewrite bind_get.
  destruct H as [-> | ->]; [reflexivity|]. now destruct (malloc_fptr w).
Qed.

(** [linked_list_create_iterator] at an index [i > 0] inside the list: the
    iterator carries the index [i] but the node and data of position
    [i - 1]. *)
Lemma create_iterator_behind w ll ps xs (k : nat) pk xk :
  ok w -> list1_at w ll ps xs ->
  (Datatypes.S k < length xs)%nat -> ps !! k = Some pk -> xs !! k = Some xk ->
  runs (linked_list_create_iterator ll (Z.of_nat (Datatypes.S k))) w (fun it w' =>
    it <> NULL /\
    heap w' !! it = Some (OIter (mkIterator ll pk (Z.of_nat (Datatypes.S k)) xk))).
Proof.
  intros Hok (Hll & Hnd & Hc & Hsz & Hl) Hk Hpk Hxk.
  pose proof Hok as (Hmf & Hff & _).
  pose proof (chain_length _ _ _ _ Hc) as Hlen.
  destruct (chain_lookup_index _ _ _ _ _ _ _ Hc Hpk Hxk) as (Hpkn & Hpkl).
  assert (Hpkps : pk ∈ ps) by (eapply list_elem_of_lookup_2; eauto).
  unfold linked_list_create_iterator. rewrite (eqb_NULL_false _ Hll).
  step. step. step. step. cbv beta.
  replace (Z.of_nat (length xs) <=? Z.of_nat (Datatypes.S k)) with false
    by (symmetry; apply Z.leb_gt; lia).
  step. step. cbv beta. rewrite Hmf.
  step. apply runs_call_malloc. intros it a' Hm. cbv beta.
  destruct (world_ok_alloc _ _ _ Hsound w _ it a' (as_iterator it (uninit w)) Hok Hm)
    as (Hit & Hfresh & Hok1).
  assert (Hitll : it <> ll) by congruence.
  assert (Hitps : it ∉ ps) by (eapply chain_fresh; eauto).
  assert (Hitpk : it <> pk) by (intros ->; contradiction).
  unfold as_iterator. steps.
  replace (Z.of_nat (Datatypes.S k) =? 0) with false by (symmetry; apply Z.eqb_neq; lia).
  steps. rewrite Nat2Z.id.
  eapply runs_walk with (xs := xs).
  { wsimpl. repeat (apply chain_insert_other; [exact Hitps|]). exact Hc. }
  { lia. }
  rewrite (last_take_lookup _ _ _ Hpk). change (default NULL (Some pk)) with pk.
  cbn [fst]. steps. split; [exact Hit | hlookup].
Qed.

End Sound.
End Level1Facts.

(** * The specification's properties, by number *)

Local Open Scope cmd_scope.

(** ** Concrete worlds *)

Lemma endless_inv_below (a : Z) (h : gmap Z obj) :
  0 < a -> (forall p, is_Some (h !! p) -> p < a) -> endless_inv a (dom h).
Proof.
  intros Ha Hb. split; [exact Ha|]. intros p Hp. apply Hb. now apply elem_of_dom.
Qed.

Example registration_boots (m : malloc_fn Z) (f : free_fn Z) :
  (Level2.queue_register_malloc (Some m) ;;; Level2.queue_register_free (Some f))
    (boot 4096)
  = Ret (true, boot_queue 4096 m f).
Proof. reflexivity. Qed.

Lemma boot_queue_ok :
  world_ok endless_malloc endless_free endless_inv
           (boot_queue 4096 endless_malloc endless_free).
Proof.
  unfold world_ok. do 4 (split; [reflexivity|]).
  apply endless_inv_below; [reflexivity|]. intros p [o Hp]. cbn in Hp.
  rewrite lookup_empty in Hp. discriminate.
Qed.

Ltac below_4288 :=
  let p := fresh "p" in let o := fresh "o" in let Hp := fresh "Hp" in
  intros p [o Hp]; cbn [heap list1_world list2_world] in Hp;
  repeat (rewrite lookup_insert in Hp; case_decide; [subst; reflexivity|]);
  rewrite lookup_empty in Hp; discriminate.

Lemma list1_world_ok : world_ok endless_malloc endless_free endless_inv list1_world.
Proof.
  unfold world_ok. do 4 (split; [reflexivity|]).
  apply endless_inv_below; [reflexivity | below_4288].
Qed.

Lemma list2_world_ok : world_ok endless_malloc endless_free endless_inv list2_world.
Proof.
  unfold world_ok. do 4 (split; [reflexivity|]).
  apply endless_inv_below; [reflexivity | below_4288].
Qed.

Example list1_world_built :
  (l <- Level1.linked_list_create ;;
   Level1.linked_list_insert_end l 10 ;;;
   Level1.linked_list_insert_end l 20)
    (boot_queue 4096 endless_malloc endless_free)
  = Ret (true, list1_world).
Proof. vm_compute. reflexivity. Qed.

Example list2_world_built :
  (l <- Level2.linked_list_create ;;
   Level2.linked_list_insert_end l 10 ;;;
   Level2.linked_list_insert_end l 20)
    (boot_queue 4096 endless_malloc endless_free)
  = Ret (true, list2_world).
Proof. vm_compute. reflexivity. Qed.

Lemma nodup_two : NoDup [4160; 4224].
Proof.
  apply NoDup_cons. split.
  - intros H. apply list_elem_of_singleton in H. discriminate.
  - apply NoDup_singleton.
Qed.

Lemma list1_world_at : list1_at list1_world 4096 [4160; 4224] [10; 20].
Proof.
  split; [discriminate|]. split; [exact nodup_two|]. split.
  { cbn. repeat split; discriminate. }
  split; [discriminate | reflexivity].
Qed.

Lemma list2_world_at : list2_at list2_world 4096 [4160; 4224] [10; 20] 57005.
Proof.
  split; [discriminate|]. split; [exact nodup_two|]. split.
  { cbn. repeat split; discriminate. }
  split; [discriminate|]. exists 4224. split; [reflexivity|].
  intros p [= <-]. reflexivity.
Qed.

(** ** C2 *)

Import Level2Types.

(** C2 (code defect, evaluated).  Level 2, with [endless_malloc] registered
    and memory that is not zeroed.  (a) [create; insert_front 1; remove 0]
    leaves [size = 0] and [head = NULL] but [tail = 4160], the address of
    the node just released: [tail] is not reset when the last node goes.
    (b) [create; insert_end 1; insert_end 2] leaves the tail node's [next]
    holding the uninitialised word 57005, not [NULL]: the append branch never
    stores to [new_node->next]. *)
Theorem list2_invariant_broken :
  match (l <- Level2.linked_list_create ;;
         Level2.linked_list_insert_front l 1 ;;;
         Level2.linked_list_remove l 0 ;;;
         Level2.load_list l)
          (boot_list 4096 endless_malloc endless_free) with
  | Ret (hdr, _) => hdr = mkList NULL 4160 0 /\ tail hdr <> NULL /\ size hdr = 0
  | Stop _ => False
  end /\
  match (l <- Level2.linked_list_create ;;
         Level2.linked_list_insert_end l 1 ;;;
         Level2.linked_list_insert_end l 2 ;;;
         hdr <- Level2.load_list l ;;
         tn <- load_node (tail hdr) ;;
         ret (hdr, tn))
          (boot_list 4096 endless_malloc endless_free) with
  | Ret ((hdr, tn), _) =>
      hdr = mkList 4160 4224 2 /\ tn = mkNode 2 57005 /\ next tn <> NULL
  | Stop _ => False
  end.
Proof.
  split; vm_compute; repeat split; discriminate.
Qed.

(** ** C3 *)

(** C3 (counterexample).  On the graph 1->2, 2->3, 3->4 the search from 1 to
    4 succeeds and reports 3 nodes visited, not 4. *)
Lemma bfs_count_is_three_not_four :
  match (Harness.add_edges Harness.always_grants 0 Harness.chain_edges ;;;
         Harness.breadth_first_search 8 1 4) harness_boot with
  | Ret ((found, Some n), _) => found = true /\ n = 3 /\ n <> 4
  | _ => False
  end.
Proof. vm_compute. repeat split; discriminate. Qed.

Lemma bfs_chain_graph_witness :
  (exists s',
     (Harness.add_edges Harness.always_grants 0 Harness.chain_edges ;;;
      Harness.breadth_first_search 8 1 4) harness_boot = Ret ((true, Some 3), s')) /\
  (exists s',
     (Harness.add_edges Harness.always_grants 0 Harness.chain_edges ;;;
      Harness.breadth_first_search 8 4 1) harness_boot = Ret ((false, Some 1), s')).
Proof.
  apply (HarnessFacts.bfs_chain_graph endless_malloc endless_free endless_inv
           endless_sound Harness.always_grants 0 (fun _ _ => eq_refl)
           (boot_queue 4096 endless_malloc endless_free) [] 8%nat).
  - exact boot_queue_ok.
  - lia.
Defined.

(** With the allocator exactly as [main] wires it, no allocation succeeds:
    [queue_create] returns [NULL], the first push fails and the search from
    1 to 4 leaves through its error return (value 1, nothing printed); the
    search from 4 to 1 returns false. *)
Example bfs_as_wired_in_main :
  match (Harness.add_edges Harness.always_grants 0 Harness.chain_edges ;;;
         Harness.breadth_first_search 8 1 4) harness_as_wired with
  | Ret (r, _) => r = (true, None)
  | Stop _ => False
  end /\
  match (Harness.add_edges Harness.always_grants 0 Harness.chain_edges ;;;
         Harness.breadth_first_search 8 4 1) harness_as_wired with
  | Ret (r, _) => r = (false, Some 1)
  | Stop _ => False
  end.
Proof. split; vm_compute; reflexivity. Qed.

(** ** C4 *)

(** C4 (code defect, evaluated).  Level 1, list [10; 20] built with
    [insert_end]: [create_iterator(list, 1)] returns an iterator whose
    [current_index] is 1 but whose node is the one at index 0 (address 4160)
    and whose cached data is 10, while the element at index 1 is 20 (at
    4224).  The walk hands back [prev], one node short.  Level 2 on the same
    list gives node 4224 and data 20. *)
Theorem iterator_level1_off_by_one :
  match (l <- Level1.linked_list_create ;;
         Level1.linked_list_insert_end l 10 ;;;
         Level1.linked_list_insert_end l 20 ;;;
         it <- Level1.linked_list_create_iterator l 1 ;;
         load_iter it)
          (boot_list 4096 endless_malloc endless_free) with
  | Ret (it, _) => it = mkIterator 4096 4160 1 10 /\ it_data it <> 20
  | Stop _ => False
  end /\
  match (l <- Level2.linked_list_create ;;
         Level2.linked_list_insert_end l 10 ;;;
         Level2.linked_list_insert_end l 20 ;;;
         it <- Level2.linked_list_create_iterator l 1 ;;
         load_iter it)
          (boot_list 4096 endless_malloc endless_free) with
  | Ret (it, _) => it = mkIterator 4096 4224 1 20
  | Stop _ => False
  end.
Proof.
  split; vm_compute; repeat split; discriminate.
Qed.

(** ** C5 *)

(** C5 (code defect, evaluated).  With an allocator that serves one request
    and then returns [NULL], [queue_create] gets its header at 4096, the
    list creation fails, and [queue_create] still returns 4096, a queue
    whose list pointer is [NULL]. *)
Theorem queue_create_keeps_header :
  match (q <- Level2.queue_create ;;
         hdr <- Level2.load_queue q ;;
         ret (q, hdr))
          (boot_queue (4096, 1%nat) limited_malloc limited_free) with
  | Ret ((q, hdr), _) => q = 4096 /\ q <> NULL /\ hdr = mkQueue NULL
  | Stop _ => False
  end.
Proof. vm_compute. repeat split; discriminate. Qed.

(** ** C6 *)

(** C6 (code defect, evaluated).  Level 2 [linked_list_create] does not look
    at the function references: with nothing registered it calls through
    the null [malloc_fptr]; with only [malloc] registered it returns a list
    (at 4096) although [free_fptr] is unset.  Level 1 returns [NULL] in both
    cases. *)
Theorem create_level2_unchecked :
  Level2.linked_list_create (boot (A := Z) 4096) = Stop NullCall /\
  match Level2.linked_list_create (boot_malloc_only 4096 endless_malloc) with
  | Ret (l, _) => l = 4096 /\ l <> NULL
  | Stop _ => False
  end /\
  Level1.linked_list_create (boot (A := Z) 4096) = Ret (NULL, boot 4096) /\
  Level1.linked_list_create (boot_malloc_only 4096 endless_malloc)
    = Ret (NULL, boot_malloc_only 4096 endless_malloc).
Proof.
  split; [reflexivity|].
  split; [vm_compute; split; [reflexivity | discriminate]|].
  split; reflexivity.
Qed.

(** ** C8 *)

(** C8 (counterexample).  A list holding [5], in either variant:
    [insert_end(list, 5)] succeeds, the size before it was 1, and [find]
    then returns 0, the index of the first 5. *)
Lemma insert_end_find_duplicate :
  match (l <- Level1.linked_list_create ;;
         Level1.linked_list_insert_end l 5 ;;;
         Level1.insert_end_then_find 8 l 5)
          (boot_list 4096 endless_malloc endless_free) with
  | Ret ((sz, inserted, i), _) => sz = 1 /\ inserted = true /\ i = 0 /\ i <> sz
  | Stop _ => False
  end /\
  match (l <- Level2.linked_list_create ;;
         Level2.linked_list_insert_end l 5 ;;;
         Level2.insert_end_then_find 8 l 5)
          (boot_list 4096 endless_malloc endless_free) with
  | Ret ((sz, inserted, i), _) => sz = 1 /\ inserted = true /\ i = 0 /\ i <> sz
  | Stop _ => False
  end.
Proof. split; vm_compute; repeat split; discriminate. Qed.

Section BothLevels.
Context {A : Type} (mf : malloc_fn A) (ff : free_fn A) (ainv : A -> gset Z -> Prop).
Hypothesis Hsound : sound_allocator mf ff ainv.

(** C8, as the code has it.  For a well-formed list of either variant, a
    sound registered allocator and a value that does NOT already occur in
    the list, [insert_end(list, value)] succeeds and [find(list, value)]
    then returns the size the list had before the insertion. *)
Theorem insert_end_then_find_fresh :
  (forall (w : world A) ll ps xs v fuel,
     world_ok mf ff ainv w -> list1_at w ll ps xs -> v ∉ xs ->
     Z.of_nat (length xs) < SIZE_MAX -> (length xs < fuel)%nat ->
     exists w', Level1.insert_end_then_find fuel ll v w
                = Ret ((Z.of_nat (length xs), true, Z.of_nat (length xs)), w')) /\
  (forall (w : world A) ll ps xs q v fuel,
     world_ok mf ff ainv w -> list2_at w ll ps xs q -> v ∉ xs ->
     Z.of_nat (length xs) < SIZE_MAX -> (length xs < fuel)%nat ->
     exists w', Level2.insert_end_then_find fuel ll v w
                = Ret ((Z.of_nat (length xs), true, Z.of_nat (length xs)), w')).
Proof.
  split.
  - intros w ll ps xs v fuel Hok Hat Hv Hlt Hf.
    destruct (Level1Facts.insert_end_then_find1_ok mf ff ainv Hsound
                w ll ps xs v fuel Hok Hat Hv Hlt Hf) as (r & w' & Hrun & ->).
    eauto.
  - intros w ll ps xs q v fuel Hok Hat Hv Hlt Hf.
    destruct (Level2Facts.insert_end_then_find_ok mf ff ainv Hsound
                w ll ps xs q v fuel Hok Hat Hv Hlt Hf) as (r & w' & Hrun & ->).
    eauto.
Qed.

End BothLevels.

Lemma thirty_is_new : 30 ∉ [10; 20].
Proof.
  intros H. apply elem_of_cons in H as [H|H]; [discriminate|].
  apply list_elem_of_singleton in H. discriminate.
Qed.

Lemma insert_end_then_find_fresh_witness :
  (exists w', Level1.insert_end_then_find 8 4096 30 list1_world
              = Ret ((2, true, 2), w')) /\
  (exists w', Level2.insert_end_then_find 8 4096 30 list2_world
              = Ret ((2, true, 2), w')).
Proof.
  destruct (insert_end_then_find_fresh endless_malloc endless_free endless_inv
              endless_sound) as [H1 H2].
  split.
  - apply (H1 list1_world 4096 [4160; 4224] [10; 20] 30 8%nat).
    + exact list1_world_ok.
    + exact list1_world_at.
    + exact thirty_is_new.
    + reflexivity.
    + simpl. lia.
  - apply (H2 list2_world 4096 [4160; 4224] [10; 20] 57005 30 8%nat).
    + exact list2_world_ok.
    + exact list2_world_at.
    + exact thirty_is_new.
    + reflexivity.
    + simpl. lia.
Defined.

(** ** C9 at seventeen concrete destinations *)

Lemma add_edge_seventeen_witness :
  exists cells s17,
    Harness.add_edges Harness.always_grants 0 (map (pair 2) seventeen) harness_boot
      = Ret (tt, s17) /\
    Harness.rows s17 !! Z.to_nat 2
      = Some (Some (Harness.mkRow 17 (Some cells) false)) /\
    take 17 cells = seventeen /\ length cells = 32%nat /\
    Harness.libc_log s17
      = Harness.libc_log harness_boot
          ++ [Harness.CMalloc Harness.sizeof_row;
              Harness.CMalloc (16 * Harness.sizeof_unsigned_int);
              Harness.CRealloc (32 * Harness.sizeof_unsigned_int)].
Proof.
  destruct (HarnessFacts.add_edge_seventeen (A := Z) Harness.always_grants 0
              (fun _ _ => eq_refl) harness_boot 2 seventeen) as [H _].
  - lia.
  - reflexivity.
  - reflexivity.
  - exact H.
Defined.

(** ** C10 *)




(** * Further properties of the code *)

(** ** The slab and the bump-pointer allocator *)

Module BumpPtrMore.
Import BumpPtr BumpPtrFacts.

Lemma land_clear3 x :
  0 <= x < 2 ^ 64 -> Z.land x (wrap64 (Z.lnot 7)) = 8 * (x / 8).
Proof.
  intros Hx.
  assert (E : wrap64 (Z.lnot 7) = Z.land (Z.lnot 7) (Z.ones 64)).
  { unfold wrap64. now rewrite Z.land_ones by lia. }
  rewrite E, (Z.land_comm (Z.lnot 7)), Z.land_assoc.
  rewrite (Z.land_ones x 64) by lia. rewrite (Z.mod_small x) by lia.
  change 7 with (Z.ones 3). rewrite <- Z.ldiff_land, Z.ldiff_ones_r by lia.
  rewrite Z.shiftr_div_pow2, Z.shiftl_mul_pow2 by lia.
  change (2 ^ 3) with 8. lia.
Qed.

Lemma align_to_8 p :
  0 <= p <= 2 ^ 64 - 8 -> align_to p 8 = 8 * ((p + 7) / 8).
Proof.
  intros Hp. unfold align_to. replace (p + 8 - 1) with (p + 7) by lia.
  change (8 - 1) with 7.
  rewrite (wrap64_small (p + 7)) by (unfold SIZE_MAX; lia).
  apply land_clear3. lia.
Qed.

(** The aligned pointer is at or after the pointer, less than 8 bytes
    further. *)
Lemma align_to_8_bounds p :
  0 <= p <= 2 ^ 64 - 8 ->
  (align_to p 8) mod 8 = 0 /\ p <= align_to p 8 < p + 8.
Proof.
  intros Hp. rewrite (align_to_8 p Hp).
  pose proof (Z.div_mod (p + 7) 8 ltac:(lia)) as D.
  pose proof (Z.mod_pos_bound (p + 7) 8 ltac:(lia)) as B.
  split; [|lia]. rewrite Z.mul_comm. apply Z.mod_mul. lia.
Qed.

(** X1.  [align_to(ptr, 8)] for a pointer that leaves room below [2 ^ 64]:
    the result is a multiple of 8, at or after [ptr], less than 8 bytes
    further; an aligned pointer is returned as it is. *)
Theorem align_to_rounds_up p :
  0 <= p <= 2 ^ 64 - 8 ->
  (align_to p 8) mod 8 = 0 /\
  p <= align_to p 8 < p + 8 /\
  (p mod 8 = 0 -> align_to p 8 = p).
Proof.
  intros Hp. rewrite (align_to_8 p Hp).
  pose proof (Z.div_mod (p + 7) 8 ltac:(lia)) as D.
  pose proof (Z.mod_pos_bound (p + 7) 8 ltac:(lia)) as B.
  split; [|split].
  - rewrite Z.mul_comm. apply Z.mod_mul. lia.
  - lia.
  - intros Hm. pose proof (Z.div_mod p 8 ltac:(lia)) as Dp. rewrite Hm in Dp.
    replace (p + 7) with (7 + (p / 8) * 8) by lia.
    rewrite Z.div_add by lia. change (7 / 8) with 0. lia.
Qed.

Lemma align_to_rounds_up_witness :
  (align_to 4099 8) mod 8 = 0 /\
  4099 <= align_to 4099 8 < 4099 + 8 /\
  (4099 mod 8 = 0 -> align_to 4099 8 = 4099).
Proof. apply (align_to_rounds_up 4099). lia. Defined.

Section Runs.
Variable libc_malloc : nat -> Z -> Z.

(** A request the active slab can serve is served there, at the aligned
    cursor. *)
Lemma bump_malloc_in_place (s : bstate) (sl : slab) size :
  let a := allocator s in
  0 <= slab_ptr a -> slabs a !! Z.to_nat (slab_ptr a) = Some sl ->
  0 < curr sl <= end_ sl -> end_ sl < 2 ^ 62 -> 0 <= size < 2 ^ 62 ->
  align_to (curr sl) 8 + size <= end_ sl ->
  custom_malloc libc_malloc size s
  = Ret (align_to (curr sl) 8,
         with_slab (slab_ptr a)
           (mkSlab (data sl) (align_to (curr sl) 8 + size) (end_ sl) (alloc_size sl)) s).
Proof.
  intros a Hsp Hsl Hcurr Hend Hsize Hfit.
  destruct (align_to_8_bounds (curr sl) ltac:(lia)) as (_ & Hal).
  assert (Hw : wrap64 (align_to (curr sl) 8 + size) = align_to (curr sl) 8 + size)
    by (apply wrap64_small; unfold SIZE_MAX; lia).
  unfold custom_malloc, bump_ptr_allocator_malloc. rewrite bind_get.
  erewrite bind_ret_inv; [|apply (slab_malloc_fits s _ sl size Hsp Hsl); rewrite Hw; lia].
  destruct (align_to (curr sl) 8 =? NULL) eqn:E; [apply Z.eqb_eq in E; unfold NULL in E; lia|].
  cbn [negb]. rewrite Hw. reflexivity.
Qed.


(** X3.  A run of requests served by one slab.  When the slab has room for
    every size rounded up by the 7 bytes alignment can cost, [malloc_all]
    returns one pointer per request, each a multiple of 8, the blocks lying
    one after the other inside the slab (so no two overlap), and the C
    library is not called. *)
Theorem malloc_all_in_order (sizes : list Z) (s : bstate) (sl : slab) :
  let a := allocator s in
  0 <= slab_ptr a -> slabs a !! Z.to_nat (slab_ptr a) = Some sl ->
  0 < curr sl -> end_ sl < 2 ^ 62 ->
  Forall (fun n => 0 <= n) sizes ->
  curr sl + room_needed sizes <= end_ sl ->
  exists ps s',
    malloc_all libc_malloc sizes s = Ret (ps, s') /\
    regions_in_order (curr sl) (end_ sl) ps sizes /\
    Forall (fun p => p mod 8 = 0) ps /\
    libc_calls s' = libc_calls s /\
    slab_ptr (allocator s') = slab_ptr a.
Proof.
  cbv zeta. revert s sl.
  induction sizes as [|n ns IH]; intros s sl Hsp Hsl Hcurr Hend Hns Hsum.
  - exists [], s. cbn [room_needed] in Hsum. simpl. repeat split; auto; lia.
  - apply Forall_cons in Hns as [Hn Hns]. cbn [room_needed] in Hsum.
    assert (Hrest : 0 <= room_needed ns).
    { clear -Hns. induction Hns; cbn [room_needed]; lia. }
    destruct (align_to_8_bounds (curr sl) ltac:(lia)) as (Hmod & Hal).
    assert (Hlen : (Z.to_nat (slab_ptr (allocator s)) < length (slabs (allocator s)))%nat)
      by (eapply lookup_lt_Some; eassumption).
    cbn [malloc_all].
    erewrite bind_ret_inv;
      [|apply (bump_malloc_in_place s sl n Hsp Hsl); lia].
    set (s1 := with_slab _ _ s).
    destruct (IH s1 (mkSlab (data sl) (align_to (curr sl) 8 + n) (end_ sl) (alloc_size sl)))
      as (ps & s' & Hrun & Hord & Hal8 & Hcalls & Hptr).
    + exact Hsp.
    + unfold s1. cbn [with_slab allocator slabs slab_ptr].
      now apply list_lookup_insert_eq.
    + cbn [curr]. lia.
    + exact Hend.
    + exact Hns.
    + cbn [curr end_]. lia.
    + exists (align_to (curr sl) 8 :: ps), s'.
      rewrite (bind_ret_inv _ _ _ _ _ Hrun). cbn [curr end_] in Hord.
      split; [reflexivity|]. split; [simpl; split; [lia | exact Hord]|].
      split; [constructor; assumption|]. split; [exact Hcalls | exact Hptr].
Qed.

(** [slab_init] calls the C library once and fills the slot according to
    the answer. *)
Lemma slab_init_result (s : bstate) i (sl : slab) asz :
  0 <= i -> slabs (allocator s) !! Z.to_nat i = Some sl ->
  let d := libc_malloc (libc_calls s) asz in
  slab_init libc_malloc i asz s
  = Ret (negb (d =? NULL),
         with_slab i (if d =? NULL then mkSlab d (curr sl) (end_ sl) (alloc_size sl)
                      else mkSlab d d (wrap64 (d + asz)) asz)
           (mkBstate (allocator s) (Datatypes.S (libc_calls s)))).
Proof.
  intros Hi Hsl d. unfold slab_init.
  rewrite (bind_ret_inv _ _ _ _ _ (get_slab_ok s i sl Hi Hsl)).
  unfold bind at 1, malloc. fold d. destruct (d =? NULL); reflexivity.
Qed.

(** What [bump_ptr_allocator_init] leaves behind on an instance that was not
    initialised: the C library is called once, and the instance is marked
    initialised with a slab size of 4096 bytes whether or not the library
    granted the slab. *)
Lemma init_marks (s : bstate) (sl : slab) :
  initialized (allocator s) = false ->
  slabs (allocator s) !! 0%nat = Some sl ->
  exists b s1,
    bump_ptr_allocator_init libc_malloc s = Ret (b, s1) /\
    b = negb (libc_malloc (libc_calls s) DEFAULT_ALLOC_SIZE_BYTES =? NULL) /\
    initialized (allocator s1) = true /\
    slab_ptr (allocator s1) = 0 /\
    last_alloc_size (allocator s1) = DEFAULT_ALLOC_SIZE_BYTES /\
    libc_calls s1 = Datatypes.S (libc_calls s) /\
    length (slabs (allocator s1)) = length (slabs (allocator s)).
Proof.
  intros Hini Hsl. unfold bump_ptr_allocator_init. rewrite bind_get, Hini.
  unfold bind at 1, set_bookkeeping.
  erewrite bind_ret_inv; [|apply (slab_init_result _ 0 sl); [lia | exact Hsl]].
  cbn [libc_calls with_bookkeeping allocator].
  destruct (libc_malloc (libc_calls s) DEFAULT_ALLOC_SIZE_BYTES =? NULL);
    cbn [negb]; (eexists _, _; split; [reflexivity|]);
    cbn [with_slab allocator initialized slab_ptr last_alloc_size libc_calls slabs];
    rewrite length_insert; auto 10.
Qed.

(** X4.  Initialising an instance twice ends the process with status -1,
    also when the first initialisation failed because the C library refused
    the slab. *)
Theorem init_twice_exits (s : bstate) (sl : slab) :
  initialized (allocator s) = false ->
  slabs (allocator s) !! 0%nat = Some sl ->
  (bump_ptr_allocator_init libc_malloc ;;; bump_ptr_allocator_init libc_malloc) s
  = Stop (Exit (-1)).
Proof.
  intros Hini Hsl.
  destruct (init_marks s sl Hini Hsl) as (b & s1 & Hrun & _ & Hini1 & _).
  rewrite (bind_ret_inv _ _ _ _ _ Hrun).
  unfold bump_ptr_allocator_init. rewrite bind_get, Hini1. reflexivity.
Qed.

(** X5.  [bump_ptr_setup] on a fresh instance calls the C library once and
    marks the instance initialised, whether or not the slab was granted; a
    second [bump_ptr_setup] changes nothing and does not call the
    library. *)
Theorem setup_once (s : bstate) (sl : slab) :
  initialized (allocator s) = false ->
  slabs (allocator s) !! 0%nat = Some sl ->
  exists s1,
    bump_ptr_setup libc_malloc s = Ret (tt, s1) /\
    initialized (allocator s1) = true /\
    libc_calls s1 = Datatypes.S (libc_calls s) /\
    bump_ptr_setup libc_malloc s1 = Ret (tt, s1).
Proof.
  intros Hini Hsl.
  destruct (init_marks s sl Hini Hsl) as (b & s1 & Hrun & _ & Hini1 & _ & _ & Hcalls & _).
  exists s1. unfold bump_ptr_setup. rewrite !bind_get, Hini, Hini1. cbn [negb].
  rewrite (bind_ret_inv _ _ _ _ _ Hrun). auto.
Qed.






(** X8.  A request that neither the active slab nor a slab of twice the
    last size can hold returns [NULL], and yet the call has taken the next
    slab slot, doubled the slab size and obtained the new block from the C
    library, which stays unused in the slab. *)
Theorem growth_too_small (s : bstate) (sl nsl : slab) size :
  let a := allocator s in
  let las := last_alloc_size a * 2 in
  let d := libc_malloc (libc_calls s) las in
  0 <= slab_ptr a -> slabs a !! Z.to_nat (slab_ptr a) = Some sl ->
  0 < curr sl <= end_ sl -> end_ sl < 2 ^ 62 -> 0 <= size < 2 ^ 62 ->
  end_ sl < align_to (curr sl) 8 + size ->
  slab_ptr a + 1 < DEFAULT_NUM_SLABS ->
  slabs a !! Z.to_nat (slab_ptr a + 1) = Some nsl ->
  0 <= las < 2 ^ 62 -> 0 < d < 2 ^ 62 ->
  d + las < align_to d 8 + size ->
  exists s',
    custom_malloc libc_malloc size s = Ret (NULL, s') /\
    slab_ptr (allocator s') = slab_ptr a + 1 /\
    last_alloc_size (allocator s') = las /\
    libc_calls s' = Datatypes.S (libc_calls s) /\
    slabs (allocator s') !! Z.to_nat (slab_ptr a + 1) = Some (mkSlab d d (d + las) las).
Proof.
  intros a las d Hsp Hsl Hcurr Hend Hsize Hfull Hslot Hnsl Hlas Hd Hsmall.
  unfold DEFAULT_NUM_SLABS in Hslot.
  assert (El : last_alloc_size a * 2 = las) by reflexivity.
  assert (Ed : libc_malloc (libc_calls s) las = d) by reflexivity.
  clearbody d. clearbody las.
  destruct (align_to_8_bounds (curr sl) ltac:(lia)) as (_ & Hal).
  destruct (align_to_8_bounds d ltac:(lia)) as (_ & Hald).
  assert (Hlen : (Z.to_nat (slab_ptr a + 1) < length (slabs a))%nat)
    by (eapply lookup_lt_Some; eassumption).
  unfold custom_malloc, bump_ptr_allocator_malloc. rewrite bind_get.
  erewrite bind_ret_inv;
    [|apply (slab_malloc_full s _ sl size Hsp Hsl);
      rewrite wrap64_small by (unfold SIZE_MAX; lia); lia].
  change (negb (NULL =? NULL)) with false. cbv iota. rewrite bind_get. cbv zeta.
  fold a. rewrite El.
  rewrite (wrap64_small (slab_ptr a + 1)) by (unfold SIZE_MAX; lia).
  rewrite (wrap64_small las) by (unfold SIZE_MAX; lia).
  destruct (DEFAULT_NUM_SLABS <=? slab_ptr a + 1) eqn:E;
    [apply Z.leb_le in E; unfold DEFAULT_NUM_SLABS in E; lia|].
  unfold bind at 1, set_bookkeeping.
  set (s0 := with_bookkeeping (slab_ptr a + 1) las _ _ s).
  erewrite bind_ret_inv;
    [|apply (slab_init_result s0 (slab_ptr a + 1) nsl las); [lia | exact Hnsl]].
  change (libc_calls s0) with (libc_calls s). rewrite Ed.
  destruct (d =? NULL) eqn:Ez; [apply Z.eqb_eq in Ez; unfold NULL in Ez; lia|].
  cbn [negb].
  set (s1 := with_slab _ _ _).
  assert (Hs1 : slabs (allocator s1) !! Z.to_nat (slab_ptr a + 1)
                = Some (mkSlab d d (d + las) las)).
  { unfold s1. cbn [with_slab allocator slabs s0 with_bookkeeping].
    rewrite (wrap64_small (d + las)) by (unfold SIZE_MAX; lia).
    now apply list_lookup_insert_eq. }
  erewrite bind_ret_inv;
    [|apply (slab_malloc_full s1 (slab_ptr a + 1) _ size ltac:(lia) Hs1); cbn [curr end_];
      rewrite !wrap64_small by (unfold SIZE_MAX; lia); lia].
  change (negb (NULL =? NULL)) with false. cbv iota.
  exists s1. split; [reflexivity|]. repeat split; try reflexivity. exact Hs1.
Qed.

End Runs.




Lemma malloc_all_in_order_witness :
  exists ps s',
    malloc_all libc_spaced [24; 5; 16] (one_slab 65536 4096 65536) = Ret (ps, s') /\
    regions_in_order 65536 (65536 + 4096) ps [24; 5; 16] /\
    Forall (fun p => p mod 8 = 0) ps /\
    libc_calls s' = 1%nat /\
    slab_ptr (allocator s') = 0.
Proof.
  apply (malloc_all_in_order libc_spaced [24; 5; 16] (one_slab 65536 4096 65536)
           (mkSlab 65536 65536 (65536 + 4096) 4096)).
  - simpl. lia.
  - reflexivity.
  - simpl. lia.
  - simpl. lia.
  - repeat constructor; lia.
  - simpl. lia.
Defined.

Lemma init_twice_exits_witness :
  (bump_ptr_allocator_init libc_spaced ;;; bump_ptr_allocator_init libc_spaced) fresh
  = Stop (Exit (-1)).
Proof. apply (init_twice_exits libc_spaced fresh zero_slab); reflexivity. Defined.

Lemma setup_once_witness :
  exists s1,
    bump_ptr_setup libc_spaced fresh = Ret (tt, s1) /\
    initialized (allocator s1) = true /\
    libc_calls s1 = 1%nat /\
    bump_ptr_setup libc_spaced s1 = Ret (tt, s1).
Proof. apply (setup_once libc_spaced fresh zero_slab); reflexivity. Defined.

Lemma growth_too_small_witness :
  exists s',
    custom_malloc (libc_const 1048576) 10000 (one_slab 65536 4096 65536)
    = Ret (NULL, s') /\
    slab_ptr (allocator s') = 0 + 1 /\
    last_alloc_size (allocator s') = 4096 * 2 /\
    libc_calls s' = 2%nat /\
    slabs (allocator s') !! Z.to_nat (0 + 1)
    = Some (mkSlab 1048576 1048576 (1048576 + 4096 * 2) (4096 * 2)).
Proof.
  apply (growth_too_small (libc_const 1048576) (one_slab 65536 4096 65536)
           (mkSlab 65536 65536 (65536 + 4096) 4096) zero_slab 10000).
  - simpl. lia.
  - reflexivity.
  - simpl. lia.
  - simpl. lia.
  - lia.
  - vm_compute. reflexivity.
  - reflexivity.
  - reflexivity.
  - simpl. lia.
  - unfold libc_const. lia.
  - vm_compute. reflexivity.
Defined.




End BumpPtrMore.

(** ** Chains: linking a node in, taking a node out *)

Section ChainSurgery.
Implicit Types (h : gmap Z obj).

Lemma elem_of_inserted (l : list Z) (n : nat) (p r : Z) :
  r ∈ take n l ++ p :: drop n l <-> r = p \/ r ∈ l.
Proof.
  rewrite <- (take_drop n l) at 3. rewrite !elem_of_app, elem_of_cons. tauto.
Qed.

Lemma elem_of_deleted (l : list Z) (n : nat) (r : Z) :
  r ∈ delete n l -> r ∈ l.
Proof.
  revert n. induction l as [|x l IH]; intros [|n]; simpl; intros H.
  - exact H.
  - exact H.
  - now apply elem_of_cons; right.
  - apply elem_of_cons in H as [->|H]; apply elem_of_cons; [left | right; eauto]; auto.
Qed.

Lemma last_inserted (l : list Z) (n : nat) (p : Z) :
  (n < length l)%nat -> last (take n l ++ p :: drop n l) = last l.
Proof.
  intros Hn. rewrite <- (take_drop n l) at 3. rewrite !last_app, last_cons.
  destruct (last (drop n l)) eqn:E; [reflexivity|].
  apply last_None in E. apply (f_equal length) in E.
  rewrite length_drop in E. simpl in E. lia.
Qed.

Lemma hd_inserted (l : list Z) (n : nat) (p q : Z) :
  hd q (take (Datatypes.S n) l ++ p :: drop (Datatypes.S n) l) = hd p l.
Proof. destruct l; reflexivity. Qed.

Lemma last_deleted (l : list Z) (n : nat) :
  (Datatypes.S n < length l)%nat -> last (delete n l) = last l.
Proof.
  intros Hn. rewrite delete_take_drop. rewrite <- (take_drop (Datatypes.S n) l) at 3.
  rewrite !last_app. destruct (last (drop (Datatypes.S n) l)) eqn:E; [reflexivity|].
  apply last_None in E. apply (f_equal length) in E.
  rewrite length_drop in E. simpl in E. lia.
Qed.

Lemma delete_at_end (l : list Z) (n : nat) :
  Datatypes.S n = length l -> delete n l = take n l.
Proof.
  intros Hn. rewrite delete_take_drop, drop_ge by lia. apply app_nil_r.
Qed.

Lemma hd_deleted (l : list Z) (n : nat) (q : Z) :
  hd q (delete (Datatypes.S n) l) = hd q l.
Proof. destruct l; reflexivity. Qed.

(** A new node [p] linked in after the node at position [i]. *)
Lemma chain_insert_mid h ps xs q (i : nat) prev xprev p v :
  chain h ps xs q -> NoDup ps -> p ∉ ps -> p <> NULL ->
  ps !! i = Some prev -> xs !! i = Some xprev ->
  chain (<[prev := ONode (mkNode xprev p)]>
           (<[p := ONode (mkNode v (hd q (drop (Datatypes.S i) ps)))]> h))
        (take (Datatypes.S i) ps ++ p :: drop (Datatypes.S i) ps)
        (take (Datatypes.S i) xs ++ v :: drop (Datatypes.S i) xs) q.
Proof.
  revert ps xs. induction i as [|i IH]; intros [|p0 ps] [|x0 xs] Hc Hnd Hp Hpn Hprev Hx;
    simpl in Hc; try tauto; try discriminate.
  - injection Hprev as ->. injection Hx as ->.
    destruct Hc as (Hp0 & Hl0 & Hc). apply NoDup_cons in Hnd as [Hn0 Hnd].
    apply not_elem_of_cons in Hp as [Hne Hp].
    cbn [take drop app chain hd].
    split; [exact Hp0|]. split; [apply lookup_insert_eq|].
    split; [exact Hpn|]. split.
    + rewrite lookup_insert_ne by congruence. apply lookup_insert_eq.
    + apply chain_insert_other; [exact Hn0|]. apply chain_insert_other; [exact Hp|].
      exact Hc.
  - destruct Hc as (Hp0 & Hl0 & Hc). apply NoDup_cons in Hnd as [Hn0 Hnd].
    apply not_elem_of_cons in Hp as [Hne Hp].
    cbn [lookup list_lookup] in Hprev, Hx.
    assert (Hin : prev ∈ ps) by (eapply list_elem_of_lookup_2; eauto).
    assert (p0 <> prev) by (intros ->; contradiction).
    rewrite !firstn_cons, !skipn_cons. cbn [app chain].
    split; [exact Hp0|]. split.
    + rewrite !lookup_insert_ne by congruence.
      destruct ps as [|p1 ps]; [discriminate|]. exact Hl0.
    + apply IH; assumption.
Qed.

(** The node after position [i] taken out of the chain and freed. *)
Lemma chain_delete_mid h ps xs q (i : nat) prev xprev r :
  chain h ps xs q -> NoDup ps ->
  ps !! i = Some prev -> xs !! i = Some xprev -> ps !! Datatypes.S i = Some r ->
  chain (delete r (<[prev := ONode (mkNode xprev (hd q (drop (Datatypes.S (Datatypes.S i)) ps)))]> h))
        (delete (Datatypes.S i) ps) (delete (Datatypes.S i) xs) q.
Proof.
  revert ps xs. induction i as [|i IH]; intros [|p0 ps] [|x0 xs] Hc Hnd Hprev Hx Hr;
    simpl in Hc; try tauto; try discriminate.
  - injection Hprev as ->. injection Hx as ->.
    destruct ps as [|p1 ps]; [discriminate|]. injection Hr as ->.
    destruct xs as [|x1 xs]; [simpl in Hc; tauto|].
    destruct Hc as (Hp0 & Hl0 & Hp1 & Hl1 & Hc).
    apply NoDup_cons in Hnd as [Hn0 Hnd]. apply NoDup_cons in Hnd as [Hn1 Hnd].
    apply not_elem_of_cons in Hn0 as [Hne Hn0].
    cbn [delete list_delete drop chain].
    split; [exact Hp0|]. split.
    + rewrite lookup_delete_ne by congruence. apply lookup_insert_eq.
    + apply chain_delete_other; [exact Hn1|]. apply chain_insert_other; [exact Hn0|].
      exact Hc.
  - destruct Hc as (Hp0 & Hl0 & Hc). apply NoDup_cons in Hnd as [Hn0 Hnd].
    cbn [lookup list_lookup] in Hprev, Hx, Hr.
    assert (Hin : prev ∈ ps) by (eapply list_elem_of_lookup_2; eauto).
    assert (Hinr : r ∈ ps) by (eapply list_elem_of_lookup_2; eauto).
    assert (p0 <> prev) by (intros ->; contradiction).
    assert (p0 <> r) by (intros ->; contradiction).
    change (delete (Datatypes.S (Datatypes.S i)) (p0 :: ps))
      with (p0 :: delete (Datatypes.S i) ps).
    change (delete (Datatypes.S (Datatypes.S i)) (x0 :: xs))
      with (x0 :: delete (Datatypes.S i) xs).
    rewrite skipn_cons. cbn [chain].
    split; [exact Hp0|]. split.
    + rewrite lookup_delete_ne by congruence. rewrite lookup_insert_ne by congruence.
      destruct ps as [|p1 ps]; [discriminate|].
      destruct i; exact Hl0.
    + apply IH; assumption.
Qed.

End ChainSurgery.

(** ** Level 2: insertion and removal at any index *)

Module Level2More.
Import Level2Types Level2 Level2Facts.

Section Sound.
Context {A : Type} (mf : malloc_fn A) (ff : free_fn A) (ainv : A -> gset Z -> Prop).
Hypothesis Hsound : sound_allocator mf ff ainv.
Implicit Types (w : world A).

Abbreviation ok := (world_ok mf ff ainv).

(** [linked_list_insert] strictly inside the list: the node before the
    position is found with a stack iterator and the new node linked in after
    it. *)
Lemma insert_mid_ok w ll ps xs q (k : nat) v :
  ok w -> list2_at w ll ps xs q -> (Datatypes.S k < length xs)%nat ->
  Z.of_nat (length xs) < SIZE_MAX ->
  runs (linked_list_insert ll (Z.of_nat (Datatypes.S k)) v) w (fun b w' =>
    b = true /\ exists p,
      heap w !! p = None /\
      list2_at w' ll (take (Datatypes.S k) ps ++ p :: drop (Datatypes.S k) ps)
                     (take (Datatypes.S k) xs ++ v :: drop (Datatypes.S k) xs) q /\
      ok w' /\ frame_on (ll :: ps) w w').
Proof.
  intros Hok (Hll & Hnd & Hc & Hsz & tl & Hl & Htl) Hk Hlt.
  pose proof Hok as (Hmf & Hff & _).
  pose proof (chain_length _ _ _ _ Hc) as Hlen.
  destruct (lookup_lt_is_Some_2 ps k ltac:(lia)) as [prev Hprev].
  destruct (lookup_lt_is_Some_2 xs k ltac:(lia)) as [xprev Hxprev].
  destruct (chain_lookup_index _ _ _ _ _ _ _ Hc Hprev Hxprev) as (Hprevn & Hprevl).
  assert (Hprevps : prev ∈ ps) by (eapply list_elem_of_lookup_2; eauto).
  unfold linked_list_insert. step. step. cbv beta.
  rewrite (eqb_NULL_false _ Hll).
  replace (Z.of_nat (length xs) <? Z.of_nat (Datatypes.S k)) with false
    by (symmetry; apply Z.ltb_ge; lia).
  cbn [orb]. step. step. cbv beta. rewrite Hmf.
  step. apply runs_call_malloc. intros p a' Hm. cbv beta.
  destruct (world_ok_alloc _ _ _ Hsound w _ p a' (as_node p (uninit w)) Hok Hm)
    as (Hp & Hfresh & Hok1).
  assert (Hpll : p <> ll) by congruence.
  assert (Hpps : p ∉ ps) by (eapply chain_fresh; eauto).
  assert (Hpprev : p <> prev) by (intros ->; contradiction).
  assert (Hprevll : prev <> ll) by congruence.
  assert (Hllps : ll ∉ ps).
  { eapply chain_not_header; [exact Hc|]. intros n0. rewrite Hl. discriminate. }
  assert (Hlldom : ll ∈ dom (heap w)) by (eapply in_dom_of_lookup; eauto).
  assert (Hprevdom : prev ∈ dom (heap w)) by (eapply in_dom_of_lookup; eauto).
  unfold as_node in *.
  replace (Z.of_nat (Datatypes.S k) =? 0) with false by (symmetry; apply Z.eqb_neq; lia).
  replace (Z.of_nat (Datatypes.S k) =? Z.of_nat (length xs)) with false
    by (symmetry; apply Z.eqb_neq; lia).
  step. step. step. step. step.
  unfold _linked_list_init_iterator.
  change (addr_of_local =? NULL) with false. cbv iota.
  step. step. step.
  replace (wrap64 (Z.of_nat (Datatypes.S k) - 1)) with (Z.of_nat k)
    by (rewrite wrap64_small; unfold SIZE_MAX in *; lia).
  rewrite Nat2Z.id. step.
  eapply runs_walk with (xs := xs).
  { wsimpl. repeat (apply chain_insert_other; [assumption|]). exact Hc. }
  { lia. }
  wsimpl. rewrite (hd_drop_lookup _ _ _ _ Hprev).
  steps.
  split; [reflexivity|]. exists p. split; [exact Hfresh|]. split; [|split].
  - split; [exact Hll|]. split.
    { rewrite <- (take_drop (Datatypes.S k) ps) in Hnd, Hpps.
      apply NoDup_app in Hnd as (Hnd1 & Hdisj & Hnd2).
      apply not_elem_of_app in Hpps as [Hp1 Hp2].
      apply NoDup_app. split; [exact Hnd1|]. split.
      - intros r Hr Hr'. apply elem_of_cons in Hr' as [-> | Hr'];
          [contradiction | now apply (Hdisj r)].
      - now apply NoDup_cons. }
    split.
    { eapply chain_ext.
      - apply (chain_insert_mid (heap w) ps xs q k prev xprev p v); eassumption.
      - intros r Hr.
        assert (r <> ll).
        { intros ->. apply elem_of_inserted in Hr as [Hr|Hr]; [congruence | contradiction]. }
        wsimpl. rewrite !(lookup_insert_ne _ ll r) by solve_ne.
        rewrite !insert_insert_eq. reflexivity. }
    split.
    { rewrite length_app. simpl length. rewrite length_take, length_drop. lia. }
    exists tl. split.
    + rewrite hd_inserted.
      replace (hd p ps) with (hd q ps) by (destruct ps; [simpl in Hlen; lia | reflexivity]).
      replace (Z.of_nat (length (take (Datatypes.S k) xs ++ v :: drop (Datatypes.S k) xs)))
        with (wrap64 (Z.of_nat (length xs) + 1)).
      { hlookup. }
      rewrite length_app. simpl length. rewrite length_take, length_drop.
      rewrite wrap64_small by lia. lia.
    + intros t Ht. apply Htl. rewrite last_inserted in Ht by lia. exact Ht.
  - solve_ok Hok1.
  - intros r o Hr Hro. apply not_elem_of_cons in Hr as [Hr Hr'].
    assert (r <> p) by congruence.
    assert (r <> prev) by (intros ->; contradiction).
    wsimpl. now rewrite !lookup_insert_ne by solve_ne.
Qed.

(** [linked_list_remove] behind the first node: the node before the one
    to go is found with a stack iterator, the link is bent around the node,
    [tail] moved back when the last node goes, and the node freed. *)
Lemma remove_mid_ok w ll ps xs q (k : nat) :
  ok w -> list2_at w ll ps xs q -> (Datatypes.S k < length xs)%nat ->
  runs (linked_list_remove ll (Z.of_nat (Datatypes.S k))) w (fun b w' =>
    b = true /\
    list2_at w' ll (delete (Datatypes.S k) ps) (delete (Datatypes.S k) xs) q /\
    (forall r, ps !! Datatypes.S k = Some r -> heap w' !! r = None) /\
    ok w' /\ frame_on (ll :: ps) w w').
Proof.
  intros Hok (Hll & Hnd & Hc & Hsz & tl & Hl & Htl) Hk.
  pose proof Hok as (Hmf & Hff & _).
  pose proof (chain_length _ _ _ _ Hc) as Hlen.
  destruct (lookup_lt_is_Some_2 ps k ltac:(lia)) as [prev Hprev].
  destruct (lookup_lt_is_Some_2 xs k ltac:(lia)) as [xprev Hxprev].
  destruct (lookup_lt_is_Some_2 ps (Datatypes.S k) ltac:(lia)) as [r Hr].
  destruct (lookup_lt_is_Some_2 xs (Datatypes.S k) ltac:(lia)) as [xr Hxr].
  destruct (chain_lookup_index _ _ _ _ _ _ _ Hc Hprev Hxprev) as (Hprevn & Hprevl).
  destruct (chain_lookup_index _ _ _ _ _ _ _ Hc Hr Hxr) as (Hrn & Hrl).
  rewrite (hd_drop_lookup _ _ _ _ Hr) in Hprevl.
  assert (Hprevps : prev ∈ ps) by (eapply list_elem_of_lookup_2; eauto).
  assert (Hrps : r ∈ ps) by (eapply list_elem_of_lookup_2; eauto).
  assert (Hprevr : prev <> r).
  { intros ->. pose proof (NoDup_lookup _ _ _ _ Hnd Hprev Hr). lia. }
  assert (Hprevll : prev <> ll) by congruence.
  assert (Hrll : r <> ll) by congruence.
  assert (Hllps : ll ∉ ps).
  { eapply chain_not_header; [exact Hc|]. intros n0. rewrite Hl. discriminate. }
  assert (Hlldom : ll ∈ dom (heap w)) by (eapply in_dom_of_lookup; eauto).
  assert (Hprevdom : prev ∈ dom (heap w)) by (eapply in_dom_of_lookup; eauto).
  unfold linked_list_remove. rewrite (eqb_NULL_false _ Hll).
  step. step. step. step. cbv beta.
  replace (Z.of_nat (length xs) <=? Z.of_nat (Datatypes.S k)) with false
    by (symmetry; apply Z.leb_gt; lia).
  replace (Z.of_nat (Datatypes.S k) =? 0) with false by (symmetry; apply Z.eqb_neq; lia).
  step. step.
  unfold _linked_list_init_iterator.
  change (addr_of_local =? NULL) with false. cbv iota.
  step. step. step.
  replace (wrap64 (Z.of_nat (Datatypes.S k) - 1)) with (Z.of_nat k)
    by (rewrite wrap64_small; unfold SIZE_MAX in *; lia).
  rewrite Nat2Z.id.
  eapply runs_walk with (xs := xs).
  { exact Hc. }
  { lia. }
  wsimpl. rewrite (hd_drop_lookup _ _ _ _ Hprev).
  steps.
  assert (Hlenps : length (delete (Datatypes.S k) xs) = (length xs - 1)%nat)
    by (apply length_delete; eauto).
  assert (Hsize : wrap64 (Z.of_nat (length xs) - 1)
                  = Z.of_nat (length (delete (Datatypes.S k) xs))).
  { rewrite Hlenps. rewrite wrap64_small by lia. lia. }
  assert (Hnd' : NoDup (delete (Datatypes.S k) ps))
    by (eapply sublist_NoDup; [exact Hnd | apply sublist_delete]).
  assert (Hext : forall h1 : gmap Z obj,
    (forall x, x <> ll -> h1 !! x
       = delete r (<[prev := ONode (mkNode xprev (hd q (drop (Datatypes.S (Datatypes.S k)) ps)))]>
                     (heap w)) !! x) ->
    chain h1 (delete (Datatypes.S k) ps) (delete (Datatypes.S k) xs) q).
  { intros h1 Hh1. eapply chain_ext.
    - apply (chain_delete_mid (heap w) ps xs q k prev xprev r); eassumption.
    - intros x Hx. apply Hh1. intros ->. apply Hllps. eapply elem_of_deleted; eauto. }
  destruct (last ps) as [t|] eqn:Et;
    [|apply last_None in Et; subst ps; simpl in Hlen; lia].
  specialize (Htl t eq_refl). subst tl.
  pose proof Et as Etl. rewrite last_lookup in Etl.
  destruct (t =? r) eqn:E.
  - apply Z.eqb_eq in E. subst t.
    pose proof (NoDup_lookup _ _ _ _ Hnd Etl Hr) as Hidx.
    step. step. step. cbv beta. wsimpl. rewrite Hff. steps.
    split; [reflexivity|]. split; [|split; [|split]].
    + split; [exact Hll|]. split; [exact Hnd'|]. split.
      { apply Hext. intros x Hx. wsimpl.
        rewrite lookup_insert_ne by solve_ne.
        destruct (decide (x = r)) as [->|Hxne].
        - now rewrite !lookup_delete_eq.
        - rewrite !lookup_delete_ne by solve_ne.
          now rewrite lookup_insert_ne by solve_ne. }
      split; [lia|].
      exists prev. split.
      * rewrite hd_deleted, <- Hsize. hlookup.
      * intros t Ht. rewrite delete_at_end in Ht by lia.
        rewrite (last_take_lookup _ _ _ Hprev) in Ht. congruence.
    + intros r' Hr'. rewrite Hr in Hr'. injection Hr' as <-. wsimpl.
      rewrite lookup_insert_ne by solve_ne. apply lookup_delete_eq.
    + solve_ok (world_ok_free _ _ _ Hsound w r Hok).
    + intros x o Hx Hxo. apply not_elem_of_cons in Hx as [Hx Hx'].
      assert (x <> prev) by (intros ->; contradiction).
      assert (x <> r) by (intros ->; contradiction).
      wsimpl. rewrite lookup_insert_ne by solve_ne.
      rewrite lookup_delete_ne by solve_ne.
      now rewrite !lookup_insert_ne by solve_ne.
  - apply Z.eqb_neq in E.
    assert (Hinner : (Datatypes.S (Datatypes.S k) < length ps)%nat).
    { destruct (decide (Datatypes.S (Datatypes.S k) = length ps)) as [Hlast|]; [|lia].
      exfalso. apply E. rewrite <- Hlast in Etl. simpl in Etl. congruence. }
    step. step. step. cbv beta. wsimpl. rewrite Hff. steps.
    split; [reflexivity|]. split; [|split; [|split]].
    + split; [exact Hll|]. split; [exact Hnd'|]. split.
      { apply Hext. intros x Hx. wsimpl.
        rewrite lookup_insert_ne by solve_ne.
        destruct (decide (x = r)) as [->|Hxne].
        - now rewrite !lookup_delete_eq.
        - now rewrite !lookup_delete_ne by solve_ne. }
      split; [lia|].
      exists t. split.
      * rewrite hd_deleted, <- Hsize. hlookup.
      * intros t' Ht. rewrite last_deleted in Ht by lia. congruence.
    + intros r' Hr'. rewrite Hr in Hr'. injection Hr' as <-. wsimpl.
      rewrite lookup_insert_ne by solve_ne. apply lookup_delete_eq.
    + solve_ok (world_ok_free _ _ _ Hsound w r Hok).
    + intros x o Hx Hxo. apply not_elem_of_cons in Hx as [Hx Hx'].
      assert (x <> prev) by (intros ->; contradiction).
      assert (x <> r) by (intros ->; contradiction).
      wsimpl. rewrite lookup_insert_ne by solve_ne.
      rewrite lookup_delete_ne by solve_ne.
      now rewrite !lookup_insert_ne by solve_ne.
Qed.

(** [linked_list_remove] at index 0 frees the first node. *)
Lemma remove_front_frees w ll p ps x xs q :
  ok w -> list2_at w ll (p :: ps) (x :: xs) q ->
  runs (linked_list_remove ll 0) w (fun b w' =>
    b = true /\ list2_at w' ll ps xs q /\ heap w' !! p = None /\
    ok w' /\ frame_on (ll :: p :: ps) w w').
Proof.
  intros Hok (Hll & Hnd & Hc & Hsz & tl & Hl & Htl).
  pose proof Hok as (Hmf & Hff & _).
  destruct Hc as (Hp & Hn & Hc). apply NoDup_cons in Hnd as [Hpps Hnd].
  assert (Hpll : p <> ll) by congruence.
  assert (Hllps : ll ∉ ps).
  { eapply chain_not_header; [exact Hc|]. intros n0. rewrite Hl. discriminate. }
  assert (Hlldom : ll ∈ dom (heap w)) by (eapply in_dom_of_lookup; eauto).
  unfold linked_list_remove. rewrite (eqb_NULL_false _ Hll).
  step. step. step. step. cbv beta.
  replace (Z.of_nat (length (x :: xs)) <=? 0) with false
    by (symmetry; apply Z.leb_gt; simpl length; lia).
  rewrite Z.eqb_refl. cbn [hd] in *.
  step. step. step. step. step. step. step. step. step. cbv beta. wsimpl. rewrite Hff.
  steps. split; [reflexivity|]. split; [|split; [|split]].
  - split; [exact Hll|]. split; [exact Hnd|]. split.
    { apply chain_insert_other; [assumption|].
      apply chain_delete_other; [assumption|].
      apply chain_insert_other; [assumption|]. exact Hc. }
    split; [simpl length in *; lia|].
    exists tl. split.
    + replace (wrap64 (Z.of_nat (length (x :: xs)) - 1)) with (Z.of_nat (length xs))
        by (rewrite wrap64_small; simpl length in *; lia).
      hlookup.
    + intros t Ht. apply Htl. rewrite last_cons, Ht. reflexivity.
  - wsimpl. rewrite lookup_insert_ne by solve_ne. apply lookup_delete_eq.
  - solve_ok (world_ok_free _ _ _ Hsound w p Hok).
  - intros r o Hr Hro. apply not_elem_of_cons in Hr as [Hr Hr'].
    apply not_elem_of_cons in Hr' as [Hr' _].
    wsimpl. rewrite lookup_insert_ne by solve_ne.
    rewrite lookup_delete_ne by solve_ne.
    now rewrite lookup_insert_ne by solve_ne.
Qed.

(** X9.  Level 2, [linked_list_insert] at any index from 0 to the size:
    it returns [true], the list then holds the old values with the new one
    at that index, in one freshly allocated node, the size is one more, and
    no other live object is touched.  Strictly inside the list the last
    node's [next] is what it was. *)
Theorem insert_at_any_index w ll ps xs q (i : nat) v :
  ok w -> list2_at w ll ps xs q -> (i <= length xs)%nat ->
  Z.of_nat (length xs) < SIZE_MAX ->
  runs (linked_list_insert ll (Z.of_nat i) v) w (fun b w' =>
    b = true /\ exists p q',
      heap w !! p = None /\
      list2_at w' ll (take i ps ++ p :: drop i ps) (take i xs ++ v :: drop i xs) q' /\
      ((i < length xs)%nat -> q' = q) /\
      ok w' /\ frame_on (ll :: ps) w w').
Proof.
  intros Hok Hat Hi Hlt. pose proof Hat as (_ & _ & Hc & _).
  pose proof (chain_length _ _ _ _ Hc) as Hlen.
  destruct i as [|k].
  - eapply runs_weaken; [apply (insert_front_ok _ _ _ Hsound w ll ps xs q v Hok Hat Hlt)|].
    intros b w' (-> & p & Hf & Hat' & Hok' & Hfr).
    split; [reflexivity|]. exists p, q. rewrite !take_0, !drop_0. auto 10.
  - destruct (decide (Datatypes.S k = length xs)) as [Hend|Hmid].
    + rewrite Hend.
      eapply runs_weaken;
        [apply (insert_back_ok _ _ _ Hsound w ll ps xs q v Hok Hat); [|exact Hlt]|].
      { intros ->. simpl in Hlen. lia. }
      intros b w' (-> & p & q' & Hf & Hat' & Hok' & Hfr).
      split; [reflexivity|]. exists p, q'.
      rewrite <- Hlen at 1 2. rewrite !firstn_all, !skipn_all.
      split; [exact Hf|]. split; [exact Hat'|]. split; [lia | auto].
    + eapply runs_weaken; [apply (insert_mid_ok w ll ps xs q k v Hok Hat); [lia | exact Hlt]|].
      intros b w' (-> & p & Hf & Hat' & Hok' & Hfr).
      split; [reflexivity|]. exists p, q. auto 10.
Qed.

(** X10.  Level 2, [linked_list_remove] at any index below the size: it
    returns [true], the node at that index is freed, the list holds the
    remaining values in order with the size one less, [tail] is the new last
    node whenever one is left, and no other live object is touched. *)
Theorem remove_at_any_index w ll ps xs q (i : nat) :
  ok w -> list2_at w ll ps xs q -> (i < length xs)%nat ->
  runs (linked_list_remove ll (Z.of_nat i)) w (fun b w' =>
    b = true /\ list2_at w' ll (delete i ps) (delete i xs) q /\
    (forall r, ps !! i = Some r -> heap w' !! r = None) /\
    ok w' /\ frame_on (ll :: ps) w w').
Proof.
  intros Hok Hat Hi. pose proof Hat as (_ & _ & Hc & _).
  pose proof (chain_length _ _ _ _ Hc) as Hlen.
  destruct i as [|k].
  - destruct ps as [|p ps]; [simpl in Hlen; lia|].
    destruct xs as [|x xs]; [simpl in Hi; lia|].
    eapply runs_weaken; [apply (remove_front_frees w ll p ps x xs q Hok Hat)|].
    intros b w' (-> & Hat' & Hfree & Hok' & Hfr). cbn [delete list_delete].
    split; [reflexivity|]. split; [exact Hat'|]. split; [|auto].
    intros r [= <-]. exact Hfree.
  - eapply runs_weaken; [apply (remove_mid_ok w ll ps xs q k Hok Hat Hi)|].
    intros b w' (-> & Hat' & Hfree & Hok' & Hfr). auto 10.
Qed.

End Sound.

Section Rejections.
Context {A : Type}.
Implicit Types (w : world A).

(** X11.  Level 2, the index checks: on a list of [n] values,
    [linked_list_insert] at an index above [n], [linked_list_remove] and
    [linked_list_create_iterator] at an index from [n] on, and all three on
    a null list, return the failure value and leave every object as it
    was; nothing is allocated. *)
Theorem out_of_range_rejected w ll l index d :
  ll = NULL \/ (heap w !! ll = Some (OList2 l) /\ size l <= index) ->
  (ll = NULL \/ size l < index -> linked_list_insert ll index d w = Ret (false, w)) /\
  linked_list_remove ll index w = Ret (false, w) /\
  linked_list_create_iterator ll index w = Ret (NULL, w).
Proof.
  intros [-> | (Hl & Hge)].
  - repeat split; reflexivity.
  - destruct (Z.eq_dec ll NULL) as [->|Hne].
    { repeat split; reflexivity. }
    assert (Hs : linked_list_size ll w = Ret (size l, w)).
    { unfold linked_list_size, load_list, load, bind.
      rewrite (eqb_NULL_false _ Hne), Hl. reflexivity. }
    split; [|split].
    + intros [->|Hgt]; [reflexivity|].
      unfold linked_list_insert. rewrite (bind_ret_inv _ _ _ _ _ Hs).
      rewrite (eqb_NULL_false _ Hne).
      replace (size l <? index) with true by (symmetry; apply Z.ltb_lt; lia).
      reflexivity.
    + unfold linked_list_remove. rewrite (eqb_NULL_false _ Hne).
      erewrite bind_ret_inv; [|rewrite (bind_ret_inv _ _ _ _ _ Hs); reflexivity].
      replace (size l <=? index) with true by (symmetry; apply Z.leb_le; lia).
      reflexivity.
    + unfold linked_list_create_iterator. rewrite (eqb_NULL_false _ Hne).
      erewrite bind_ret_inv; [|rewrite (bind_ret_inv _ _ _ _ _ Hs); reflexivity].
      replace (size l <=? index) with true by (symmetry; apply Z.leb_le; lia).
      reflexivity.
Qed.

End Rejections.
End Level2More.

(** ** Searching, walking and deleting a list *)

Section Loops.
Context {A : Type}.
Implicit Types (w : world A).

Lemma load_node_eq w p n :
  p <> NULL -> heap w !! p = Some (ONode n) -> load_node p w = Ret (n, w).
Proof.
  intros Hp Hl. unfold load_node, load, bind. now rewrite Hl, (eqb_NULL_false _ Hp).
Qed.

Lemma load_node_wild w p :
  p <> NULL -> heap w !! p = None -> load_node p w = Stop WildAccess.
Proof.
  intros Hp Hl. unfold load_node, load, bind, bad_pointer.
  now rewrite Hl, (eqb_NULL_false _ Hp).
Qed.

(** [find_loop] past a chain that does not hold the value. *)
Lemma find_loop_skip w ps xs q v fuel i :
  chain (heap w) ps xs q -> v ∉ xs -> 0 <= i ->
  i + Z.of_nat (length xs) <= SIZE_MAX ->
  find_loop (length ps + fuel) v (hd q ps) i w
  = find_loop fuel v q (i + Z.of_nat (length ps)) w.
Proof.
  revert xs i. induction ps as [|p ps IH]; intros [|x xs] i Hc Hv Hi Hb;
    simpl in Hc; try tauto.
  - simpl. now rewrite Z.add_0_r.
  - destruct Hc as (Hp & Hl & Hc). apply not_elem_of_cons in Hv as [Hvx Hv].
    simpl length in *. cbn [Nat.add find_loop hd].
    rewrite (eqb_NULL_false _ Hp).
    rewrite (bind_ret_inv _ _ _ _ _ (load_node_eq w p _ Hp Hl)). cbn [data next].
    destruct (x =? v) eqn:E; [apply Z.eqb_eq in E; congruence|].
    rewrite wrap64_small by lia.
    rewrite (IH xs (i + 1) Hc Hv) by lia. f_equal. lia.
Qed.

(** [delete_loop] along a chain whose last link dangles: the nodes are
    freed one by one and the loop then reads through the dangling link. *)
Lemma delete_loop_dangling w ps xs q (f : free_fn A) fuel :
  chain (heap w) ps xs q -> NoDup ps -> q <> NULL -> heap w !! q = None ->
  free_fptr w = Some f -> (length ps < fuel)%nat ->
  delete_loop fuel (hd q ps) w = Stop WildAccess.
Proof.
  revert w xs fuel. induction ps as [|p ps IH]; intros w [|x xs] fuel Hc Hnd Hq Hqn Hf Hlen;
    simpl in Hc; try tauto.
  - destruct fuel as [|fuel]; [simpl in Hlen; lia|]. cbn [delete_loop hd].
    rewrite (eqb_NULL_false _ Hq).
    now rewrite (bind_stop_inv _ _ _ _ (load_node_wild w q Hq Hqn)).
  - destruct Hc as (Hp & Hl & Hc). apply NoDup_cons in Hnd as [Hpps Hnd].
    destruct fuel as [|fuel]; [simpl in Hlen; lia|]. cbn [delete_loop hd].
    rewrite (eqb_NULL_false _ Hp).
    rewrite (bind_ret_inv _ _ _ _ _ (load_node_eq w p _ Hp Hl)). cbn [next].
    rewrite bind_get, Hf. unfold bind at 1, call_free.
    apply (IH _ xs fuel).
    + wsimpl. apply chain_delete_other; assumption.
    + exact Hnd.
    + exact Hq.
    + wsimpl. destruct (decide (q = p)) as [->|Hne];
        [apply lookup_delete_eq | now rewrite lookup_delete_ne by solve_ne].
    + exact Hf.
    + simpl in Hlen. lia.
Qed.

End Loops.

Section LoopsSound.
Context {A : Type} (mf : malloc_fn A) (ff : free_fn A) (ainv : A -> gset Z -> Prop).
Hypothesis Hsound : sound_allocator mf ff ainv.
Implicit Types (w : world A).

(** [delete_loop] along a chain that ends in [NULL]: every node is freed,
    nothing else changes and nothing appears. *)
Lemma delete_loop_frees w ps xs fuel :
  world_ok mf ff ainv w -> chain (heap w) ps xs NULL -> NoDup ps ->
  (length ps < fuel)%nat ->
  runs (delete_loop fuel (hd NULL ps)) w (fun _ w' =>
    world_ok mf ff ainv w' /\ frame_on ps w w' /\
    (forall r, r ∈ ps -> heap w' !! r = None) /\
    (forall r, heap w !! r = None -> heap w' !! r = None)).
Proof.
  revert w xs fuel. induction ps as [|p ps IH]; intros w xs fuel Hok Hc Hnd Hf.
  - destruct fuel as [|fuel]; [simpl in Hf; lia|]. cbn [delete_loop hd].
    rewrite Z.eqb_refl. step0. split; [exact Hok|]. split; [apply frame_on_refl|].
    split; [intros r Hr; inversion Hr | auto].
  - destruct xs as [|x xs]; [simpl in Hc; tauto|]. destruct Hc as (Hp & Hl & Hc).
    apply NoDup_cons in Hnd as [Hpps Hnd].
    destruct fuel as [|fuel]; [simpl in Hf; lia|]. cbn [delete_loop hd].
    rewrite (eqb_NULL_false _ Hp). step0. step0. step0. step0. cbv beta.
    destruct Hok as (Hmf & Hff & Hrest). rewrite Hff.
    step0. step0.
    eapply runs_weaken.
    + apply (IH _ xs fuel).
      * apply (world_ok_free _ _ _ Hsound w p). repeat split; tauto.
      * wsimpl. apply chain_delete_other; assumption.
      * exact Hnd.
      * simpl in Hf. lia.
    + intros _ w' (Hok' & Hfr & Hgone & Hnone). wsimpl.
      split; [exact Hok'|]. split; [|split].
      * intros r o Hr Hro. apply not_elem_of_cons in Hr as [Hrp Hr].
        apply Hfr; [exact Hr|]. wsimpl. now rewrite lookup_delete_ne by solve_ne.
      * intros r Hr. apply elem_of_cons in Hr as [->|Hr]; [|now apply Hgone].
        apply Hnone. apply lookup_delete_eq.
      * intros r Hr. apply Hnone.
        destruct (decide (r = p)) as [->|Hne];
          [apply lookup_delete_eq | now rewrite lookup_delete_ne by solve_ne].
Qed.

End LoopsSound.

Module Level2Walk.
Import Level2Types Level2 Level2Facts.

Section Find.
Context {A : Type}.
Implicit Types (w : world A).

Lemma load_list_eq w ll l :
  ll <> NULL -> heap w !! ll = Some (OList2 l) -> load_list ll w = Ret (l, w).
Proof.
  intros Hp Hl. unfold load_list, load, bind. now rewrite Hl, (eqb_NULL_false _ Hp).
Qed.

(** X12.  Level 2, [linked_list_find] of a value the list holds: the index
    of its first occurrence, and nothing is changed. *)
Theorem find_first_occurrence w ll ps xs q v (k : nat) fuel :
  list2_at w ll ps xs q -> xs !! k = Some v ->
  (forall j x, (j < k)%nat -> xs !! j = Some x -> x <> v) ->
  (k < fuel)%nat ->
  linked_list_find fuel ll v w = Ret (Z.of_nat k, w).
Proof.
  intros (Hll & Hnd & Hc & Hsz & tl & Hl & Htl) Hk Hfirst Hfuel.
  pose proof (lookup_lt_Some _ _ _ Hk) as Hklt.
  assert (Hrun : runs (linked_list_find fuel ll v) w
                   (fun i w' => i = Z.of_nat k /\ w' = w)).
  { unfold linked_list_find. rewrite (eqb_NULL_false _ Hll). step. step.
    eapply (runs_find_loop w ps xs q v k fuel 0);
      [exact Hc | exact Hk | exact Hfirst | lia | lia | lia | split; [lia | reflexivity]]. }
  destruct Hrun as (i & w' & Hrun & -> & ->). exact Hrun.
Qed.

(** X13.  Level 2, [linked_list_find] of a value the list does not hold
    walks off the end of the chain.  When the last node's [next] is [NULL]
    the result is [SIZE_MAX]; when it is a pointer to no live object -- as
    after an append, which leaves the new node's [next] as [malloc] returned
    it -- the search reads through it. *)
Theorem find_absent w ll ps xs q v fuel :
  list2_at w ll ps xs q -> v ∉ xs -> (length xs < fuel)%nat ->
  (q = NULL -> linked_list_find fuel ll v w = Ret (SIZE_MAX, w)) /\
  (q <> NULL -> heap w !! q = None ->
   linked_list_find fuel ll v w = Stop WildAccess).
Proof.
  intros (Hll & Hnd & Hc & Hsz & tl & Hl & Htl) Hv Hfuel.
  pose proof (chain_length _ _ _ _ Hc) as Hlen.
  assert (Hfind : linked_list_find fuel ll v w
                  = find_loop (fuel - length ps) v q (Z.of_nat (length ps)) w).
  { unfold linked_list_find. rewrite (eqb_NULL_false _ Hll).
    rewrite (bind_ret_inv _ _ _ _ _ (load_list_eq w ll _ Hll Hl)).
    cbn [head]. replace fuel with (length ps + (fuel - length ps))%nat at 1 by lia.
    rewrite (find_loop_skip w ps xs q v _ 0 Hc Hv) by lia. reflexivity. }
  rewrite Hfind.
  destruct (fuel - length ps)%nat as [|fuel'] eqn:Ef; [lia|].
  split.
  - intros ->. reflexivity.
  - intros Hq Hqn. cbn [find_loop]. rewrite (eqb_NULL_false _ Hq).
    now rewrite (bind_stop_inv _ _ _ _ (load_node_wild w q Hq Hqn)).
Qed.

End Find.

Section Sound.
Context {A : Type} (mf : malloc_fn A) (ff : free_fn A) (ainv : A -> gset Z -> Prop).
Hypothesis Hsound : sound_allocator mf ff ainv.
Implicit Types (w : world A).

Abbreviation ok := (world_ok mf ff ainv).

(** [linked_list_delete] of a list whose chain ends in [NULL]: every node
    and the header are gone afterwards. *)
Lemma delete_frees_all w ll ps xs fuel :
  ok w -> list2_at w ll ps xs NULL -> (length ps < fuel)%nat ->
  runs (linked_list_delete fuel ll) w (fun b w' =>
    b = true /\ (forall r, r ∈ ll :: ps -> heap w' !! r = None) /\
    ok w' /\ frame_on (ll :: ps) w w').
Proof.
  intros Hok (Hll & Hnd & Hc & Hsz & tl & Hl & Htl) Hf.
  unfold linked_list_delete. rewrite (eqb_NULL_false _ Hll).
  step. step. step.
  eapply runs_weaken; [apply (delete_loop_frees _ _ _ Hsound w ps xs fuel Hok Hc Hnd Hf)|].
  intros _ w1 (Hok1 & Hfr1 & Hgone & Hnone). cbv beta.
  step. step. cbv beta. destruct Hok1 as (Hmf1 & Hff1 & Hrest1). rewrite Hff1.
  step. step. step.
  split; [reflexivity|]. split; [|split].
  - intros r Hr. wsimpl. apply elem_of_cons in Hr as [->|Hr];
      [apply lookup_delete_eq|].
    destruct (decide (r = ll)) as [->|Hne];
      [apply lookup_delete_eq | rewrite lookup_delete_ne by solve_ne; now apply Hgone].
  - apply (world_ok_free _ _ _ Hsound w1 ll). repeat split; tauto.
  - intros r o Hr Hro. apply not_elem_of_cons in Hr as [Hrl Hr].
    wsimpl. rewrite lookup_delete_ne by solve_ne. now apply Hfr1.
Qed.

(** X14.  Level 2, [linked_list_delete].  Of a list whose chain ends in
    [NULL] it frees every node and the header, touching nothing else; of a
    list whose last link dangles it frees the nodes and then reads through
    that link. *)
Theorem delete_frees_or_faults w ll ps xs q fuel :
  ok w -> list2_at w ll ps xs q -> (length ps < fuel)%nat ->
  (q = NULL ->
   runs (linked_list_delete fuel ll) w (fun b w' =>
     b = true /\ (forall r, r ∈ ll :: ps -> heap w' !! r = None) /\
     ok w' /\ frame_on (ll :: ps) w w')) /\
  (q <> NULL -> heap w !! q = None ->
   linked_list_delete fuel ll w = Stop WildAccess).
Proof.
  intros Hok Hat Hf. split.
  - intros ->. now apply (delete_frees_all w ll ps xs fuel).
  - destruct Hat as (Hll & Hnd & Hc & Hsz & tl & Hl & Htl).
    pose proof Hok as (Hmf & Hff & _).
    intros Hq Hqn. unfold linked_list_delete. rewrite (eqb_NULL_false _ Hll).
    rewrite (bind_ret_inv _ _ _ _ _ (load_list_eq w ll _ Hll Hl)).
    cbn [head].
    now rewrite (bind_stop_inv _ _ _ _ (delete_loop_dangling w ps xs q ff fuel Hc Hnd Hq Hqn Hff Hf)).
Qed.

End Sound.
End Level2Walk.

(** ** Iterators *)

Section Collect.
Context {A : Type} (mf : malloc_fn A) (ff : free_fn A) (ainv : A -> gset Z -> Prop).
Hypothesis Hsound : sound_allocator mf ff ainv.
Implicit Types (w : world A).

(** [collect] from an iterator that stands on node [i] of a chain ending in
    [NULL]: the values from there on, only the iterator changing. *)
Lemma collect_ok (m : nat) : forall w ps xs it l (i : nat) pi xi fuel,
  world_ok mf ff ainv w -> chain (heap w) ps xs NULL ->
  it <> NULL -> it ∉ ps ->
  ps !! i = Some pi -> xs !! i = Some xi ->
  heap w !! it = Some (OIter (mkIterator l pi (Z.of_nat i) xi)) ->
  Z.of_nat (length xs) <= SIZE_MAX ->
  (length xs - i <= m)%nat -> (m <= fuel)%nat ->
  runs (collect fuel it) w (fun vs w' =>
    vs = drop i xs /\ world_ok mf ff ainv w' /\
    (forall r, r <> it -> heap w' !! r = heap w !! r) /\
    exists it', heap w' !! it = Some (OIter it')).
Proof.
  induction m as [|m IH]; intros w ps xs it l i pi xi fuel Hok Hc Hit Hitps Hpi Hxi Hiter Hsz Hm Hfuel.
  { pose proof (lookup_lt_Some _ _ _ Hxi). lia. }
  pose proof (chain_length _ _ _ _ Hc) as Hlen.
  pose proof (lookup_lt_Some _ _ _ Hxi) as Hilt.
  destruct (chain_lookup_index _ _ _ _ _ _ _ Hc Hpi Hxi) as (Hpin & Hpil).
  assert (Hpips : pi ∈ ps) by (eapply list_elem_of_lookup_2; eauto).
  assert (Hitpi : it <> pi) by (intros ->; contradiction).
  assert (Hitdom : it ∈ dom (heap w)) by (eapply in_dom_of_lookup; eauto).
  destruct fuel as [|fuel]; [lia|]. cbn [collect].
  step0. step0. step0. unfold linked_list_iterate. rewrite (eqb_NULL_false _ Hit).
  step0. step0. step0. step0.
  destruct (decide (Datatypes.S i = length xs)) as [Hend|Hmore].
  - rewrite drop_ge by lia. cbn [hd]. rewrite Z.eqb_refl. cbn [negb].
    step0. step0.
    split.
    { symmetry. rewrite (drop_S _ _ _ Hxi). rewrite drop_ge by lia. reflexivity. }
    split; [exact Hok|]. split; [auto | eauto].
  - destruct (lookup_lt_is_Some_2 ps (Datatypes.S i) ltac:(lia)) as [pn Hpn].
    destruct (lookup_lt_is_Some_2 xs (Datatypes.S i) ltac:(lia)) as [xn Hxn].
    destruct (chain_lookup_index _ _ _ _ _ _ _ Hc Hpn Hxn) as (Hpnn & Hpnl).
    assert (Hpnps : pn ∈ ps) by (eapply list_elem_of_lookup_2; eauto).
    assert (Hitpn : it <> pn) by (intros ->; contradiction).
    rewrite (hd_drop_lookup _ _ _ _ Hpn).
    rewrite (eqb_NULL_false _ Hpnn). cbn [negb].
    step0. step0. step0. step0. step0. step0.
    replace (wrap64 (Z.of_nat i + 1)) with (Z.of_nat (Datatypes.S i))
      by (rewrite wrap64_small; lia).
    eapply runs_weaken.
    + apply (IH _ ps xs it l (Datatypes.S i) pn xn fuel).
      * solve_ok Hok.
      * wsimpl. apply chain_insert_other; assumption.
      * exact Hit.
      * exact Hitps.
      * exact Hpn.
      * exact Hxn.
      * hlookup.
      * exact Hsz.
      * lia.
      * lia.
    + intros vs w' (-> & Hok' & Hsame & Hiter'). cbv beta. step0.
      split; [symmetry; apply (drop_S _ _ _ Hxi)|].
      split; [exact Hok'|]. split; [|exact Hiter'].
      intros r Hr. rewrite (Hsame r Hr). wsimpl.
      now rewrite lookup_insert_ne by solve_ne.
Qed.

End Collect.

Module Level2Iter.
Import Level2Types Level2 Level2Facts.

Section Sound.
Context {A : Type} (mf : malloc_fn A) (ff : free_fn A) (ainv : A -> gset Z -> Prop).
Hypothesis Hsound : sound_allocator mf ff ainv.
Implicit Types (w : world A).

Abbreviation ok := (world_ok mf ff ainv).

(** [linked_list_create_iterator] inside the list: the iterator is the
    only object that appears. *)
Lemma create_iterator_exact w ll ps xs q (i : nat) pi xi :
  ok w -> list2_at w ll ps xs q -> ps !! i = Some pi -> xs !! i = Some xi ->
  runs (linked_list_create_iterator ll (Z.of_nat i)) w (fun it w' =>
    it <> NULL /\ heap w !! it = None /\
    heap w' !! it = Some (OIter (mkIterator ll pi (Z.of_nat i) xi)) /\
    (forall r, r <> it -> heap w' !! r = heap w !! r) /\ ok w').
Proof.
  intros Hok Hat Hpi Hxi. pose proof Hat as (Hll & Hnd & Hc & Hsz & tl & Hl & Htl).
  pose proof Hok as (Hmf & Hff & _).
  pose proof (lookup_lt_Some _ _ _ Hxi) as Hi.
  pose proof (lookup_lt_Some _ _ _ Hpi) as Hi'.
  destruct (chain_lookup_index _ _ _ _ _ _ _ Hc Hpi Hxi) as (Hpin & Hpil).
  assert (Hpips : pi ∈ ps) by (eapply list_elem_of_lookup_2; eauto).
  unfold linked_list_create_iterator. rewrite (eqb_NULL_false _ Hll).
  step. step. step. step. cbv beta.
  replace (Z.of_nat (length xs) <=? Z.of_nat i) with false
    by (symmetry; apply Z.leb_gt; lia).
  step. step. cbv beta. rewrite Hmf.
  step. apply runs_call_malloc. intros it a' Hm. cbv beta.
  destruct (world_ok_alloc _ _ _ Hsound w _ it a' (as_iterator it (uninit w)) Hok Hm)
    as (Hit & Hfresh & Hok1).
  assert (Hitll : it <> ll) by congruence.
  assert (Hitps : it ∉ ps) by (eapply chain_fresh; eauto).
  assert (Hitpi : it <> pi) by (intros ->; contradiction).
  step. step. step.
  unfold _linked_list_init_iterator. rewrite (eqb_NULL_false _ Hit).
  step. step. step. rewrite Nat2Z.id.
  eapply runs_walk with (xs := xs).
  { wsimpl. apply chain_insert_other; [exact Hitps | exact Hc]. }
  { lia. }
  wsimpl. rewrite (hd_drop_lookup _ _ _ _ Hpi).
  step. step. step. step. step. step.
  split; [exact Hit|]. split; [exact Hfresh|]. split; [hlookup|].
  split.
  - intros r Hr. wsimpl. now rewrite !lookup_insert_ne by solve_ne.
  - solve_ok Hok1.
Qed.

(** X15.  Level 2, a full traversal: an iterator created at index 0 and
    advanced with [linked_list_iterate] until that returns [false] delivers
    the values of the list in order (the chain ending in [NULL]), and once
    the iterator is deleted the heap is exactly what it was. *)
Theorem traverse_in_order w ll ps xs fuel :
  ok w -> list2_at w ll ps xs NULL -> (length xs <= fuel)%nat ->
  runs (traverse2 fuel ll) w (fun vs w' =>
    vs = xs /\ (forall r, heap w' !! r = heap w !! r) /\ ok w').
Proof.
  intros Hok Hat Hfuel. pose proof Hat as (Hll & Hnd & Hc & Hsz & tl & Hl & Htl).
  pose proof (chain_length _ _ _ _ Hc) as Hlen.
  unfold traverse2. step.
  destruct xs as [|x0 xs].
  - destruct ps; [|discriminate].
    exists NULL, w. split.
    { apply create_iterator_out_of_range. right. eexists. split; [exact Hl|].
      cbn [size length]. lia. }
    rewrite Z.eqb_refl. step. auto.
  - destruct ps as [|p0 ps]; [discriminate|].
    eapply runs_weaken;
      [apply (create_iterator_exact w ll (p0 :: ps) (x0 :: xs) NULL 0 p0 x0 Hok Hat);
       reflexivity|].
    intros it w1 (Hit & Hfresh & Hiter & Hsame1 & Hok1). cbv beta.
    assert (Hitps : it ∉ p0 :: ps) by (eapply chain_fresh; eauto).
    assert (Hc1 : chain (heap w1) (p0 :: ps) (x0 :: xs) NULL).
    { eapply chain_ext; [exact Hc|]. intros r Hr. apply Hsame1. intros ->. contradiction. }
    rewrite (eqb_NULL_false _ Hit). step.
    eapply runs_weaken.
    + apply (collect_ok _ _ _ Hsound (length (x0 :: xs)) w1 (p0 :: ps) (x0 :: xs) it ll 0 p0 x0 fuel
               Hok1 Hc1 Hit); try reflexivity; try assumption; try lia.
    + intros vs w2 (-> & Hok2 & Hsame & it' & Hiter2). cbv beta.
      step. unfold linked_list_delete_iterator. rewrite (eqb_NULL_false _ Hit).
      step. step. cbv beta. destruct Hok2 as (Hmf2 & Hff2 & Hrest2). rewrite Hff2.
      step. step. step. step.
      split; [apply drop_0|]. split.
      * intros r. wsimpl. destruct (decide (r = it)) as [->|Hne].
        { rewrite lookup_delete_eq. now rewrite Hfresh. }
        rewrite lookup_delete_ne by solve_ne. rewrite (Hsame r Hne).
        now apply Hsame1.
      * apply (world_ok_free _ _ _ Hsound w2 it). repeat split; tauto.
Qed.

End Sound.
End Level2Iter.

(** ** The lists above on concrete worlds *)

Lemma list2_zeroed_ok : world_ok endless_malloc endless_free endless_inv list2_zeroed.
Proof.
  unfold world_ok. do 4 (split; [reflexivity|]).
  apply endless_inv_below; [reflexivity|].
  intros p [o Hp]. cbn [heap list2_zeroed] in Hp.
  repeat (rewrite lookup_insert in Hp; case_decide; [subst; reflexivity|]).
  rewrite lookup_empty in Hp. discriminate.
Qed.

Lemma nodup_three : NoDup [4160; 4224; 4288].
Proof.
  apply NoDup_cons. split.
  - intros H. apply elem_of_cons in H as [H|H]; [discriminate|].
    apply list_elem_of_singleton in H. discriminate.
  - apply NoDup_cons. split.
    + intros H. apply list_elem_of_singleton in H. discriminate.
    + apply NoDup_singleton.
Qed.

Lemma list2_zeroed_at :
  list2_at list2_zeroed 4096 [4160; 4224; 4288] [10; 20; 30] NULL.
Proof.
  split; [discriminate|]. split; [exact nodup_three|]. split.
  { cbn. repeat split; discriminate. }
  split; [discriminate|]. exists 4288. split; [reflexivity|].
  intros p [= <-]. reflexivity.
Qed.

Lemma not_in_10_20 (v : Z) : v <> 10 -> v <> 20 -> v ∉ [10; 20].
Proof.
  intros H1 H2 H. apply elem_of_cons in H as [H|H]; [contradiction|].
  apply list_elem_of_singleton in H. contradiction.
Qed.

Lemma insert_at_any_index_witness :
  runs (Level2.linked_list_insert 4096 (Z.of_nat 1) 15) list2_world (fun b w' =>
    b = true /\ exists p q',
      heap list2_world !! p = None /\
      list2_at w' 4096 (take 1 [4160; 4224] ++ p :: drop 1 [4160; 4224])
                       (take 1 [10; 20] ++ 15 :: drop 1 [10; 20]) q' /\
      ((1 < length [10; 20])%nat -> q' = 57005) /\
      world_ok endless_malloc endless_free endless_inv w' /\
      frame_on (4096 :: [4160; 4224]) list2_world w').
Proof.
  apply (Level2More.insert_at_any_index endless_malloc endless_free endless_inv
           endless_sound list2_world 4096 [4160; 4224] [10; 20] 57005 1 15).
  - exact list2_world_ok.
  - exact list2_world_at.
  - simpl. lia.
  - unfold SIZE_MAX. simpl. lia.
Defined.

Lemma remove_at_any_index_witness :
  runs (Level2.linked_list_remove 4096 (Z.of_nat 1)) list2_world (fun b w' =>
    b = true /\
    list2_at w' 4096 (delete 1%nat [4160; 4224]) (delete 1%nat [10; 20]) 57005 /\
    (forall r, [4160; 4224] !! 1%nat = Some r -> heap w' !! r = None) /\
    world_ok endless_malloc endless_free endless_inv w' /\
    frame_on (4096 :: [4160; 4224]) list2_world w').
Proof.
  apply (Level2More.remove_at_any_index endless_malloc endless_free endless_inv
           endless_sound list2_world 4096 [4160; 4224] [10; 20] 57005 1).
  - exact list2_world_ok.
  - exact list2_world_at.
  - simpl. lia.
Defined.

Lemma out_of_range_rejected_witness :
  (4096 = NULL \/ Level2Types.size (Level2Types.mkList 4160 4224 2) < 5 ->
   Level2.linked_list_insert 4096 5 7 list2_world = Ret (false, list2_world)) /\
  Level2.linked_list_remove 4096 5 list2_world = Ret (false, list2_world) /\
  Level2.linked_list_create_iterator 4096 5 list2_world = Ret (NULL, list2_world).
Proof.
  apply (Level2More.out_of_range_rejected list2_world 4096
           (Level2Types.mkList 4160 4224 2) 5 7).
  right. split; [reflexivity | simpl; lia].
Defined.

Lemma find_first_occurrence_witness :
  Level2.linked_list_find 5 4096 20 list2_world = Ret (Z.of_nat 1, list2_world).
Proof.
  apply (Level2Walk.find_first_occurrence list2_world 4096 [4160; 4224] [10; 20] 57005 20 1 5).
  - exact list2_world_at.
  - reflexivity.
  - intros j x Hj Hx. destruct j as [|j]; [|lia]. injection Hx as <-. discriminate.
  - lia.
Defined.

Lemma find_absent_witness :
  (57005 = NULL -> Level2.linked_list_find 5 4096 99 list2_world = Ret (SIZE_MAX, list2_world)) /\
  (57005 <> NULL -> heap list2_world !! 57005 = None ->
   Level2.linked_list_find 5 4096 99 list2_world = Stop WildAccess).
Proof.
  apply (Level2Walk.find_absent list2_world 4096 [4160; 4224] [10; 20] 57005 99 5).
  - exact list2_world_at.
  - apply not_in_10_20; discriminate.
  - simpl. lia.
Defined.

Lemma delete_frees_or_faults_witness :
  (57005 = NULL ->
   runs (Level2.linked_list_delete 5 4096) list2_world (fun b w' =>
     b = true /\ (forall r, r ∈ 4096 :: [4160; 4224] -> heap w' !! r = None) /\
     world_ok endless_malloc endless_free endless_inv w' /\
     frame_on (4096 :: [4160; 4224]) list2_world w')) /\
  (57005 <> NULL -> heap list2_world !! 57005 = None ->
   Level2.linked_list_delete 5 4096 list2_world = Stop WildAccess).
Proof.
  apply (Level2Walk.delete_frees_or_faults endless_malloc endless_free endless_inv
           endless_sound list2_world 4096 [4160; 4224] [10; 20] 57005 5).
  - exact list2_world_ok.
  - exact list2_world_at.
  - simpl. lia.
Defined.

Lemma traverse_in_order_witness :
  runs (traverse2 5 4096) list2_zeroed (fun vs w' =>
    vs = [10; 20; 30] /\ (forall r, heap w' !! r = heap list2_zeroed !! r) /\
    world_ok endless_malloc endless_free endless_inv w').
Proof.
  apply (Level2Iter.traverse_in_order endless_malloc endless_free endless_inv
           endless_sound list2_zeroed 4096 [4160; 4224; 4288] [10; 20; 30] 5).
  - exact list2_zeroed_ok.
  - exact list2_zeroed_at.
  - simpl. lia.
Defined.

(** ** The queue: peeking, popping, deleting *)

Module QueueMore.
Import Level2Types Level2 Level2Facts.

Section Sound.
Context {A : Type} (mf : malloc_fn A) (ff : free_fn A) (ainv : A -> gset Z -> Prop).
Hypothesis Hsound : sound_allocator mf ff ainv.
Implicit Types (w : world A).

Abbreviation ok := (world_ok mf ff ainv).

(** X16.  [queue_next] on a queue that is not empty delivers the oldest
    value and leaves the queue as it was -- but the iterator it allocates to
    read that value is never freed: after the call one more object is live,
    an iterator standing on the first node. *)
Theorem queue_next_leaks_iterator w qa p ps x xs q d :
  ok w -> queue_at w qa (p :: ps) (x :: xs) q ->
  runs (queue_next qa d) w (fun r w' =>
    r = (true, x) /\ queue_at w' qa (p :: ps) (x :: xs) q /\ ok w' /\
    exists it ll,
      heap w !! it = None /\
      heap w' !! it = Some (OIter (mkIterator ll p 0 x)) /\
      (forall r, r <> it -> heap w' !! r = heap w !! r)).
Proof.
  intros Hok Hqat. pose proof Hqat as (Hqa & ll & Hq & _).
  destruct (queue_at_not_list _ _ _ _ _ _ Hqat Hq) as (Hat & Hqall & Hqaps).
  unfold queue_next. step. unfold queue_has_next. rewrite (eqb_NULL_false _ Hqa).
  step. eapply queue_size_ok; [exact Hqat|]. step. cbv beta.
  replace (0 <? Z.of_nat (length (x :: xs))) with true
    by (symmetry; apply Z.ltb_lt; simpl length; lia).
  cbn [negb]. step. step. wsimpl. step.
  eapply runs_weaken;
    [apply (Level2Iter.create_iterator_exact _ _ _ Hsound w ll (p :: ps) (x :: xs) q O p x Hok Hat);
     reflexivity|].
  intros it w1 (Hit & Hitfresh & Hiter & Hsame & Hok1). cbv beta.
  rewrite (eqb_NULL_false _ Hit). step. step. step.
  split; [reflexivity|]. split; [|split; [exact Hok1|]].
  - assert (Hitqa : qa <> it) by congruence.
    split; [exact Hqa|]. exists ll. split; [rewrite (Hsame qa Hitqa); exact Hq|].
    eapply list2_at_ext; [exact Hat|]. intros r Hr. apply Hsame. intros ->.
    destruct Hat as (_ & _ & Hc & _ & tl & Hl & _).
    apply elem_of_cons in Hr as [->|Hr]; [congruence|].
    eapply chain_fresh; eauto.
  - exists it, ll. auto.
Qed.

(** X17.  [queue_pop] on a queue that is not empty delivers the oldest
    value, frees its node and leaves the rest queued -- and leaves behind the
    iterator [queue_next] allocated, which still points at the freed
    node. *)
Theorem queue_pop_leaves_iterator w qa p ps x xs q d :
  ok w -> queue_at w qa (p :: ps) (x :: xs) q ->
  runs (queue_pop qa d) w (fun r w' =>
    r = (true, x) /\ queue_at w' qa ps xs q /\ ok w' /\
    heap w' !! p = None /\
    exists it ll,
      heap w !! it = None /\
      heap w' !! it = Some (OIter (mkIterator ll p 0 x))).
Proof.
  intros Hok Hqat. pose proof Hqat as (Hqa & ll & Hq & _).
  destruct (queue_at_not_list _ _ _ _ _ _ Hqat Hq) as (Hat & Hqall & Hqaps).
  unfold queue_pop. rewrite (eqb_NULL_false _ Hqa). step.
  unfold queue_next. step. unfold queue_has_next. rewrite (eqb_NULL_false _ Hqa).
  step. eapply queue_size_ok; [exact Hqat|]. step. cbv beta.
  replace (0 <? Z.of_nat (length (x :: xs))) with true
    by (symmetry; apply Z.ltb_lt; simpl length; lia).
  cbn [negb]. step. step. wsimpl. step.
  eapply runs_weaken;
    [apply (Level2Iter.create_iterator_exact _ _ _ Hsound w ll (p :: ps) (x :: xs) q O p x Hok Hat);
     reflexivity|].
  intros it w1 (Hit & Hitfresh & Hiter & Hsame & Hok1). cbv beta.
  rewrite (eqb_NULL_false _ Hit).
  assert (Hitqa : qa <> it) by congruence.
  assert (Hq1 : heap w1 !! qa = Some (OQueue (mkQueue ll))) by (rewrite (Hsame qa Hitqa); exact Hq).
  assert (Hitps : it ∉ ll :: p :: ps).
  { destruct Hat as (_ & _ & Hc & _ & tl & Hl & _). intros Hr.
    apply elem_of_cons in Hr as [->|Hr]; [congruence|].
    revert Hr. eapply chain_fresh; eauto. }
  assert (Hat1 : list2_at w1 ll (p :: ps) (x :: xs) q).
  { eapply list2_at_ext; [exact Hat|]. intros r Hr. apply Hsame. intros ->. contradiction. }
  step. step. step. cbn [fst snd negb]. step. step. wsimpl. step.
  eapply runs_weaken; [apply (Level2More.remove_front_frees _ _ _ Hsound w1 ll p ps x xs q Hok1 Hat1)|].
  intros b w2 (-> & Hat2 & Hfree & Hok2 & Hfr2). cbv beta. step.
  split; [reflexivity|]. split; [|split; [exact Hok2|split; [exact Hfree|]]].
  - split; [exact Hqa|]. exists ll. split; [|exact Hat2].
    apply Hfr2; [|exact Hq1]. intros Hin.
    apply elem_of_cons in Hin as [Hin|Hin]; contradiction.
  - exists it, ll. split; [exact Hitfresh|]. apply Hfr2; assumption.
Qed.

(** X18.  Any sequence of [queue_push] and [queue_pop] calls behaves as the
    same operations on a first-in-first-out sequence: every push returns
    [true], every pop of a queue that holds something returns [true] with the
    oldest value, every pop of an empty queue returns [false] and leaves the
    caller's variable alone; the queue then holds what the sequence
    holds. *)
Theorem queue_refines_fifo (ops : list qop) : forall w qa ps xs q,
  ok w -> queue_at w qa ps xs q ->
  Z.of_nat (length xs + length ops) <= SIZE_MAX ->
  exists w' ps' q',
    run_ops qa ops w = Ret (fifo_ops xs ops, w') /\
    queue_at w' qa ps' (fifo_after xs ops) q' /\
    ok w'.
Proof.
  induction ops as [|[v|] ops IH]; intros w qa ps xs q Hok Hqat Hb.
  - exists w, ps, q. split; [reflexivity | split; assumption].
  - destruct (queue_push_ok _ _ _ Hsound w qa ps xs q v Hok Hqat)
      as (b & w1 & Hrun & -> & p & q1 & Hqat1 & _ & Hok1).
    { simpl length in Hb. lia. }
    destruct (IH w1 qa _ _ _ Hok1 Hqat1) as (w' & ps' & q' & Hrest & Hqat' & Hok').
    { rewrite length_app. simpl length in *. lia. }
    exists w', ps', q'. split; [|split; assumption].
    cbn [run_ops fifo_ops]. rewrite (bind_ret_inv _ _ _ _ _ Hrun).
    rewrite (bind_ret_inv _ _ _ _ _ Hrest). reflexivity.
  - destruct xs as [|x xs].
    + assert (ps = []).
      { destruct Hqat as (_ & ll & _ & _ & _ & Hc & _).
        now apply (chain_nil_iff _ _ _ _ Hc). }
      subst ps.
      pose proof (queue_pop_empty w qa q 0 Hqat) as Hrun.
      destruct (IH w qa _ _ _ Hok Hqat) as (w' & ps' & q' & Hrest & Hqat' & Hok').
      { simpl length in *. lia. }
      exists w', ps', q'. split; [|split; assumption].
      cbn [run_ops fifo_ops]. rewrite (bind_ret_inv _ _ _ _ _ Hrun).
      rewrite (bind_ret_inv _ _ _ _ _ Hrest). reflexivity.
    + destruct ps as [|p ps].
      { destruct Hqat as (_ & ll & _ & _ & _ & Hc & _). simpl in Hc. tauto. }
      destruct (queue_pop_ok _ _ _ Hsound w qa p ps x xs q 0 Hok Hqat)
        as (r & w1 & Hrun & -> & Hqat1 & Hok1).
      destruct (IH w1 qa _ _ _ Hok1 Hqat1) as (w' & ps' & q' & Hrest & Hqat' & Hok').
      { simpl length in *. lia. }
      exists w', ps', q'. split; [|split; assumption].
      cbn [run_ops fifo_ops]. rewrite (bind_ret_inv _ _ _ _ _ Hrun).
      rewrite (bind_ret_inv _ _ _ _ _ Hrest). reflexivity.
Qed.

(** X19.  [queue_delete] of a queue whose list ends in [NULL] returns
    [true] having freed the queue header, the list header and every node;
    no other live object is touched. *)
Theorem queue_delete_frees_all w qa ps xs fuel :
  ok w -> queue_at w qa ps xs NULL -> (length ps < fuel)%nat ->
  runs (queue_delete fuel qa) w (fun b w' =>
    b = true /\ heap w' !! qa = None /\
    (forall ll, heap w !! qa = Some (OQueue (mkQueue ll)) ->
       forall r, r ∈ ll :: ps -> heap w' !! r = None) /\
    (forall ll r o, heap w !! qa = Some (OQueue (mkQueue ll)) ->
       r ∉ qa :: ll :: ps -> heap w !! r = Some o -> heap w' !! r = Some o) /\
    ok w').
Proof.
  intros Hok Hqat Hf. pose proof Hqat as (Hqa & ll & Hq & _).
  destruct (queue_at_not_list _ _ _ _ _ _ Hqat Hq) as (Hat & Hqall & Hqaps).
  unfold queue_delete. rewrite (eqb_NULL_false _ Hqa). step. step. wsimpl. step.
  eapply runs_weaken;
    [apply (Level2Walk.delete_frees_all _ _ _ Hsound w ll ps xs fuel Hok Hat Hf)|].
  intros b w1 (-> & Hgone & Hok1 & Hfr1). cbv beta.
  step. step. cbv beta. destruct Hok1 as (Hmf1 & Hff1 & Hqmf1 & Hqff1 & Hinv1).
  rewrite Hqff1. step. step. step. split; [reflexivity|].
  split; [wsimpl; apply lookup_delete_eq|]. split; [|split].
  - intros ll' Hq' r Hr. rewrite Hq in Hq'. injection Hq' as <-. wsimpl.
    destruct (decide (r = qa)) as [->|Hne];
      [apply lookup_delete_eq | rewrite lookup_delete_ne by solve_ne; now apply Hgone].
  - intros ll' r o Hq' Hr Hro. rewrite Hq in Hq'. injection Hq' as <-.
    apply not_elem_of_cons in Hr as [Hrq Hr]. wsimpl.
    rewrite lookup_delete_ne by solve_ne. now apply Hfr1.
  - apply (world_ok_free _ _ _ Hsound w1 qa). repeat split; assumption.
Qed.

End Sound.

Section Degenerate.
Context {A : Type}.
Implicit Types (w : world A).

Lemma load_queue_eq w qa qq :
  qa <> NULL -> heap w !! qa = Some (OQueue qq) -> load_queue qa w = Ret (qq, w).
Proof.
  intros Hp Hl. unfold load_queue, load, bind. now rewrite Hl, (eqb_NULL_false _ Hp).
Qed.

(** X20.  A queue whose list could not be created ([queue->ll] is [NULL],
    which [queue_create] hands out when [linked_list_create] fails):
    [queue_size] is [SIZE_MAX], so [queue_has_next] says [true], yet
    [queue_next] and [queue_pop] return [false] without touching the
    caller's variable and [queue_push] returns [false]; none of them changes
    anything.  [queue_delete] frees the queue header and returns [true]. *)
Theorem queue_without_list w qa d v fuel (f : free_fn A) :
  qa <> NULL -> heap w !! qa = Some (OQueue (mkQueue NULL)) ->
  q_free_fptr w = Some f ->
  queue_size qa w = Ret (SIZE_MAX, w) /\
  queue_has_next qa w = Ret (true, w) /\
  queue_next qa d w = Ret ((false, d), w) /\
  queue_pop qa d w = Ret ((false, d), w) /\
  queue_push qa v w = Ret (false, w) /\
  queue_delete fuel qa w
  = Ret (true, with_heap (delete qa (heap w)) (with_astate (f qa (astate w)) w)).
Proof.
  intros Hqa Hq Hf.
  pose proof (load_queue_eq w qa _ Hqa Hq) as Hload.
  assert (Hsize : queue_size qa w = Ret (SIZE_MAX, w)).
  { unfold queue_size. rewrite (eqb_NULL_false _ Hqa).
    rewrite (bind_ret_inv _ _ _ _ _ Hload). reflexivity. }
  assert (Hhas : queue_has_next qa w = Ret (true, w)).
  { unfold queue_has_next. rewrite (eqb_NULL_false _ Hqa).
    rewrite (bind_ret_inv _ _ _ _ _ Hsize). reflexivity. }
  assert (Hnext : queue_next qa d w = Ret ((false, d), w)).
  { unfold queue_next. rewrite (bind_ret_inv _ _ _ _ _ Hhas). cbn [negb].
    rewrite (bind_ret_inv _ _ _ _ _ Hload). reflexivity. }
  split; [exact Hsize|]. split; [exact Hhas|]. split; [exact Hnext|].
  split; [|split].
  - unfold queue_pop. rewrite (eqb_NULL_false _ Hqa).
    rewrite (bind_ret_inv _ _ _ _ _ Hnext). reflexivity.
  - unfold queue_push. rewrite (eqb_NULL_false _ Hqa).
    rewrite (bind_ret_inv _ _ _ _ _ Hload). reflexivity.
  - unfold queue_delete. rewrite (eqb_NULL_false _ Hqa).
    rewrite (bind_ret_inv _ _ _ _ _ Hload). cbn [q_ll].
    change (linked_list_delete fuel NULL) with (@ret (world A) bool false).
    rewrite bind_ret, bind_get, Hf. reflexivity.
Qed.

(** X21.  On an empty queue [queue_has_next] is [false], [queue_next] and
    [queue_pop] return [false] and leave the caller's variable as it was,
    and none of them allocates or changes anything. *)
Theorem empty_queue_refuses w qa q d :
  queue_at w qa [] [] q ->
  queue_size qa w = Ret (0, w) /\
  queue_has_next qa w = Ret (false, w) /\
  queue_next qa d w = Ret ((false, d), w) /\
  queue_pop qa d w = Ret ((false, d), w).
Proof.
  intros (Hqa & ll & Hq & Hll & Hnd & Hc & Hsz & tl & Hl & Htl).
  pose proof (load_queue_eq w qa _ Hqa Hq) as Hload.
  assert (Hsize : queue_size qa w = Ret (0, w)).
  { unfold queue_size. rewrite (eqb_NULL_false _ Hqa).
    rewrite (bind_ret_inv _ _ _ _ _ Hload). cbn [q_ll].
    unfold linked_list_size. rewrite (eqb_NULL_false _ Hll).
    rewrite (bind_ret_inv _ _ _ _ _ (Level2Walk.load_list_eq w ll _ Hll Hl)).
    reflexivity. }
  assert (Hhas : queue_has_next qa w = Ret (false, w)).
  { unfold queue_has_next. rewrite (eqb_NULL_false _ Hqa).
    rewrite (bind_ret_inv _ _ _ _ _ Hsize). reflexivity. }
  assert (Hnext : queue_next qa d w = Ret ((false, d), w)).
  { unfold queue_next. rewrite (bind_ret_inv _ _ _ _ _ Hhas). reflexivity. }
  split; [exact Hsize|]. split; [exact Hhas|]. split; [exact Hnext|].
  unfold queue_pop. rewrite (eqb_NULL_false _ Hqa).
  rewrite (bind_ret_inv _ _ _ _ _ Hnext). reflexivity.
Qed.

End Degenerate.
End QueueMore.

Example queue_world_one_built :
  Level2.queue_push 4096 10 queue_world = Ret (true, queue_world_one).
Proof. vm_compute. reflexivity. Qed.

Lemma queue_world_one_ok :
  world_ok endless_malloc endless_free endless_inv queue_world_one.
Proof.
  unfold world_ok. do 4 (split; [reflexivity|]).
  apply endless_inv_below; [reflexivity|].
  intros p [o Hp]. cbn [heap queue_world_one] in Hp.
  repeat (rewrite lookup_insert in Hp; case_decide; [subst; reflexivity|]).
  rewrite lookup_empty in Hp. discriminate.
Qed.

Lemma queue_world_one_at : queue_at queue_world_one 4096 [4224] [10] NULL.
Proof.
  split; [discriminate|]. exists 4160. split; [reflexivity|].
  split; [discriminate|]. split; [apply NoDup_singleton|]. split.
  { cbn. repeat split; discriminate. }
  split; [discriminate|]. exists 4224. split; [reflexivity|].
  intros p [= <-]. reflexivity.
Qed.

Lemma queue_next_leaks_iterator_witness :
  runs (Level2.queue_next 4096 0) queue_world_one (fun r w' =>
    r = (true, 10) /\ queue_at w' 4096 [4224] [10] NULL /\
    world_ok endless_malloc endless_free endless_inv w' /\
    exists it ll,
      heap queue_world_one !! it = None /\
      heap w' !! it = Some (OIter (mkIterator ll 4224 0 10)) /\
      (forall r, r <> it -> heap w' !! r = heap queue_world_one !! r)).
Proof.
  apply (QueueMore.queue_next_leaks_iterator endless_malloc endless_free endless_inv
           endless_sound queue_world_one 4096 4224 [] 10 [] NULL 0).
  - exact queue_world_one_ok.
  - exact queue_world_one_at.
Defined.

Lemma queue_pop_leaves_iterator_witness :
  runs (Level2.queue_pop 4096 0) queue_world_one (fun r w' =>
    r = (true, 10) /\ queue_at w' 4096 [] [] NULL /\
    world_ok endless_malloc endless_free endless_inv w' /\
    heap w' !! 4224 = None /\
    exists it ll,
      heap queue_world_one !! it = None /\
      heap w' !! it = Some (OIter (mkIterator ll 4224 0 10))).
Proof.
  apply (QueueMore.queue_pop_leaves_iterator endless_malloc endless_free endless_inv
           endless_sound queue_world_one 4096 4224 [] 10 [] NULL 0).
  - exact queue_world_one_ok.
  - exact queue_world_one_at.
Defined.

Lemma queue_refines_fifo_witness :
  exists w' ps' q',
    run_ops 4096 [QPush 1; QPop; QPop; QPush 2; QPush 3; QPop] queue_world
    = Ret (fifo_ops [] [QPush 1; QPop; QPop; QPush 2; QPush 3; QPop], w') /\
    queue_at w' 4096 ps' (fifo_after [] [QPush 1; QPop; QPop; QPush 2; QPush 3; QPop]) q' /\
    world_ok endless_malloc endless_free endless_inv w'.
Proof.
  apply (QueueMore.queue_refines_fifo endless_malloc endless_free endless_inv
           endless_sound [QPush 1; QPop; QPop; QPush 2; QPush 3; QPop]
           queue_world 4096 [] [] NULL).
  - exact queue_world_ok.
  - exact queue_world_at.
  - unfold SIZE_MAX. simpl. lia.
Defined.

Lemma queue_delete_frees_all_witness :
  runs (Level2.queue_delete 3 4096) queue_world_one (fun b w' =>
    b = true /\ heap w' !! 4096 = None /\
    (forall ll, heap queue_world_one !! 4096 = Some (OQueue (Level2Types.mkQueue ll)) ->
       forall r, r ∈ ll :: [4224] -> heap w' !! r = None) /\
    (forall ll r o, heap queue_world_one !! 4096 = Some (OQueue (Level2Types.mkQueue ll)) ->
       r ∉ 4096 :: ll :: [4224] -> heap queue_world_one !! r = Some o ->
       heap w' !! r = Some o) /\
    world_ok endless_malloc endless_free endless_inv w').
Proof.
  apply (QueueMore.queue_delete_frees_all endless_malloc endless_free endless_inv
           endless_sound queue_world_one 4096 [4224] [10] 3).
  - exact queue_world_one_ok.
  - exact queue_world_one_at.
  - simpl. lia.
Defined.

Lemma queue_without_list_witness :
  Level2.queue_size 4096 queue_world_no_list = Ret (SIZE_MAX, queue_world_no_list) /\
  Level2.queue_has_next 4096 queue_world_no_list = Ret (true, queue_world_no_list) /\
  Level2.queue_next 4096 7 queue_world_no_list = Ret ((false, 7), queue_world_no_list) /\
  Level2.queue_pop 4096 7 queue_world_no_list = Ret ((false, 7), queue_world_no_list) /\
  Level2.queue_push 4096 5 queue_world_no_list = Ret (false, queue_world_no_list) /\
  Level2.queue_delete 3 4096 queue_world_no_list
  = Ret (true, with_heap (delete 4096 (heap queue_world_no_list))
                 (with_astate (endless_free 4096 (astate queue_world_no_list))
                    queue_world_no_list)).
Proof.
  apply (QueueMore.queue_without_list queue_world_no_list 4096 7 5 3 endless_free).
  - discriminate.
  - reflexivity.
  - reflexivity.
Defined.

Lemma empty_queue_refuses_witness :
  Level2.queue_size 4096 queue_world = Ret (0, queue_world) /\
  Level2.queue_has_next 4096 queue_world = Ret (false, queue_world) /\
  Level2.queue_next 4096 7 queue_world = Ret ((false, 7), queue_world) /\
  Level2.queue_pop 4096 7 queue_world = Ret ((false, 7), queue_world).
Proof.
  apply (QueueMore.empty_queue_refuses queue_world 4096 NULL 7).
  exact queue_world_at.
Defined.

(** ** Level 1: insertion and removal at any index, search, traversal *)

Module Level1More.
Import Level1Types Level1 Level1Facts.

Section Sound.
Context {A : Type} (mf : malloc_fn A) (ff : free_fn A) (ainv : A -> gset Z -> Prop).
Hypothesis Hsound : sound_allocator mf ff ainv.
Implicit Types (w : world A).

Abbreviation ok := (world_ok mf ff ainv).

(** X22.  Level 1, [linked_list_insert] at any index from 0 to the size: it
    returns [true], the list then holds the old values with the new one at
    that index, in one freshly allocated node, the chain still ends in
    [NULL], the size is one more, and no other live object is touched. *)
Theorem insert1_at_any_index w ll ps xs (i : nat) v :
  ok w -> list1_at w ll ps xs -> (i <= length xs)%nat ->
  Z.of_nat (length xs) < SIZE_MAX ->
  runs (linked_list_insert ll (Z.of_nat i) v) w (fun b w' =>
    b = true /\ exists p,
      heap w !! p = None /\
      list1_at w' ll (take i ps ++ p :: drop i ps) (take i xs ++ v :: drop i xs) /\
      ok w' /\ frame_on (ll :: ps) w w').
Proof.
  intros Hok (Hll & Hnd & Hc & Hsz & Hl) Hi Hlt.
  pose proof Hok as (Hmf & Hff & _).
  pose proof (chain_length _ _ _ _ Hc) as Hlen.
  assert (Hllps : ll ∉ ps).
  { eapply chain_not_header; [exact Hc|]. intros n0. rewrite Hl. discriminate. }
  assert (Hlldom : ll ∈ dom (heap w)) by (eapply in_dom_of_lookup; eauto).
  unfold linked_list_insert. rewrite (eqb_NULL_false _ Hll).
  step. step. step. step. cbv beta.
  replace (Z.of_nat (length xs) <? Z.of_nat i) with false
    by (symmetry; apply Z.ltb_ge; lia).
  step. step. step. rewrite Nat2Z.id.
  eapply runs_walk with (xs := xs); [exact Hc | lia |].
  cbn [hd fst snd].
  step. step. cbv beta. rewrite Hmf.
  step. apply runs_call_malloc. intros p a' Hm. cbv beta.
  destruct (world_ok_alloc _ _ _ Hsound w _ p a' (as_node p (uninit w)) Hok Hm)
    as (Hp & Hfresh & Hok1).
  assert (Hpll : p <> ll) by congruence.
  assert (Hpps : p ∉ ps) by (eapply chain_fresh; eauto).
  unfold as_node in *.
  assert (Hlen' : length (take i xs ++ v :: drop i xs) = Datatypes.S (length xs)).
  { rewrite length_app. simpl length. rewrite length_take, length_drop. lia. }
  assert (Hwrap : wrap64 (Z.of_nat (length xs) + 1)
                  = Z.of_nat (length (take i xs ++ v :: drop i xs))).
  { rewrite Hlen'. rewrite wrap64_small; lia. }
  assert (Hnd' : NoDup (take i ps ++ p :: drop i ps)).
  { rewrite <- (take_drop i ps) in Hnd, Hpps.
    apply NoDup_app in Hnd as (Hnd1 & Hdisj & Hnd2).
    apply not_elem_of_app in Hpps as [Hp1 Hp2].
    apply NoDup_app. split; [exact Hnd1|]. split.
    - intros r Hr Hr'. apply elem_of_cons in Hr' as [-> | Hr'];
        [contradiction | now apply (Hdisj r)].
    - now apply NoDup_cons. }
  assert (Hframe : forall h' : gmap Z obj,
            (forall r, r <> ll -> r <> p -> r ∉ ps -> h' !! r = heap w !! r) ->
            forall r o, r ∉ ll :: ps -> heap w !! r = Some o -> h' !! r = Some o).
  { intros h' Hh' r o Hr Hro. apply not_elem_of_cons in Hr as [Hr Hr'].
    rewrite Hh'; [exact Hro | exact Hr | congruence | exact Hr']. }
  step. step. step. step. step. step. step. step.
  destruct ps as [|p0 ps0] eqn:Eps.
  - (* the empty list *)
    assert (xs = []) by (now apply (chain_nil_iff _ _ _ _ Hc)). subst xs.
    assert (i = O) by (simpl in Hi; lia). subst i.
    cbn [hd]. rewrite Z.eqb_refl. steps.
    split; [reflexivity|]. exists p. split; [exact Hfresh|].
    split; [|split; [solve_ok Hok1|]].
    + split; [exact Hll|]. split; [exact Hnd'|]. split.
      { cbn. split; [exact Hp|]. split; [hlookup | exact I]. }
      split; [simpl; unfold SIZE_MAX; lia|]. rewrite <- Hwrap. hlookup.
    + unfold frame_on. wsimpl. apply Hframe. intros r Hr1 Hr2 _. wsimpl.
      now rewrite !lookup_insert_ne by solve_ne.
  - rewrite <- Eps in *.
    assert (Hp0 : hd NULL ps <> NULL).
    { subst ps. destruct xs; [simpl in Hc; tauto|]. simpl in Hc. cbn [hd]. tauto. }
    rewrite (eqb_NULL_false _ Hp0).
    destruct i as [|k].
    + (* in front of a list that is not empty *)
      rewrite take_0. change (default NULL (last [])) with NULL. rewrite Z.eqb_refl. cbn [negb].
      steps.
      split; [reflexivity|]. exists p. split; [exact Hfresh|].
      split; [|split; [solve_ok Hok1|]].
      * split; [exact Hll|]. split; [exact Hnd'|]. split.
        { rewrite !take_0, !drop_0. cbn [app chain].
          split; [exact Hp|]. split; [hlookup|].
          repeat (apply chain_insert_other; [assumption|]). exact Hc. }
        split; [lia|]. rewrite <- Hwrap. hlookup.
      * unfold frame_on. wsimpl. apply Hframe. intros r Hr1 Hr2 _. wsimpl.
        now rewrite !lookup_insert_ne by solve_ne.
    + (* behind node [k] *)
      destruct (lookup_lt_is_Some_2 ps k ltac:(lia)) as [prev Hprev].
      destruct (lookup_lt_is_Some_2 xs k ltac:(lia)) as [xprev Hxprev].
      destruct (chain_lookup_index _ _ _ _ _ _ _ Hc Hprev Hxprev) as (Hprevn & Hprevl).
      assert (Hprevps : prev ∈ ps) by (eapply list_elem_of_lookup_2; eauto).
      assert (Hpprev : p <> prev) by (intros ->; contradiction).
      assert (Hprevll : prev <> ll) by (intros ->; contradiction).
      assert (Hprevdom : prev ∈ dom (heap w)) by (eapply in_dom_of_lookup; eauto).
      rewrite (last_take_lookup _ _ _ Hprev). change (default NULL (Some prev)) with prev.
      rewrite (eqb_NULL_false _ Hprevn). cbn [negb].
      steps.
      split; [reflexivity|]. exists p. split; [exact Hfresh|].
      split; [|split; [solve_ok Hok1|]].
      * split; [exact Hll|]. split; [exact Hnd'|]. split.
        { eapply chain_ext.
          - apply (chain_insert_mid (heap w) ps xs NULL k prev xprev p v); eassumption.
          - intros r Hr.
            assert (r <> ll).
            { intros ->. apply elem_of_inserted in Hr as [Hr|Hr]; [congruence | contradiction]. }
            wsimpl. rewrite !(lookup_insert_ne _ ll r) by solve_ne.
            rewrite !insert_insert_eq. reflexivity. }
        split; [lia|]. rewrite <- Hwrap, hd_inserted.
        replace (hd p ps) with (hd NULL ps) by (subst ps; reflexivity).
        hlookup.
      * unfold frame_on. wsimpl. apply Hframe. intros r Hr1 Hr2 Hr3. wsimpl.
        assert (r <> prev) by (intros ->; contradiction).
        now rewrite !lookup_insert_ne by solve_ne.
Qed.

(** X23.  Level 1, [linked_list_remove] at any index below the size: it
    returns [true], the node at that index is freed, the list holds the
    remaining values in order with the size one less, and no other live
    object is touched. *)
Theorem remove1_at_any_index w ll ps xs (i : nat) :
  ok w -> list1_at w ll ps xs -> (i < length xs)%nat ->
  runs (linked_list_remove ll (Z.of_nat i)) w (fun b w' =>
    b = true /\ list1_at w' ll (delete i ps) (delete i xs) /\
    (forall r, ps !! i = Some r -> heap w' !! r = None) /\
    ok w' /\ frame_on (ll :: ps) w w').
Proof.
  intros Hok (Hll & Hnd & Hc & Hsz & Hl) Hi.
  pose proof Hok as (Hmf & Hff & _).
  pose proof (chain_length _ _ _ _ Hc) as Hlen.
  assert (Hllps : ll ∉ ps).
  { eapply chain_not_header; [exact Hc|]. intros n0. rewrite Hl. discriminate. }
  assert (Hlldom : ll ∈ dom (heap w)) by (eapply in_dom_of_lookup; eauto).
  destruct (lookup_lt_is_Some_2 ps i ltac:(lia)) as [r Hr].
  destruct (lookup_lt_is_Some_2 xs i ltac:(lia)) as [xr Hxr].
  destruct (chain_lookup_index _ _ _ _ _ _ _ Hc Hr Hxr) as (Hrn & Hrl).
  assert (Hrps : r ∈ ps) by (eapply list_elem_of_lookup_2; eauto).
  assert (Hrll : r <> ll) by (intros ->; contradiction).
  assert (Hlenxs : length (delete i xs) = (length xs - 1)%nat)
    by (apply length_delete; eauto).
  assert (Hsize : wrap64 (Z.of_nat (length xs) - 1) = Z.of_nat (length (delete i xs))).
  { rewrite Hlenxs. rewrite wrap64_small by lia. lia. }
  assert (Hnd' : NoDup (delete i ps))
    by (eapply sublist_NoDup; [exact Hnd | apply sublist_delete]).
  unfold linked_list_remove. rewrite (eqb_NULL_false _ Hll).
  step. step. step. step. cbv beta.
  replace (Z.of_nat (length xs) <=? Z.of_nat i) with false
    by (symmetry; apply Z.leb_gt; lia).
  destruct i as [|k].
  - (* the first node *)
    destruct ps as [|p ps]; [discriminate|]. destruct xs as [|x xs]; [discriminate|].
    injection Hr as ->. injection Hxr as ->.
    destruct Hc as (_ & _ & Hc). apply NoDup_cons in Hnd as [Hrps' Hnd].
    apply not_elem_of_cons in Hllps as [_ Hllps].
    rewrite Z.eqb_refl. cbn [hd drop delete list_delete] in *.
    step. step. step. step. step. step. step. step. step. cbv beta. wsimpl. rewrite Hff.
    steps. split; [reflexivity|]. split; [|split; [|split]].
    + split; [exact Hll|]. split; [exact Hnd'|]. split.
      { apply chain_insert_other; [assumption|].
        apply chain_delete_other; [assumption|].
        apply chain_insert_other; [assumption|]. exact Hc. }
      split; [lia|]. rewrite <- Hsize. hlookup.
    + intros r' [= <-]. wsimpl. rewrite lookup_insert_ne by solve_ne.
      apply lookup_delete_eq.
    + solve_ok (world_ok_free _ _ _ Hsound w r Hok).
    + intros y o Hy Hyo. apply not_elem_of_cons in Hy as [Hy Hy'].
      apply not_elem_of_cons in Hy' as [Hy' _].
      wsimpl. rewrite lookup_insert_ne by solve_ne.
      rewrite lookup_delete_ne by solve_ne.
      now rewrite lookup_insert_ne by solve_ne.
  - (* behind node [k] *)
    destruct (lookup_lt_is_Some_2 ps k ltac:(lia)) as [prev Hprev].
    destruct (lookup_lt_is_Some_2 xs k ltac:(lia)) as [xprev Hxprev].
    destruct (chain_lookup_index _ _ _ _ _ _ _ Hc Hprev Hxprev) as (Hprevn & Hprevl).
    rewrite (hd_drop_lookup _ _ _ _ Hr) in Hprevl.
    assert (Hprevps : prev ∈ ps) by (eapply list_elem_of_lookup_2; eauto).
    assert (Hprevr : prev <> r).
    { intros ->. pose proof (NoDup_lookup _ _ _ _ Hnd Hprev Hr). lia. }
    assert (Hprevll : prev <> ll) by (intros ->; contradiction).
    assert (Hprevdom : prev ∈ dom (heap w)) by (eapply in_dom_of_lookup; eauto).
    replace (Z.of_nat (Datatypes.S k) =? 0) with false by (symmetry; apply Z.eqb_neq; lia).
    step. step. step. step. rewrite Nat2Z.id.
    eapply runs_walk with (xs := xs); [exact Hc | lia |].
    rewrite (last_take_lookup _ _ _ Hprev). change (default NULL (Some prev)) with prev.
    rewrite (hd_drop_lookup _ _ _ _ Hr). cbn [fst snd].
    step. step. step. step. step. step. step. step. cbv beta. wsimpl. rewrite Hff.
    steps. split; [reflexivity|]. split; [|split; [|split]].
    + split; [exact Hll|]. split; [exact Hnd'|]. split.
      { eapply chain_ext.
        - apply (chain_delete_mid (heap w) ps xs NULL k prev xprev r); eassumption.
        - intros y Hy.
          assert (y <> ll) by (intros ->; apply Hllps; eapply elem_of_deleted; eauto).
          wsimpl. rewrite lookup_insert_ne by solve_ne. reflexivity. }
      split; [lia|]. rewrite <- Hsize, hd_deleted. hlookup.
    + intros r' Hr'. rewrite Hr in Hr'. injection Hr' as <-. wsimpl.
      rewrite lookup_insert_ne by solve_ne. apply lookup_delete_eq.
    + solve_ok (world_ok_free _ _ _ Hsound w r Hok).
    + intros y o Hy Hyo. apply not_elem_of_cons in Hy as [Hy Hy'].
      assert (y <> prev) by (intros ->; contradiction).
      assert (y <> r) by (intros ->; contradiction).
      wsimpl. rewrite lookup_insert_ne by solve_ne.
      rewrite lookup_delete_ne by solve_ne.
      now rewrite !lookup_insert_ne by solve_ne.
Qed.

(** X25.  Level 1, [linked_list_delete] returns [true] having freed every
    node and the header; no other live object is touched. *)
Theorem delete1_frees_all w ll ps xs fuel :
  ok w -> list1_at w ll ps xs -> (length ps < fuel)%nat ->
  runs (linked_list_delete fuel ll) w (fun b w' =>
    b = true /\ (forall r, r ∈ ll :: ps -> heap w' !! r = None) /\
    ok w' /\ frame_on (ll :: ps) w w').
Proof.
  intros Hok (Hll & Hnd & Hc & Hsz & Hl) Hf.
  unfold linked_list_delete. rewrite (eqb_NULL_false _ Hll).
  step. step. step.
  eapply runs_weaken; [apply (delete_loop_frees _ _ _ Hsound w ps xs fuel Hok Hc Hnd Hf)|].
  intros _ w1 (Hok1 & Hfr1 & Hgone & Hnone). cbv beta.
  step. step. cbv beta. destruct Hok1 as (Hmf1 & Hff1 & Hrest1). rewrite Hff1.
  step. step. step.
  split; [reflexivity|]. split; [|split].
  - intros r Hr. wsimpl. apply elem_of_cons in Hr as [->|Hr];
      [apply lookup_delete_eq|].
    destruct (decide (r = ll)) as [->|Hne];
      [apply lookup_delete_eq | rewrite lookup_delete_ne by solve_ne; now apply Hgone].
  - apply (world_ok_free _ _ _ Hsound w1 ll). repeat split; tauto.
  - intros r o Hr Hro. apply not_elem_of_cons in Hr as [Hrl Hr].
    wsimpl. rewrite lookup_delete_ne by solve_ne. now apply Hfr1.
Qed.

(** X26.  Level 1, a full traversal: an iterator created at index 0 and
    advanced with [linked_list_iterate] until that returns [false] delivers
    the values of the list in order, and once the iterator is deleted the
    heap is exactly what it was. *)
Theorem traverse1_in_order w ll ps xs fuel :
  ok w -> list1_at w ll ps xs -> (length xs <= fuel)%nat ->
  runs (traverse1 fuel ll) w (fun vs w' =>
    vs = xs /\ (forall r, heap w' !! r = heap w !! r) /\ ok w').
Proof.
  intros Hok (Hll & Hnd & Hc & Hsz & Hl) Hfuel.
  pose proof Hok as (Hmf & Hff & _).
  pose proof (chain_length _ _ _ _ Hc) as Hlen.
  unfold traverse1. step.
  unfold linked_list_create_iterator. rewrite (eqb_NULL_false _ Hll).
  step. step. step. step. cbv beta.
  destruct xs as [|x0 xs].
  - change (Z.of_nat (length (@nil Z)) <=? 0) with true. cbv iota.
    step. rewrite Z.eqb_refl. step. auto.
  - destruct ps as [|p0 ps]; [discriminate|]. destruct Hc as (Hp0 & Hl0 & Hc').
    replace (Z.of_nat (length (x0 :: xs)) <=? 0) with false
      by (symmetry; apply Z.leb_gt; simpl length; lia).
    cbv iota. step. step. cbv beta. rewrite Hmf.
    step. apply runs_call_malloc. intros it a' Hm. cbv beta.
    destruct (world_ok_alloc _ _ _ Hsound w _ it a' (as_iterator it (uninit w)) Hok Hm)
      as (Hit & Hfresh & Hok1).
    assert (Hitll : it <> ll) by congruence.
    assert (Hitp0 : it <> p0) by congruence.
    assert (Hitps : it ∉ p0 :: ps).
    { eapply chain_fresh; [exact Hfresh|].
      instantiate (1 := NULL). instantiate (1 := x0 :: xs). cbn [chain]. auto. }
    unfold as_iterator in *. rewrite Z.eqb_refl. cbn [hd] in *.
    steps.
    rewrite (eqb_NULL_false _ Hit). step.
    eapply runs_weaken.
    + eapply (collect_ok _ _ _ Hsound (length (x0 :: xs)) _ (p0 :: ps) (x0 :: xs) it ll 0 p0 x0 fuel).
      * solve_ok Hok1.
      * wsimpl. repeat (apply chain_insert_other; [assumption|]). cbn [chain]. eauto.
      * exact Hit.
      * exact Hitps.
      * reflexivity.
      * reflexivity.
      * hlookup.
      * exact Hsz.
      * lia.
      * simpl length in *. lia.
    + intros vs w2 (-> & Hok2 & Hsame & it' & Hiter2). cbv beta.
      step. unfold linked_list_delete_iterator. rewrite (eqb_NULL_false _ Hit).
      step. step. cbv beta. destruct Hok2 as (Hmf2 & Hff2 & Hrest2). rewrite Hff2.
      step. step. step. step.
      split; [apply drop_0|]. split.
      * intros r. wsimpl. destruct (decide (r = it)) as [->|Hne].
        { rewrite lookup_delete_eq. now rewrite Hfresh. }
        rewrite lookup_delete_ne by solve_ne. rewrite (Hsame r Hne). wsimpl.
        now rewrite !lookup_insert_ne by solve_ne.
      * apply (world_ok_free _ _ _ Hsound w2 it). repeat split; tauto.
Qed.

End Sound.

Section Find.
Context {A : Type}.
Implicit Types (w : world A).

Lemma load_list1_eq w ll l :
  ll <> NULL -> heap w !! ll = Some (OList1 l) -> load_list ll w = Ret (l, w).
Proof.
  intros Hp Hl. unfold load_list, load, bind. now rewrite Hl, (eqb_NULL_false _ Hp).
Qed.

(** X24.  Level 1, [linked_list_find]: of a value the list holds, the
    index of its first occurrence; of a value it does not hold, [SIZE_MAX].
    Nothing is changed either way. *)
Theorem find1_first_or_none w ll ps xs v fuel :
  list1_at w ll ps xs -> (length xs < fuel)%nat ->
  (forall k : nat, xs !! k = Some v ->
     (forall j x, (j < k)%nat -> xs !! j = Some x -> x <> v) ->
     linked_list_find fuel ll v w = Ret (Z.of_nat k, w)) /\
  (v ∉ xs -> linked_list_find fuel ll v w = Ret (SIZE_MAX, w)).
Proof.
  intros (Hll & Hnd & Hc & Hsz & Hl) Hfuel.
  pose proof (chain_length _ _ _ _ Hc) as Hlen.
  split.
  - intros k Hk Hfirst. pose proof (lookup_lt_Some _ _ _ Hk) as Hklt.
    assert (Hrun : runs (linked_list_find fuel ll v) w
                     (fun i w' => i = Z.of_nat k /\ w' = w)).
    { unfold linked_list_find. rewrite (eqb_NULL_false _ Hll). step. step.
      eapply (runs_find_loop w ps xs NULL v k fuel 0);
        [exact Hc | exact Hk | exact Hfirst | lia | lia | lia | split; [lia | reflexivity]]. }
    destruct Hrun as (i & w' & Hrun & -> & ->). exact Hrun.
  - intros Hv. unfold linked_list_find. rewrite (eqb_NULL_false _ Hll).
    rewrite (bind_ret_inv _ _ _ _ _ (load_list1_eq w ll _ Hll Hl)). cbn [head].
    replace fuel with (length ps + (fuel - length ps))%nat at 1 by lia.
    rewrite (find_loop_skip w ps xs NULL v _ 0 Hc Hv) by lia.
    destruct (fuel - length ps)%nat as [|fuel'] eqn:Ef; [lia|]. reflexivity.
Qed.

End Find.
End Level1More.

Lemma insert1_at_any_index_witness :
  runs (Level1.linked_list_insert 4096 (Z.of_nat 1) 15) list1_world (fun b w' =>
    b = true /\ exists p,
      heap list1_world !! p = None /\
      list1_at w' 4096 (take 1 [4160; 4224] ++ p :: drop 1 [4160; 4224])
                       (take 1 [10; 20] ++ 15 :: drop 1 [10; 20]) /\
      world_ok endless_malloc endless_free endless_inv w' /\
      frame_on (4096 :: [4160; 4224]) list1_world w').
Proof.
  apply (Level1More.insert1_at_any_index endless_malloc endless_free endless_inv
           endless_sound list1_world 4096 [4160; 4224] [10; 20] 1 15).
  - exact list1_world_ok.
  - exact list1_world_at.
  - simpl. lia.
  - unfold SIZE_MAX. simpl. lia.
Defined.

Lemma remove1_at_any_index_witness :
  runs (Level1.linked_list_remove 4096 (Z.of_nat 1)) list1_world (fun b w' =>
    b = true /\
    list1_at w' 4096 (delete 1%nat [4160; 4224]) (delete 1%nat [10; 20]) /\
    (forall r, [4160; 4224] !! 1%nat = Some r -> heap w' !! r = None) /\
    world_ok endless_malloc endless_free endless_inv w' /\
    frame_on (4096 :: [4160; 4224]) list1_world w').
Proof.
  apply (Level1More.remove1_at_any_index endless_malloc endless_free endless_inv
           endless_sound list1_world 4096 [4160; 4224] [10; 20] 1).
  - exact list1_world_ok.
  - exact list1_world_at.
  - simpl. lia.
Defined.

Lemma find1_first_or_none_witness :
  (forall k : nat, [10; 20] !! k = Some 20 ->
     (forall j x, (j < k)%nat -> [10; 20] !! j = Some x -> x <> 20) ->
     Level1.linked_list_find 5 4096 20 list1_world = Ret (Z.of_nat k, list1_world)) /\
  (20 ∉ [10; 20] -> Level1.linked_list_find 5 4096 20 list1_world = Ret (SIZE_MAX, list1_world)).
Proof.
  apply (Level1More.find1_first_or_none list1_world 4096 [4160; 4224] [10; 20] 20 5).
  - exact list1_world_at.
  - simpl. lia.
Defined.

Lemma delete1_frees_all_witness :
  runs (Level1.linked_list_delete 5 4096) list1_world (fun b w' =>
    b = true /\ (forall r, r ∈ 4096 :: [4160; 4224] -> heap w' !! r = None) /\
    world_ok endless_malloc endless_free endless_inv w' /\
    frame_on (4096 :: [4160; 4224]) list1_world w').
Proof.
  apply (Level1More.delete1_frees_all endless_malloc endless_free endless_inv
           endless_sound list1_world 4096 [4160; 4224] [10; 20] 5).
  - exact list1_world_ok.
  - exact list1_world_at.
  - simpl. lia.
Defined.

Lemma traverse1_in_order_witness :
  runs (traverse1 5 4096) list1_world (fun vs w' =>
    vs = [10; 20] /\ (forall r, heap w' !! r = heap list1_world !! r) /\
    world_ok endless_malloc endless_free endless_inv w').
Proof.
  apply (Level1More.traverse1_in_order endless_malloc endless_free endless_inv
           endless_sound list1_world 4096 [4160; 4224] [10; 20] 5).
  - exact list1_world_ok.
  - exact list1_world_at.
  - simpl. lia.
Defined.

(** ** The harness: clock arithmetic *)

Module HarnessTimeFacts.
Import HarnessTime.

Lemma wrap_long_small z : - 2 ^ 63 <= z < 2 ^ 63 -> wrap_long z = z.
Proof. intros H. unfold wrap_long. rewrite Z.mod_small by lia. lia. Qed.

(** X27.  [compute_timespec_diff(start, stop)] for two clock readings:
    when [start.tv_nsec <= stop.tv_nsec] the result is the elapsed time in
    nanoseconds; in the borrow case it is not -- the nanosecond difference is
    added with the wrong sign -- and the result is off by
    [2 * (start.tv_nsec - stop.tv_nsec) - 1000000000], so it is the elapsed
    time only when the two nanosecond fields are exactly half a second
    apart. *)
Theorem timespec_diff_borrow (start stop : timespec) :
  normal start -> normal stop ->
  (tv_nsec start <= tv_nsec stop ->
   compute_timespec_diff start stop = nanos stop - nanos start) /\
  (tv_nsec stop < tv_nsec start ->
   compute_timespec_diff start stop
   = nanos stop - nanos start + (2 * (tv_nsec start - tv_nsec stop) - 1000000000)).
Proof.
  intros ((Hs1 & Hs2) & (Hn1 & Hn2)) ((Ht1 & Ht2) & (Hm1 & Hm2)).
  unfold compute_timespec_diff, nanos.
  assert (E31 : 2 ^ 31 = 2147483648) by reflexivity.
  assert (E63 : 2 ^ 63 = 9223372036854775808) by reflexivity.
  rewrite (wrap_long_small (tv_sec stop - tv_sec start)) by lia.
  rewrite (wrap_long_small ((tv_sec stop - tv_sec start) * 1000000000)) by nia.
  split; intros Hcmp.
  - destruct (tv_nsec stop <? tv_nsec start) eqn:E; [apply Z.ltb_lt in E; lia|].
    rewrite (wrap_long_small (tv_nsec stop - tv_nsec start)) by lia.
    rewrite wrap_long_small by nia. lia.
  - destruct (tv_nsec stop <? tv_nsec start) eqn:E; [|apply Z.ltb_ge in E; lia].
    rewrite (wrap_long_small (tv_nsec start - tv_nsec stop)) by lia.
    rewrite (wrap_long_small (_ - 1000000000)) by nia.
    rewrite wrap_long_small by nia. lia.
Qed.

Lemma timespec_diff_borrow_witness :
  (tv_nsec (mkTimespec 5 900000000) <= tv_nsec (mkTimespec 6 100000000) ->
   compute_timespec_diff (mkTimespec 5 900000000) (mkTimespec 6 100000000)
   = nanos (mkTimespec 6 100000000) - nanos (mkTimespec 5 900000000)) /\
  (tv_nsec (mkTimespec 6 100000000) < tv_nsec (mkTimespec 5 900000000) ->
   compute_timespec_diff (mkTimespec 5 900000000) (mkTimespec 6 100000000)
   = nanos (mkTimespec 6 100000000) - nanos (mkTimespec 5 900000000)
     + (2 * (tv_nsec (mkTimespec 5 900000000) - tv_nsec (mkTimespec 6 100000000))
        - 1000000000)).
Proof.
  apply (timespec_diff_borrow (mkTimespec 5 900000000) (mkTimespec 6 100000000)).
  - unfold normal. simpl. lia.
  - unfold normal. simpl. lia.
Defined.

(** X28.  [sum_timespec] adds the seconds and the nanoseconds, and on a
    nanosecond sum above one second it adds a second without taking the
    billion nanoseconds out: the total then stands for one second more than
    the sum of the two times, and [tv_nsec] is left at or above one second.
    A nanosecond sum of exactly one second is not carried. *)
Theorem sum_timespec_carry (destination additional_time : timespec) :
  normal destination -> normal additional_time ->
  let r := sum_timespec destination additional_time in
  tv_nsec r = tv_nsec destination + tv_nsec additional_time /\
  nanos r = nanos destination + nanos additional_time
            + (if 1000000000 <? tv_nsec destination + tv_nsec additional_time
               then 1000000000 else 0).
Proof.
  intros ((Hs1 & Hs2) & (Hn1 & Hn2)) ((Ht1 & Ht2) & (Hm1 & Hm2)).
  assert (E31 : 2 ^ 31 = 2147483648) by reflexivity.
  assert (E63 : 2 ^ 63 = 9223372036854775808) by reflexivity.
  unfold sum_timespec, nanos. cbn [tv_sec tv_nsec].
  rewrite (wrap_long_small (tv_nsec destination + tv_nsec additional_time)) by lia.
  split; [reflexivity|].
  destruct (1000000000 <? tv_nsec destination + tv_nsec additional_time).
  - rewrite (wrap_long_small (tv_sec destination + 1)) by lia.
    rewrite wrap_long_small by lia. lia.
  - rewrite wrap_long_small by lia. lia.
Qed.

Lemma sum_timespec_carry_witness :
  let r := sum_timespec (mkTimespec 3 700000000) (mkTimespec 1 600000000) in
  tv_nsec r = tv_nsec (mkTimespec 3 700000000) + tv_nsec (mkTimespec 1 600000000) /\
  nanos r = nanos (mkTimespec 3 700000000) + nanos (mkTimespec 1 600000000)
            + (if 1000000000 <? tv_nsec (mkTimespec 3 700000000)
                                + tv_nsec (mkTimespec 1 600000000)
               then 1000000000 else 0).
Proof.
  apply (sum_timespec_carry (mkTimespec 3 700000000) (mkTimespec 1 600000000)).
  - unfold normal. simpl. lia.
  - unfold normal. simpl. lia.
Defined.

End HarnessTimeFacts.

(** ** The harness: refused allocations *)

Module HarnessMore.
Import Harness HarnessFacts.

Section Refused.
Context {A : Type}.
Variable libc_grants : list libc_call -> libc_call -> bool.
Variable garbage : Z.
Implicit Types (s : hstate A).

(** X29.  [add_edge] when the C library refuses.  For a source row that
    does not exist yet, a refused [malloc] of the row or of its first array
    ends the process with [exit(1)].  For a row whose size is 15 modulo 16, a
    refused [realloc] is not noticed -- the check that follows tests
    [rows[i]], not the array -- and the new destination is written through
    the null array pointer. *)
Theorem add_edge_refused s i j :
  0 <= i ->
  (rows s !! Z.to_nat i = Some None ->
   libc_grants (libc_log s) (CMalloc sizeof_row) = false ->
   add_edge libc_grants garbage i j s = Stop (Exit 1)) /\
  (rows s !! Z.to_nat i = Some None ->
   libc_grants (libc_log s) (CMalloc sizeof_row) = true ->
   libc_grants (libc_log s ++ [CMalloc sizeof_row])
               (CMalloc (16 * sizeof_unsigned_int)) = false ->
   add_edge libc_grants garbage i j s = Stop (Exit 1)) /\
  (forall r, rows s !! Z.to_nat i = Some (Some r) ->
   size r mod 16 = 15 ->
   libc_grants (libc_log s)
               (CRealloc (wrap64 ((size r + 1 + 16) * sizeof_unsigned_int))) = false ->
   add_edge libc_grants garbage i j s = Stop NullDeref).
Proof.
  intros Hi. split; [|split].
  - intros Hr Hno. unfold add_edge.
    rewrite (bind_ret_inv _ _ _ _ _ (get_row_ok s i None Hi Hr)).
    unfold bind at 1, libc_request. rewrite Hno. reflexivity.
  - intros Hr Hyes Hno. unfold add_edge.
    rewrite (bind_ret_inv _ _ _ _ _ (get_row_ok s i None Hi Hr)).
    unfold bind at 1, libc_request at 1. rewrite Hyes. cbn [negb].
    unfold bind at 1, libc_request. cbn [libc_log]. rewrite Hno. reflexivity.
  - intros r Hr Hmod Hno. unfold add_edge.
    rewrite (bind_ret_inv _ _ _ _ _ (get_row_ok s i (Some r) Hi Hr)).
    cbv zeta. rewrite Hmod. change (15 =? 15) with true. cbv iota.
    unfold bind at 1 2, libc_request. rewrite Hno. reflexivity.
Qed.

End Refused.

Section NoQueue.
Context {A : Type}.
Implicit Types (s : hstate A).

(** [queue_create] when the registered [malloc] returns [NULL]: no queue. *)
Lemma queue_create_refused (w : world A) (f : malloc_fn A) :
  q_malloc_fptr w = Some f -> fst (f sizeof_queue (astate w)) = NULL ->
  Level2.queue_create w
  = Ret (NULL, with_astate (snd (f sizeof_queue (astate w))) w).
Proof.
  intros Hf Hnull. unfold Level2.queue_create. rewrite bind_get, Hf.
  unfold bind at 1, call_malloc.
  destruct (f sizeof_queue (astate w)) as [p a'] eqn:E. cbn [fst snd] in *. subst p.
  reflexivity.
Qed.

(** X30.  [breadth_first_search(i, j)] when [queue_create] cannot allocate
    the queue.  From a source row that is absent or already visited the
    search returns [false] with a node count of 1.  From a row with at least
    one edge the first [queue_push] fails and the function leaves through
    [return 1]: it reports [true], that a path was found, whatever [j] is,
    without printing and with the row left marked visited. *)
Theorem bfs_without_queue s i j fuel (f : malloc_fn A) :
  0 <= i ->
  q_malloc_fptr (qw s) = Some f -> fst (f sizeof_queue (astate (qw s))) = NULL ->
  let w' := with_astate (snd (f sizeof_queue (astate (qw s)))) (qw s) in
  (rows s !! Z.to_nat i = Some None \/
   (exists sz arr, rows s !! Z.to_nat i = Some (Some (mkRow sz arr true))) ->
   breadth_first_search (Datatypes.S fuel) i j s
   = Ret ((false, Some 1), mkH (rows s) (libc_log s) w')) /\
  (forall sz cells d,
   rows s !! Z.to_nat i = Some (Some (mkRow sz (Some cells) false)) ->
   0 < sz -> cells !! 0%nat = Some d ->
   breadth_first_search (Datatypes.S fuel) i j s
   = Ret ((true, None),
          mkH (<[Z.to_nat i := Some (mkRow sz (Some cells) true)]> (rows s))
              (libc_log s) w')).
Proof.
  intros Hi Hf Hnull w'.
  assert (Hcreate : liftq Level2.queue_create s = Ret (NULL, mkH (rows s) (libc_log s) w')).
  { unfold liftq. now rewrite (queue_create_refused (qw s) f Hf Hnull). }
  split.
  - intros Hrow. unfold breadth_first_search.
    rewrite (bind_ret_inv _ _ _ _ _ Hcreate).
    set (s1 := mkH (rows s) (libc_log s) w').
    assert (Hloop : bfs_loop (Datatypes.S fuel) NULL j false i 0 s1
                    = Ret (Finished false 1, s1)).
    { cbn [bfs_loop].
      destruct Hrow as [Hr | (sz & arr & Hr)].
      - rewrite (bind_ret_inv _ _ _ _ _ (get_row_ok s1 i None Hi Hr)). reflexivity.
      - rewrite (bind_ret_inv _ _ _ _ _ (get_row_ok s1 i _ Hi Hr)). reflexivity. }
    rewrite (bind_ret_inv _ _ _ _ _ Hloop). reflexivity.
  - intros sz cells d Hr Hsz Hd. unfold breadth_first_search.
    rewrite (bind_ret_inv _ _ _ _ _ Hcreate).
    set (s1 := mkH (rows s) (libc_log s) w').
    assert (Hloop : bfs_loop (Datatypes.S fuel) NULL j false i 0 s1
                    = Ret (Returned true,
                           mkH (<[Z.to_nat i := Some (mkRow sz (Some cells) true)]> (rows s))
                               (libc_log s) w')).
    { cbn [bfs_loop].
      rewrite (bind_ret_inv _ _ _ _ _ (get_row_ok s1 i _ Hi Hr)).
      unfold bind at 1, set_row. cbn [rows libc_log qw s1].
      destruct (Z.to_nat sz) as [|k] eqn:Ek; [lia|].
      cbn [push_adjacent]. unfold array_get. change (Z.to_nat 0) with 0%nat.
      rewrite Hd. reflexivity. }
    rewrite (bind_ret_inv _ _ _ _ _ Hloop). reflexivity.
Qed.

End NoQueue.
End HarnessMore.

Lemma add_edge_refused_witness :
  (Harness.rows harness_boot !! Z.to_nat 1 = Some None ->
   (fun _ _ => false) (Harness.libc_log harness_boot) (Harness.CMalloc Harness.sizeof_row)
   = false ->
   Harness.add_edge (fun _ _ => false) 0 1 2 harness_boot = Stop (Exit 1)) /\
  (Harness.rows harness_boot !! Z.to_nat 1 = Some None ->
   (fun _ _ => false) (Harness.libc_log harness_boot) (Harness.CMalloc Harness.sizeof_row)
   = true ->
   (fun _ _ => false) (Harness.libc_log harness_boot ++ [Harness.CMalloc Harness.sizeof_row])
     (Harness.CMalloc (16 * Harness.sizeof_unsigned_int)) = false ->
   Harness.add_edge (fun _ _ => false) 0 1 2 harness_boot = Stop (Exit 1)) /\
  (forall r, Harness.rows harness_boot !! Z.to_nat 1 = Some (Some r) ->
   Harness.size r mod 16 = 15 ->
   (fun _ _ => false) (Harness.libc_log harness_boot)
     (Harness.CRealloc (wrap64 ((Harness.size r + 1 + 16) * Harness.sizeof_unsigned_int)))
   = false ->
   Harness.add_edge (fun _ _ => false) 0 1 2 harness_boot = Stop NullDeref).
Proof.
  apply (HarnessMore.add_edge_refused (fun _ _ => false) 0 harness_boot 1 2). lia.
Defined.

Lemma bfs_without_queue_witness :
  let f := Harness.instrumented_malloc BumpPtr.libc_spaced in
  let s := harness_as_wired_edge in
  let w' := with_astate (snd (f sizeof_queue (astate (Harness.qw s)))) (Harness.qw s) in
  (Harness.rows s !! Z.to_nat 1 = Some None \/
   (exists sz arr, Harness.rows s !! Z.to_nat 1 = Some (Some (Harness.mkRow sz arr true))) ->
   Harness.breadth_first_search 1 1 4 s
   = Ret ((false, Some 1), Harness.mkH (Harness.rows s) (Harness.libc_log s) w')) /\
  (forall sz cells d,
   Harness.rows s !! Z.to_nat 1 = Some (Some (Harness.mkRow sz (Some cells) false)) ->
   0 < sz -> cells !! 0%nat = Some d ->
   Harness.breadth_first_search 1 1 4 s
   = Ret ((true, None),
          Harness.mkH (<[Z.to_nat 1 := Some (Harness.mkRow sz (Some cells) true)]> (Harness.rows s))
              (Harness.libc_log s) w')).
Proof.
  apply (HarnessMore.bfs_without_queue harness_as_wired_edge 1 4 0
           (Harness.instrumented_malloc BumpPtr.libc_spaced)).
  - lia.
  - reflexivity.
  - vm_compute. reflexivity.
Defined.
